(** * glbtool: mesh cleanup, decimation guard, texture recompression,
      scene flattening and parameter validation

    A shallow embedding of the pure core of [glbtools] (mesh_processor.py,
    texture_processor.py, scene_manager.py, validators.py, config.py and the
    parameter part of glbopt.py), together with the properties stated about
    it.

    Conventions of the embedding:
    - a Python attribute that may be missing ([hasattr]) is an [option];
      an attribute that exists but may hold [None] is an [option] again;
    - a Python float is modelled by the rational it denotes ([Q]); a
      product of floats is the exact product rounded to binary64, and an
      infinite product is a value of its own; NaN does not occur.  A
      literal that enters a product is the float nearest to the decimal
      written; the bounds 0.01 and 0.05 of the ratio checks are only
      compared with, and stand as written: the float nearest to each lies
      above it, so that a float is at least the bound exactly when it is
      at least that float;
    - a [try: ... except Exception] block is an explicit match on the
      outcome [Py] of its body; [print] and logger calls are omitted;
    - library code (trimesh, numpy, Pillow) that the repository calls but
      does not contain is a record of functions passed as a parameter. *)

From Stdlib Require Import ZArith QArith Qround Qminmax Qabs Qpower Qreduction.
From Stdlib Require Import SpecFloat Lia Lqa Ascii String.
From stdpp Require Import base decidable option numbers list sorting gmap strings pretty.

Local Open Scope Z_scope.

(** ** Python outcomes *)

Inductive PyError : Type :=
  | IndexError
  | KeyError
  | AttributeError
  | OverflowError
  | LibraryError.

Inductive Py (A : Type) : Type :=
  | Ok (a : A)
  | Raise (e : PyError).
Arguments Ok {A} a.
Arguments Raise {A} e.

#[global] Instance Py_ret : MRet Py := fun _ a => Ok a.
#[global] Instance Py_bind : MBind Py := fun _ _ f m =>
  match m with
  | Ok a => f a
  | Raise e => Raise e
  end.

(** Run a list of computations in order; the first exception aborts. *)
Fixpoint py_mapM {A B : Type} (f : A -> Py B) (l : list A) : Py (list B) :=
  match l with
  | [] => Ok []
  | x :: l' =>
      match f x with
      | Ok y =>
          match py_mapM f l' with
          | Ok ys => Ok (y :: ys)
          | Raise e => Raise e
          end
      | Raise e => Raise e
      end
  end.

(** ** Numbers *)

(** Python [int(x)] on a float: truncation toward zero. *)
Definition py_int (x : Q) : Z := Z.quot (Qnum x) (Zpos (Qden x)).

(** Python [max(a, b)] on two numbers: [b] only when [b > a]. *)
Definition py_max (a b : Q) : Q :=
  match Qcompare a b with
  | Lt => b
  | _ => a
  end.

(** Python [max] on two integers. *)
Definition py_maxZ (a b : Z) : Z := if Z.ltb a b then b else a.

(** ** Float arithmetic

    A float is an IEEE 754 binary64 number.  The result of an operation
    is the exact result rounded to the nearest number with a significand
    of 53 bits and an exponent of at least -1074, a tie going to the even
    significand; a rounded result of magnitude [2 ^ 1024] or more is
    infinite. *)

(** The floor of [log2 x], for [0 < x]. *)
Definition Qlog2 (x : Q) : Z :=
  let k := Z.log2 (Qnum x) - Z.log2 (Zpos (Qden x)) in
  if Qle_bool (2 ^ k) x then k else k - 1.

(** The nearest integer, a tie going to the even one. *)
Definition round_half_even (y : Q) : Z :=
  let f := Qfloor y in
  match (y - inject_Z f ?= 1 # 2)%Q with
  | Lt => f
  | Gt => f + 1
  | Eq => if Z.even f then f else f + 1
  end.

(** The exponent of the last bit of the significand of [x]. *)
Definition binary64_exponent (x : Q) : Z :=
  Z.max (-1074) (Qlog2 (Qabs x) - 52).

Definition round_binary64 (x : Q) : Q :=
  let x := Qred x in
  if Qeq_bool x 0 then 0%Q
  else
    let e := binary64_exponent x in
    Qred (inject_Z (round_half_even (x / 2 ^ e)) * 2 ^ e).

Inductive PyFloat : Type :=
  | Float (x : Q)
  | Inf.

Definition binary64 (x : Q) : PyFloat :=
  let r := round_binary64 x in
  if Qle_bool (2 ^ 1024) (Qabs r) then Inf else Float r.

(** [float(n)] of an int, as the arithmetic operators apply it to an int
    operand: an int out of range is an [OverflowError]. *)
Definition py_float (n : Z) : Py Q :=
  match binary64 (inject_Z n) with
  | Float a => Ok a
  | Inf => Raise OverflowError
  end.

(** [a * b] on two floats. *)
Definition py_mul (a b : Q) : PyFloat := binary64 (a * b).

(** [int(x)] of a float: an infinite one is an [OverflowError]. *)
Definition py_int_float (x : PyFloat) : Py Z :=
  match x with
  | Float q => Ok (py_int q)
  | Inf => Raise OverflowError
  end.

(** [int(n * r)] for an int [n] and a float [r]. *)
Definition int_times (n : Z) (r : Q) : Py Z :=
  a ← py_float n; py_int_float (py_mul a r).

(** ** numpy indexing *)

(** An index [i] into an axis of length [n]: [0 <= i < n] as it is,
    [-n <= i < 0] counted from the end, anything else is an [IndexError]. *)
Definition np_index (n : nat) (i : Z) : Py nat :=
  if bool_decide (0 <= i < Z.of_nat n) then Ok (Z.to_nat i)
  else if bool_decide (- Z.of_nat n <= i < 0) then Ok (Z.to_nat (Z.of_nat n + i))
  else Raise IndexError.

Definition np_get {A : Type} (a : list A) (i : Z) : Py A :=
  match np_index (length a) i with
  | Ok k =>
      match a !! k with
      | Some x => Ok x
      | None => Raise IndexError
      end
  | Raise e => Raise e
  end.

(** [a[idx]] with a list of indices (fancy indexing). *)
Definition np_take {A : Type} (a : list A) (idx : list Z) : Py (list A) :=
  py_mapM (np_get a) idx.

(** ** Geometry *)

(** A row of floats: a position, a normal, a UV pair, a colour, a tangent. *)
Definition Vec : Type := list Q.

(** A row of the face array: three vertex indices. *)
Definition Face : Type := (Z * Z * Z)%type.

Definition face_indices (f : Face) : list Z :=
  let '(a, b, c) := f in [a; b; c].

(** [faces.flatten()] *)
Definition flatten (fs : list Face) : list Z := concat (map face_indices fs).

Definition MaterialId : Type := nat.

(** [geometry.visual].  [uv = None]: the visual has no [uv] attribute;
    [uv = Some None]: the attribute holds [None]. *)
Record Visual : Type := mkVisual {
  uv : option (option (list Vec));
  vertex_colors : option (list Vec);
  material : option MaterialId
}.

(** A geometry object as the processors see it: each attribute may be
    missing.  Besides the vertex and face buffers it carries the per-vertex
    arrays of the data model (normals, tangents, and UVs and colours inside
    [visual]). *)
Record Mesh : Type := mkMesh {
  vertices : option (list Vec);
  faces : option (list Face);
  visual : option Visual;
  vertex_normals : option (list Vec);
  vertex_tangents : option (list Vec)
}.

(** Attribute assignment: only the named attribute changes. *)
Definition set_vertices (g : Mesh) (vs : list Vec) : Mesh :=
  mkMesh (Some vs) (faces g) (visual g) (vertex_normals g) (vertex_tangents g).

Definition set_faces (g : Mesh) (fs : list Face) : Mesh :=
  mkMesh (vertices g) (Some fs) (visual g) (vertex_normals g) (vertex_tangents g).

Definition set_visual (g : Mesh) (v : Visual) : Mesh :=
  mkMesh (vertices g) (faces g) (Some v) (vertex_normals g) (vertex_tangents g).

Definition set_uv (v : Visual) (u : list Vec) : Visual :=
  mkVisual (Some (Some u)) (vertex_colors v) (material v).

(** [len(geometry.vertices) if hasattr(geometry, 'vertices') else 0] *)
Definition vertex_count (g : Mesh) : nat :=
  match vertices g with
  | Some vs => length vs
  | None => 0%nat
  end.

Definition face_count (g : Mesh) : nat :=
  match faces g with
  | Some fs => length fs
  | None => 0%nat
  end.

(** ** MeshProcessor._remove_unused_vertices *)

(** [for new_idx, old_idx in enumerate(l): d[old_idx] = new_idx] *)
Definition index_mapping (l : list Z) : gmap Z Z :=
  foldl (fun (d : gmap Z Z) (p : nat * Z) => <[p.2 := Z.of_nat p.1]> d) ∅
        (imap (fun i x => (i, x)) l).

(** [old_to_new_index[old_idx]], a [KeyError] when absent. *)
Definition dict_get (d : gmap Z Z) (k : Z) : Py Z :=
  match d !! k with
  | Some v => Ok v
  | None => Raise KeyError
  end.

(** [[old_to_new_index[old_idx] for old_idx in face]] *)
Definition remap_face (d : gmap Z Z) (f : Face) : Py Face :=
  let '(a, b, c) := f in
  a' ← dict_get d a; b' ← dict_get d b; c' ← dict_get d c; Ok (a', b', c').

Definition used_indices (fs : list Face) : gset Z :=
  if bool_decide (0 < length fs)%nat then list_to_set (flatten fs) else ∅.

Definition _remove_unused_vertices (g : Mesh) : bool * Mesh :=
  match vertices g, faces g with
  | Some vs, Some fs =>
      let original_vertices := length vs in
      if bool_decide (original_vertices = 0%nat) then (false, g)
      else
        let used_vertex_indices := used_indices fs in
        let all_indices : gset Z := list_to_set (seqZ 0 (Z.of_nat original_vertices)) in
        let unused_indices := all_indices ∖ used_vertex_indices in
        if bool_decide (size unused_indices = 0%nat) then (true, g)
        else
          let used_indices_list := merge_sort Z.le (elements used_vertex_indices) in
          match np_take vs used_indices_list with
          | Raise _ => (false, g)
          | Ok new_vertices =>
              let old_to_new_index := index_mapping used_indices_list in
              match py_mapM (remap_face old_to_new_index) fs with
              | Raise _ => (false, g)
              | Ok new_faces =>
                  let g1 := set_faces (set_vertices g new_vertices) new_faces in
                  match visual g1 with
                  | None => (false, g1)
                  | Some v =>
                      match uv v with
                      | Some (Some uvs) =>
                          match np_take uvs used_indices_list with
                          | Raise _ => (false, g1)
                          | Ok new_uv => (true, set_visual g1 (set_uv v new_uv))
                          end
                      | _ => (true, g1)
                      end
                  end
              end
          end
  | _, _ => (false, g)
  end.

(** ** Configuration (config.py)

    The fields of [OptimizationConfig] that the embedded functions read;
    the size, timing, logging and validation switches are left out. *)

Record OptimizationConfig : Type := mkConfig {
  webp_quality_normal : Z;
  webp_quality_aggressive : Z;
  webp_resize_factor : Q;
  min_texture_size : Z;
  min_face_ratio : Q;
  safe_face_ratio : Q;
  min_face_count : Z
}.

(** The dataclass defaults; the literal 0.8 is the float nearest to
    4/5, the literals 0.75 and 0.5 are exact. *)
Definition default_config : OptimizationConfig :=
  mkConfig 85 70 (3 # 4) 64 (1 # 2) (round_binary64 (4 # 5)) 100.

(** ** The trimesh methods a geometry object may offer

    A field of type [option _] is a method that [hasattr] may find missing;
    the others are called without a guard, so a missing one is a function
    that raises [AttributeError].  A method acts on the geometry it is
    called on; a call that raises is taken to leave the geometry as it
    found it. *)
Record Trimesh : Type := mkTrimesh {
  merge_vertices : option (Mesh -> Py Mesh);
  remove_unreferenced_vertices : option (Mesh -> Py Mesh);
  nondegenerate_faces : option (Mesh -> Py (list bool));
  unique_faces : option (Mesh -> Py (list bool));
  update_faces : Mesh -> list bool -> Py Mesh;
  remove_degenerate_faces : option (Mesh -> Py Mesh);
  remove_duplicate_faces : option (Mesh -> Py Mesh);
  fix_normals : option (Mesh -> Py Mesh);
  simplify_quadric_decimation : Mesh -> Z -> Py (option Mesh);
  is_valid : option (Mesh -> Py bool);
  fill_holes : option (Mesh -> Py Mesh)
}.

(** [if hasattr(geometry, 'm'): geometry.m()] *)
Definition call_if_present (m : option (Mesh -> Py Mesh)) (g : Mesh) : Py Mesh :=
  match m with
  | Some f => f g
  | None => Ok g
  end.

(** ** MeshProcessor._remove_invalid_faces / _remove_duplicate_faces *)

(** The common shape of both: ask for a mask and apply it; on any
    exception fall back to the older method when it exists (its own
    exception is not caught here). *)
Definition mask_or_fallback (lib : Trimesh)
    (mask : option (Mesh -> Py (list bool)))
    (fallback : option (Mesh -> Py Mesh)) (g : Mesh) : Py Mesh :=
  match mask with
  | None => Ok g
  | Some get_mask =>
      match (m ← get_mask g; update_faces lib g m) with
      | Ok g' => Ok g'
      | Raise _ => call_if_present fallback g
      end
  end.

Definition _remove_invalid_faces (lib : Trimesh) (g : Mesh) : Py Mesh :=
  mask_or_fallback lib (nondegenerate_faces lib) (remove_degenerate_faces lib) g.

Definition _remove_duplicate_faces (lib : Trimesh) (g : Mesh) : Py Mesh :=
  mask_or_fallback lib (unique_faces lib) (remove_duplicate_faces lib) g.

(** ** MeshProcessor.clean_geometry *)

(** The passes after the unused-vertex removal, in the order of the
    source: merge_vertices, remove_unreferenced_vertices, degenerate
    faces, duplicate faces, fix_normals.  The result pairs the outcome
    with the geometry as the last completed pass left it. *)
Definition library_passes (lib : Trimesh) (g1 : Mesh) : bool * Mesh :=
  match call_if_present (merge_vertices lib) g1 with
  | Raise _ => (false, g1)
  | Ok g2 =>
      match call_if_present (remove_unreferenced_vertices lib) g2 with
      | Raise _ => (false, g2)
      | Ok g3 =>
          match _remove_invalid_faces lib g3 with
          | Raise _ => (false, g3)
          | Ok g4 =>
              match _remove_duplicate_faces lib g4 with
              | Raise _ => (false, g4)
              | Ok g5 =>
                  match call_if_present (fix_normals lib) g5 with
                  | Raise _ => (false, g5)
                  | Ok g6 => (true, g6)
                  end
              end
          end
      end
  end.

(** The result of [_remove_unused_vertices] is not looked at; the counts
    taken before and after only feed a [print]. *)
Definition clean_geometry (lib : Trimesh) (g : Mesh) : bool * Mesh :=
  let g1 := (_remove_unused_vertices g).2 in
  library_passes lib g1.

(** ** MeshProcessor.simplify_geometry_safely *)

(** Lines 31-41: what is done with the decimation result. *)
Definition accept_simplified (g : Mesh) (original_faces : Z)
    (r : Py (option Mesh)) : (bool * Z * Z) * Mesh :=
  match r with
  | Raise _ => ((false, 0, 0), g)
  | Ok None => ((false, original_faces, original_faces), g)
  | Ok (Some simplified) =>
      match faces simplified with
      | Some sfaces =>
          if bool_decide (0 < length sfaces)%nat then
            match vertices simplified with
            | None => ((false, 0, 0), g)
            | Some svertices =>
                let g1 := set_faces (set_vertices g svertices) sfaces in
                let g2 :=
                  match visual simplified with
                  | Some v => set_visual g1 v
                  | None => g1
                  end in
                ((true, original_faces, Z.of_nat (length sfaces)), g2)
            end
          else ((false, original_faces, original_faces), g)
      | None => ((false, original_faces, original_faces), g)
      end
  end.

Definition simplify_geometry_safely (lib : Trimesh) (config : OptimizationConfig)
    (g : Mesh) (target_faces_ratio : Q) : (bool * Z * Z) * Mesh :=
  match faces g with
  | None => ((false, 0, 0), g)
  | Some fs =>
      if bool_decide (Z.of_nat (length fs) < min_face_count config)
      then ((false, 0, 0), g)
      else
        let original_faces := Z.of_nat (length fs) in
        let safe_ratio := py_max (safe_face_ratio config) target_faces_ratio in
        match int_times original_faces safe_ratio with
        | Raise _ => ((false, 0, 0), g)
        | Ok target_face_count =>
            accept_simplified g original_faces
              (simplify_quadric_decimation lib g target_face_count)
        end
  end.

(** ** MeshProcessor.validate_and_repair_mesh *)

(** [np.max] of a flattened array; empty input raises. *)
Definition np_max (l : list Z) : Py Z :=
  match l with
  | [] => Raise LibraryError
  | x :: l' => Ok (foldl Z.max x l')
  end.

(** [np.all(face <= max_vertex_index) and np.all(face >= 0)] *)
Definition face_valid (max_vertex_index : Z) (f : Face) : bool :=
  forallb (fun i => Z.leb i max_vertex_index) (face_indices f)
  && forallb (fun i => Z.leb 0 i) (face_indices f).

(** Lines 320-336: the integrity check that ends the function. *)
Definition integrity_check (lib : Trimesh) (g : Mesh) : bool * Mesh :=
  match is_valid lib with
  | None => (true, g)
  | Some valid =>
      match valid g with
      | Raise _ => (false, g)
      | Ok true => (true, g)
      | Ok false =>
          match fill_holes lib with
          | None => (true, g)
          | Some fill =>
              match fill g with
              | Ok g' => (true, g')
              | Raise _ => (true, g)
              end
          end
      end
  end.

(** Past the emptiness check the guard of line 303 ([hasattr(geometry,
    'faces') and len(geometry.faces) > 0]) always holds and is not
    repeated. *)
Definition validate_and_repair_mesh (lib : Trimesh) (g : Mesh) : bool * Mesh :=
  match vertices g, faces g with
  | Some vs, Some fs =>
      if bool_decide (length vs = 0%nat \/ length fs = 0%nat) then (false, g)
      else
        let max_vertex_index := Z.of_nat (length vs) - 1 in
        match np_max (flatten fs) with
        | Raise _ => (false, g)
        | Ok face_max =>
            if bool_decide (face_max > max_vertex_index) then
              let valid_faces := List.filter (face_valid max_vertex_index) fs in
              if bool_decide (0 < length valid_faces)%nat
              then integrity_check lib (set_faces g valid_faces)
              else (false, g)
            else integrity_check lib g
        end
  | _, _ => (false, g)
  end.

(** A geometry object that has the data attributes only: none of the
    optional methods, and the unguarded ones raise [AttributeError]. *)
Definition bare_object : Trimesh :=
  mkTrimesh None None None None
    (fun _ _ => Raise AttributeError) None None None
    (fun _ _ => Raise AttributeError) None None.

(** ** Parameter validation (config.py, validators.py, glbopt.py) *)

(** A command-line value as the validators may receive it. *)
Inductive PyValue : Type :=
  | PyNum (q : Q)
  | PyStr (s : string)
  | PyNone.

Inductive ValidationMessage : Type :=
  | RatioNotNumeric
  | RatioOutOfRange (r : Q)
  | ModeNotString
  | ModeInvalid (m : string).

Definition ValidationResult : Type := (bool * list ValidationMessage)%type.

(** Two functions of the repository are called [validate_target_ratio]:
    the one of config.py and the method of [ParameterValidator]. *)
Module Config.

(** config.validate_target_ratio: [0.05 <= ratio <= 1.0] *)
Definition validate_target_ratio (ratio : Q) : bool :=
  Qle_bool (5 # 100) ratio && Qle_bool ratio 1.

End Config.

(** [str.lower] on the ASCII letters. *)
Definition ascii_lower (c : ascii) : ascii :=
  let n := nat_of_ascii c in
  if (Nat.leb 65 n && Nat.leb n 90)%bool then ascii_of_nat (n + 32) else c.

Fixpoint lower (s : string) : string :=
  match s with
  | EmptyString => EmptyString
  | String c s' => String (ascii_lower c) (lower s')
  end.

Definition valid_modes : list string :=
  ["normal"; "aggressive"; "ultra"; "vertex"; "repair"]%string.

Module ParameterValidator.

(** ParameterValidator.validate_target_ratio: a number is accepted when
    [0.01 <= ratio <= 1.0]. *)
Definition validate_target_ratio (ratio : PyValue) : ValidationResult :=
  match ratio with
  | PyNum r =>
      let errors :=
        if negb (Qle_bool (1 # 100) r && Qle_bool r 1)
        then [RatioOutOfRange r] else [] in
      (bool_decide (length errors = 0%nat), errors)
  | _ => (false, [RatioNotNumeric])
  end.

(** ParameterValidator.validate_mode *)
Definition validate_mode (mode : PyValue) : ValidationResult :=
  match mode with
  | PyStr m =>
      let errors :=
        if bool_decide (lower m ∈ valid_modes) then [] else [ModeInvalid m] in
      (bool_decide (length errors = 0%nat), errors)
  | _ => (false, [ModeNotString])
  end.

End ParameterValidator.

(** The parsed command line, with the outcome of the two file checks
    (validate_input_file, validate_glb_content) as given facts. *)
Record Options : Type := mkOptions {
  input_file_valid : bool;
  validation : bool;
  glb_content_valid : bool;
  mode : string;
  ratio : option Q
}.

(** glbopt.validate_input *)
Definition validate_input (options : Options) : bool :=
  if negb (input_file_valid options) then false
  else if validation options && negb (glb_content_valid options) then false
  else if negb (ParameterValidator.validate_mode (PyStr (mode options))).1 then false
  else
    match ratio options with
    | Some r =>
        if negb (ParameterValidator.validate_target_ratio (PyNum r)).1
        then false else true
    | None => true
    end.

(** ** Scenes (scene_manager.py) *)

(** A scene: the mapping from name to geometry in insertion order
    ([None]: the object has no [geometry] attribute).  A geometry added by
    [add_geometry(g, node_name=s)] is recorded as the entry [(s, g)]; the
    constructor and [add_geometry] belong to trimesh and are taken to
    succeed. *)
Record Scene : Type := mkScene {
  geometry : option (list (string * Mesh))
}.

(** [Scene()] *)
Definition Scene_new : Scene := mkScene (Some []).

Definition add_geometry (scene : Scene) (g : Mesh) (node_name : string) : Scene :=
  match geometry scene with
  | Some entries => mkScene (Some (entries ++ [(node_name, g)]))
  | None => mkScene (Some [(node_name, g)])
  end.

(** [f"mesh_{flattened_count}"] *)
Definition simple_name (flattened_count : nat) : string :=
  ("mesh_" ++ pretty flattened_count)%string.

(** [hasattr(geometry, 'vertices') and hasattr(geometry, 'faces')] *)
Definition has_vertices_and_faces (g : Mesh) : bool :=
  bool_decide (is_Some (vertices g)) && bool_decide (is_Some (faces g)).

(** The loop of flatten_scene; the state is the flat scene and the
    counter. *)
Definition flatten_step (st : Scene * nat) (entry : string * Mesh) : Scene * nat :=
  let '(flat_scene, flattened_count) := st in
  let '(name, g) := entry in
  if has_vertices_and_faces g
  then (add_geometry flat_scene g (simple_name flattened_count), S flattened_count)
  else (flat_scene, flattened_count).

(** SceneManager.flatten_scene *)
Definition flatten_scene (scene : Scene) : Scene :=
  let flat_scene := Scene_new in
  match geometry scene with
  | Some (e :: entries) => (foldl flatten_step (flat_scene, 0%nat) (e :: entries)).1
  | _ => flat_scene
  end.

(** ** Textures (texture_processor.py) *)

Inductive Dtype : Type := uint8 | float32 | other_dtype.

Record NdArray : Type := mkNdArray {
  dtype : Dtype;
  shape : list Z;
  data : list Q
}.

Inductive Mode : Type := L | RGB | RGBA | other_mode.

#[global] Instance Mode_eq_dec : EqDecision Mode.
Proof. solve_decision. Defined.

#[global] Instance Dtype_eq_dec : EqDecision Dtype.
Proof. solve_decision. Defined.

Record PilImage : Type := mkPilImage {
  pil_mode : Mode;
  size : Z * Z;
  pixels : list Z
}.

(** What [material.image] may hold. *)
Inductive Image : Type :=
  | ImgArray (a : NdArray)
  | ImgPil (p : PilImage)
  | ImgOther.

(** The numpy and Pillow calls of the texture processor. *)
Record Pillow : Type := mkPillow {
  scale_to_uint8 : NdArray -> Py NdArray;      (* (image * 255).astype(np.uint8) *)
  fromarray : NdArray -> Mode -> Py PilImage;  (* Image.fromarray(image, mode) *)
  resize : PilImage -> Z * Z -> Py PilImage;   (* pil_image.resize(size, LANCZOS) *)
  convert : PilImage -> Mode -> Py PilImage;   (* pil_image.convert(mode) *)
  save_webp : PilImage -> Z -> Py (list Z);    (* save(buffer, 'WebP', quality, method=6) *)
  open_image : list Z -> Py PilImage;          (* Image.open(buffer) *)
  asarray : PilImage -> Py NdArray;            (* np.array(pil_image) *)
  astype_uint8 : NdArray -> Py NdArray;        (* a.astype(np.uint8) *)
  to_unit_float32 : NdArray -> Py NdArray      (* a.astype(np.float32) / 255.0 *)
}.

(** TextureProcessor._numpy_to_pil *)
Definition _numpy_to_pil (px : Pillow) (image : Image) : option Image :=
  match image with
  | ImgArray a =>
      let body : Py Image :=
        a1 ← (if bool_decide (dtype a ≠ uint8) then scale_to_uint8 px a else Ok a);
        p ← (if bool_decide (length (shape a1) = 3%nat) then
               if bool_decide (shape a1 !! 2%nat = Some 4)
               then fromarray px a1 RGBA
               else fromarray px a1 RGB
             else fromarray px a1 L);
        Ok (ImgPil p) in
      match body with
      | Ok r => Some r
      | Raise _ => None
      end
  | _ => Some image
  end.

(** TextureProcessor._pil_to_numpy *)
Definition _pil_to_numpy (px : Pillow) (pil_image : PilImage) : option NdArray :=
  let body : Py NdArray :=
    a ← asarray px pil_image;
    a1 ← (if bool_decide (dtype a ≠ uint8) then astype_uint8 px a else Ok a);
    to_unit_float32 px a1 in
  match body with
  | Ok r => Some r
  | Raise _ => None
  end.

(** Lines 84-92: the size handed to [resize]. *)
Definition resized_dimensions (config : OptimizationConfig)
    (original_size : Z * Z) (resize_factor : Q) : Py (Z * Z) :=
  width ← int_times original_size.1 resize_factor;
  height ← int_times original_size.2 resize_factor;
  let new_size := (width, height) in
  Ok (py_maxZ (min_texture_size config) new_size.1,
      py_maxZ (min_texture_size config) new_size.2).

(** Lines 96-112: encode as WebP, read it back, convert to an array. *)
Definition webp_roundtrip (px : Pillow) (pil_image : PilImage) (quality : Z)
    : Py (option NdArray) :=
  buffer ← (if bool_decide (pil_mode pil_image = RGBA)
            then save_webp px pil_image quality
            else
              p ← (if bool_decide (pil_mode pil_image ≠ RGB)
                   then convert px pil_image RGB else Ok pil_image);
              save_webp px p quality);
  compressed_pil ← open_image px buffer;
  Ok (_pil_to_numpy px compressed_pil).

(** TextureProcessor._compress_texture_webp *)
Definition _compress_texture_webp (px : Pillow) (config : OptimizationConfig)
    (image : Image) (quality : Z) (resize_factor : Q) : option NdArray :=
  match _numpy_to_pil px image with
  | None => None
  | Some (ImgPil pil_image) =>
      let original_size := size pil_image in
      let body : Py (option NdArray) :=
        p ← (if negb (Qeq_bool resize_factor 1)
             then new_size ← resized_dimensions config original_size resize_factor;
                  resize px pil_image new_size
             else Ok pil_image);
        webp_roundtrip px p quality in
      match body with
      | Ok r => r
      | Raise _ => None
      end
  | Some _ => None
  end.

(** A material object; geometries refer to materials by identity, so the
    materials live in a heap and a visual holds a [MaterialId]. *)
Record Material : Type := mkMaterial {
  image : option (option Image);
  base_color_factor : option Vec
}.

Definition set_image (m : Material) (i : Image) : Material :=
  mkMaterial (Some (Some i)) (base_color_factor m).

(** The loop of compress_scene_textures_webp over [scene.geometry.items()];
    the state is [texture_found] and the material heap.  A material id
    without an object in the heap has no counterpart in Python and is
    treated as an exception. *)
Fixpoint compress_loop (px : Pillow) (config : OptimizationConfig)
    (quality : Z) (resize_factor : Q) (entries : list (string * Mesh))
    (texture_found : bool) (heap : gmap MaterialId Material)
    : Py bool * gmap MaterialId Material :=
  match entries with
  | [] => (Ok texture_found, heap)
  | (name, g) :: rest =>
      match visual g with
      | None => compress_loop px config quality resize_factor rest texture_found heap
      | Some v =>
          match material v with
          | None => compress_loop px config quality resize_factor rest texture_found heap
          | Some mid =>
              match heap !! mid with
              | None => (Raise AttributeError, heap)
              | Some m =>
                  match image m with
                  | Some (Some img) =>
                      match _compress_texture_webp px config img quality resize_factor with
                      | Some compressed_image =>
                          compress_loop px config quality resize_factor rest true
                            (<[mid := set_image m (ImgArray compressed_image)]> heap)
                      | None =>
                          compress_loop px config quality resize_factor rest true heap
                      end
                  | _ => compress_loop px config quality resize_factor rest texture_found heap
                  end
              end
          end
      end
  end.

(** TextureProcessor.compress_scene_textures_webp: the [try] body and its
    handler. *)
Definition compress_scene_textures_webp (px : Pillow) (config : OptimizationConfig)
    (scene : Scene) (heap : gmap MaterialId Material)
    (quality : Z) (resize_factor : Q) : Py bool * gmap MaterialId Material :=
  let body :=
    match geometry scene with
    | Some entries => compress_loop px config quality resize_factor entries false heap
    | None => (Ok false, heap)
    end in
  match body with
  | (Ok texture_found, heap') => (Ok texture_found, heap')
  | (Raise _, heap') => (Ok false, heap')
  end.


(** * Reference library and sample inputs *)

(** ** A reference implementation of the library passes

    The passes of trimesh follow their description in the pipeline of
    [clean_geometry]: merging of vertices at the same position (the
    tolerance is taken as exact equality of the coordinates), removal of
    unreferenced vertices, a mask of the faces with three distinct
    indices, a mask of the first occurrence of each index triple up to
    order, and the application of a mask to the face buffer.  They serve to
    run the pipeline on concrete meshes. *)

Definition vec_eqb (a b : Vec) : bool :=
  bool_decide (length a = length b)
  && forallb (fun p : Q * Q => Qeq_bool p.1 p.2) (zip a b).

Fixpoint find_index {A : Type} (p : A -> bool) (l : list A) : option nat :=
  match l with
  | [] => None
  | x :: l' => if p x then Some 0%nat else S <$> find_index p l'
  end.

Definition found (o : option nat) : Py nat :=
  match o with
  | Some k => Ok k
  | None => Raise LibraryError
  end.

Definition ref_merge_vertices (g : Mesh) : Py Mesh :=
  match vertices g, faces g with
  | Some vs, Some fs =>
      (* the first vertex at the position of each vertex *)
      representative ← py_mapM (fun v => found (find_index (vec_eqb v) vs)) vs;
      let kept :=
        List.filter (fun i => bool_decide (representative !! i = Some i))
                    (seq 0 (length vs)) in
      new_of_old ←
        py_mapM (fun r => k ← found (find_index (Nat.eqb r) kept); Ok (Z.of_nat k))
                representative;
      new_vertices ← np_take vs (map Z.of_nat kept);
      new_faces ←
        py_mapM (fun f : Face =>
                   let '(a, b, c) := f in
                   a' ← np_get new_of_old a;
                   b' ← np_get new_of_old b;
                   c' ← np_get new_of_old c;
                   Ok (a', b', c')) fs;
      Ok (set_faces (set_vertices g new_vertices) new_faces)
  | _, _ => Raise AttributeError
  end.

Definition ref_remove_unreferenced_vertices (g : Mesh) : Py Mesh :=
  Ok (_remove_unused_vertices g).2.

Definition distinct_indices (f : Face) : bool :=
  let '(a, b, c) := f in
  negb (Z.eqb a b) && negb (Z.eqb b c) && negb (Z.eqb a c).

Definition ref_nondegenerate_faces (g : Mesh) : Py (list bool) :=
  match faces g with
  | Some fs => Ok (map distinct_indices fs)
  | None => Raise AttributeError
  end.

Fixpoint first_occurrences (seen : list (list Z)) (fs : list Face) : list bool :=
  match fs with
  | [] => []
  | f :: fs' =>
      let key := merge_sort Z.le (face_indices f) in
      if bool_decide (key ∈ seen)
      then false :: first_occurrences seen fs'
      else true :: first_occurrences (key :: seen) fs'
  end.

Definition ref_unique_faces (g : Mesh) : Py (list bool) :=
  match faces g with
  | Some fs => Ok (first_occurrences [] fs)
  | None => Raise AttributeError
  end.

Definition ref_update_faces (g : Mesh) (mask : list bool) : Py Mesh :=
  match faces g with
  | Some fs =>
      if bool_decide (length mask = length fs)
      then Ok (set_faces g (map snd (List.filter fst (zip mask fs))))
      else Raise IndexError
  | None => Raise AttributeError
  end.

(** A stand-in for the decimation: it keeps the first [face_count] faces. *)
Definition truncating_decimation (g : Mesh) (face_count : Z) : Py (option Mesh) :=
  match faces g with
  | Some fs => Ok (Some (set_faces g (take (Z.to_nat face_count) fs)))
  | None => Raise AttributeError
  end.

Definition reference_trimesh : Trimesh :=
  mkTrimesh (Some ref_merge_vertices) (Some ref_remove_unreferenced_vertices)
    (Some ref_nondegenerate_faces) (Some ref_unique_faces) ref_update_faces
    None None (Some (fun g => Ok g)) truncating_decimation None None.

(** ** Predicates *)

Definition face_index_list (g : Mesh) : list Z :=
  match faces g with
  | Some fs => flatten fs
  | None => []
  end.

(** Every index of the face buffer is strictly below the length of the
    vertex buffer. *)
Definition indices_in_range (g : Mesh) : Prop :=
  Forall (fun i => i < Z.of_nat (vertex_count g)) (face_index_list g).

#[global] Instance indices_in_range_dec g : Decision (indices_in_range g).
Proof. unfold indices_in_range. apply _. Defined.

(** A library method keeps a property of the geometry it acts on. *)
Definition method_preserves (P : Mesh -> Prop) (m : option (Mesh -> Py Mesh)) : Prop :=
  forall f g g', m = Some f -> P g -> f g = Ok g' -> P g'.

(** The methods called by [clean_geometry] keep a property. *)
Record library_preserves (P : Mesh -> Prop) (lib : Trimesh) : Prop := {
  preserves_merge_vertices : method_preserves P (merge_vertices lib);
  preserves_remove_unreferenced : method_preserves P (remove_unreferenced_vertices lib);
  preserves_update_faces :
    forall g mask g', P g -> update_faces lib g mask = Ok g' -> P g';
  preserves_remove_degenerate : method_preserves P (remove_degenerate_faces lib);
  preserves_remove_duplicate : method_preserves P (remove_duplicate_faces lib);
  preserves_fix_normals : method_preserves P (fix_normals lib)
}.

(** The object has a merge pass, and whenever that pass returns normally
    the faces it leaves behind are in range (it rebuilds them against the
    merged vertex buffer and fails on an index it cannot resolve). *)
Definition merge_rebuilds_in_range (lib : Trimesh) : Prop :=
  exists merge,
    merge_vertices lib = Some merge
    /\ forall g g', merge g = Ok g' -> indices_in_range g'.

(** ** Sample geometries *)

Definition v3 (x y z : Z) : Vec := [inject_Z x; inject_Z y; inject_Z z].

(** Three vertices, all referenced, and a face that also names vertex 5. *)
Definition dangling_mesh : Mesh :=
  mkMesh (Some [v3 0 0 0; v3 1 0 0; v3 0 1 0])
         (Some [(0, 1, 2); (0, 2, 5)]) None None None.

(** Four vertices of which vertex 1 is unused. *)
Definition spare_vertex_mesh : Mesh :=
  mkMesh (Some [v3 0 0 0; v3 9 9 9; v3 1 0 0; v3 0 1 0])
         (Some [(0, 2, 3)])
         (Some (mkVisual (Some (Some [[0%Q; 0%Q]; [1%Q; 1%Q]; [1%Q; 0%Q]; [0%Q; 1%Q]]))
                         None None))
         None None.

(** Four coloured vertices of which vertex 1 is unused; no UVs. *)
Definition coloured_mesh : Mesh :=
  mkMesh (Some [v3 0 0 0; v3 9 9 9; v3 1 0 0; v3 0 1 0])
         (Some [(0, 2, 3)])
         (Some (mkVisual None
                  (Some [[1%Q; 0%Q; 0%Q]; [0%Q; 1%Q; 0%Q]; [0%Q; 0%Q; 1%Q]; [1%Q; 1%Q; 1%Q]])
                  None))
         None None.

(** A triangle and a degenerate face that alone refers to vertex 3. *)
Definition degenerate_mesh : Mesh :=
  mkMesh (Some [v3 0 0 0; v3 1 0 0; v3 0 1 0; v3 0 0 1])
         (Some [(0, 1, 2); (3, 3, 3)]) None None None.

(** Three vertices and a single face that names vertex 7. *)
Definition all_dangling_mesh : Mesh :=
  mkMesh (Some [v3 0 0 0; v3 1 0 0; v3 0 1 0]) (Some [(0, 1, 7)]) None None None.

(** Three vertices, a valid face, a face naming vertex 7 and a face with a
    negative index. *)
Definition mixed_mesh : Mesh :=
  mkMesh (Some [v3 0 0 0; v3 1 0 0; v3 0 1 0])
         (Some [(0, 1, 2); (0, 1, 7); (0, -1, 2)]) None None None.

(** Three vertices, a valid face and a face with a negative index. *)
Definition negative_index_mesh : Mesh :=
  mkMesh (Some [v3 0 0 0; v3 1 0 0; v3 0 1 0])
         (Some [(0, 1, 2); (0, -1, 2)]) None None None.

(** ** Per-vertex attribute arrays *)

Definition present_length {A : Type} (o : option (list A)) : list nat :=
  match o with
  | Some l => [length l]
  | None => []
  end.

(** The lengths of the per-vertex arrays the geometry carries: normals,
    tangents, UVs, colours. *)
Definition attribute_lengths (g : Mesh) : list nat :=
  present_length (vertex_normals g) ++ present_length (vertex_tangents g) ++
  match visual g with
  | Some v =>
      match uv v with
      | Some (Some u) => [length u]
      | _ => []
      end ++ present_length (vertex_colors v)
  | None => []
  end.

Definition attributes_in_lockstep (g : Mesh) : Prop :=
  Forall (fun n => n = vertex_count g) (attribute_lengths g).

#[global] Instance attributes_in_lockstep_dec g : Decision (attributes_in_lockstep g).
Proof. unfold attributes_in_lockstep. apply _. Defined.

(** The UV array, when there is one, is as long as the vertex buffer. *)
Definition uv_in_lockstep (g : Mesh) : Prop :=
  match visual g with
  | Some v =>
      match uv v with
      | Some (Some u) => length u = vertex_count g
      | _ => True
      end
  | None => True
  end.

(** Every vertex is referenced by some face. *)
Definition all_vertices_referenced (g : Mesh) : Prop :=
  Forall (fun i => i ∈ face_index_list g) (seqZ 0 (Z.of_nat (vertex_count g))).

#[global] Instance all_vertices_referenced_dec g : Decision (all_vertices_referenced g).
Proof. unfold all_vertices_referenced. apply _. Defined.

(** A face whose three indices all address the vertex buffer. *)
Definition face_in_bounds (n : nat) (f : Face) : Prop :=
  Forall (fun i => 0 <= i <= Z.of_nat n - 1) (face_indices f).

#[global] Instance face_in_bounds_dec n f : Decision (face_in_bounds n f).
Proof. unfold face_in_bounds. apply _. Defined.

(** The decimation never hands back more faces than the geometry has
    (decimation reduces a mesh's face count). *)
Definition decimation_reduces (lib : Trimesh) : Prop :=
  forall g face_count_requested s,
    simplify_quadric_decimation lib g face_count_requested = Ok (Some s) ->
    (face_count s <= face_count g)%nat.

(** Five faces over five vertices. *)
Definition fan_mesh : Mesh :=
  mkMesh (Some [v3 0 0 0; v3 1 0 0; v3 0 1 0; v3 1 1 0; v3 2 0 0])
         (Some [(0, 1, 2); (1, 3, 2); (1, 4, 3); (0, 2, 3); (0, 3, 4)])
         None None None.

(** ** Floats of the standard library

    The number a [spec_float] of the standard library's specification of
    IEEE 754 arithmetic stands for, when it is finite; [binary64_of m e]
    is the float nearest to [m * 2 ^ e] there. *)
Definition SF2Q (x : spec_float) : option Q :=
  match x with
  | S754_zero _ => Some 0%Q
  | S754_finite s m e =>
      Some (Qred (inject_Z (if s then Z.neg m else Z.pos m) * 2 ^ e))
  | _ => None
  end.

Definition binary64_of (m e : Z) : spec_float := binary_normalize 53 1024 m e false.

(** ** Passes that settle the geometry

    A pass settles a property when every geometry it returns has the
    property and a geometry that has it is returned as it is; a pass keeps
    a property when it does not undo it. *)
Definition settles (pass : Mesh -> Py Mesh) (Settled : Mesh -> Prop) : Prop :=
  (forall g g', pass g = Ok g' -> Settled g')
  /\ (forall g, Settled g -> pass g = Ok g).

Definition keeps (pass : Mesh -> Py Mesh) (Settled : Mesh -> Prop) : Prop :=
  forall g g', Settled g -> pass g = Ok g' -> Settled g'.

(** The passes of the library as [clean_geometry] runs them: the merge,
    the degenerate-face, the duplicate-face and the normals pass each
    settle a property of their own, no later pass undoes what an earlier
    one has settled, and the removal of unreferenced vertices leaves a
    geometry alone in which every vertex is referenced. *)
Record library_settles (Merged Valid Unique Oriented : Mesh -> Prop)
    (lib : Trimesh) : Prop := {
  merge_settles : settles (call_if_present (merge_vertices lib)) Merged;
  invalid_settles : settles (_remove_invalid_faces lib) Valid;
  duplicate_settles : settles (_remove_duplicate_faces lib) Unique;
  normals_settles : settles (call_if_present (fix_normals lib)) Oriented;
  unreferenced_keeps_merged :
    keeps (call_if_present (remove_unreferenced_vertices lib)) Merged;
  invalid_keeps_merged : keeps (_remove_invalid_faces lib) Merged;
  duplicate_keeps_merged : keeps (_remove_duplicate_faces lib) Merged;
  normals_keeps_merged : keeps (call_if_present (fix_normals lib)) Merged;
  duplicate_keeps_valid : keeps (_remove_duplicate_faces lib) Valid;
  normals_keeps_valid : keeps (call_if_present (fix_normals lib)) Valid;
  normals_keeps_unique : keeps (call_if_present (fix_normals lib)) Unique;
  unreferenced_idle :
    forall g, all_vertices_referenced g ->
              call_if_present (remove_unreferenced_vertices lib) g = Ok g
}.

(** The properties the passes of the reference library settle. *)

(** No vertex lies at the position of an earlier one. *)
Definition first_at_position (vs : list Vec) : Prop :=
  forall i v, vs !! i = Some v -> find_index (vec_eqb v) vs = Some i.

Definition merged (g : Mesh) : Prop :=
  exists vs fs,
    vertices g = Some vs /\ faces g = Some fs
    /\ first_at_position vs
    /\ Forall (fun i => 0 <= i < Z.of_nat (length vs)) (flatten fs).

Definition face_buffer (g : Mesh) : list Face :=
  match faces g with
  | Some fs => fs
  | None => []
  end.

(** Every face has three distinct indices. *)
Definition no_degenerate_face (g : Mesh) : Prop :=
  Forall (fun f => distinct_indices f = true) (face_buffer g).

(** No face has the indices of an earlier one. *)
Definition no_duplicate_face (g : Mesh) : Prop :=
  Forall (fun b : bool => b = true) (first_occurrences [] (face_buffer g)).

(** Five vertices, the fourth at the position of the first and the fifth
    unused; the two faces coincide once the first and the fourth vertex
    are merged. *)
Definition untidy_mesh : Mesh :=
  mkMesh (Some [v3 0 0 0; v3 1 0 0; v3 0 1 0; v3 0 0 0; v3 5 5 5])
         (Some [(0, 1, 2); (3, 1, 2)]) None None None.

(** A library whose normal-fixing pass does not settle: it drops the last
    face of a geometry each time it is called on more than two faces.  The
    other passes are those of the reference library. *)
Definition peel_last_face (g : Mesh) : Py Mesh :=
  match faces g with
  | Some fs => if bool_decide (2 < length fs)%nat
               then Ok (set_faces g (take (length fs - 1) fs))
               else Ok g
  | None => Raise AttributeError
  end.

Definition peeling_trimesh : Trimesh :=
  mkTrimesh (Some ref_merge_vertices) (Some ref_remove_unreferenced_vertices)
    (Some ref_nondegenerate_faces) (Some ref_unique_faces) ref_update_faces
    None None (Some peel_last_face) truncating_decimation None None.

(** The four faces of a tetrahedron. *)
Definition tetrahedron_mesh : Mesh :=
  mkMesh (Some [v3 0 0 0; v3 1 0 0; v3 0 1 0; v3 0 0 1])
         (Some [(0, 1, 2); (0, 1, 3); (0, 2, 3); (1, 2, 3)]) None None None.

(** A strip of [n] triangles over [n + 2] vertices on a line of the
    plane. *)
Definition strip_faces (n : nat) : list Face :=
  map (fun i => (Z.of_nat i, Z.of_nat i + 1, Z.of_nat i + 2)) (seq 0 n).

Definition strip_mesh (n : nat) : Mesh :=
  mkMesh (Some (map (fun i => v3 (Z.of_nat i) (Z.of_nat (i mod 2)) 0) (seq 0 (n + 2))))
         (Some (strip_faces n)) None None None.

(** The default configuration with decimation allowed from four faces on. *)
Definition small_mesh_config : OptimizationConfig :=
  mkConfig 85 70 (3 # 4) 64 (1 # 2) (round_binary64 (4 # 5)) 4.

(** ** A stand-in for Pillow and numpy

    It tracks modes, sizes, shapes and dtypes and drops the pixel
    content; an array of fewer than two axes cannot become an image, an
    empty size cannot be resized to, and WebP refuses an edge beyond 16383
    pixels. *)

Definition mode_channels (m : Mode) : Z :=
  match m with
  | L => 1
  | RGB => 3
  | RGBA => 4
  | other_mode => 1
  end.

Definition mode_code (m : Mode) : Z :=
  match m with
  | L => 0
  | RGB => 1
  | RGBA => 2
  | other_mode => 3
  end.

Definition reference_pillow : Pillow :=
  mkPillow
    (fun a => Ok (mkNdArray uint8 (shape a) (data a)))
    (fun a m =>
       match shape a with
       | h :: w :: _ => Ok (mkPilImage m (w, h) [])
       | _ => Raise LibraryError
       end)
    (fun p s =>
       if bool_decide (0 < s.1 /\ 0 < s.2)
       then Ok (mkPilImage (pil_mode p) s (pixels p))
       else Raise LibraryError)
    (fun p m => Ok (mkPilImage m (size p) (pixels p)))
    (fun p quality =>
       if bool_decide ((size p).1 <= 16383 /\ (size p).2 <= 16383)
       then Ok [mode_code (pil_mode p); (size p).1; (size p).2]
       else Raise LibraryError)
    (fun buffer =>
       match buffer with
       | [c; w; h] => Ok (mkPilImage (if bool_decide (c = 2) then RGBA else RGB) (w, h) [])
       | _ => Raise LibraryError
       end)
    (fun p => Ok (mkNdArray uint8 [(size p).2; (size p).1; mode_channels (pil_mode p)] []))
    (fun a => Ok (mkNdArray uint8 (shape a) (data a)))
    (fun a => Ok (mkNdArray float32 (shape a) (data a))).

(** A 1024 x 1024 RGBA texture as a float array. *)
Definition texture_1024 : Image :=
  ImgArray (mkNdArray float32 [1024; 1024; 4] []).

(** An array with a single axis: no image can be made of it. *)
Definition broken_texture : Image :=
  ImgArray (mkNdArray float32 [7] []).

Definition textured (mid : MaterialId) : Mesh :=
  mkMesh (Some [v3 0 0 0; v3 1 0 0; v3 0 1 0]) (Some [(0, 1, 2)])
         (Some (mkVisual (Some (Some [[0%Q; 0%Q]; [1%Q; 0%Q]; [0%Q; 1%Q]])) None (Some mid)))
         None None.

(** Two geometries share material 0, a third one uses material 1. *)
Definition textured_scene : Scene :=
  mkScene (Some [("body", textured 0%nat); ("lid", textured 0%nat);
                 ("base", textured 1%nat)]%string).

Definition textured_heap : gmap MaterialId Material :=
  <[0%nat := mkMaterial (Some (Some broken_texture)) None]>
    (<[1%nat := mkMaterial (Some (Some texture_1024)) None]> ∅).

(** ** Sample scenes *)

(** Vertices without faces, as a point cloud has them. *)
Definition point_cloud : Mesh :=
  mkMesh (Some [v3 0 0 0; v3 1 0 0]) None None None None.

Definition cloud_scene : Scene :=
  mkScene (Some [("cloud", point_cloud)]%string).

Definition scene_entries (scene : Scene) : list (string * Mesh) :=
  match geometry scene with
  | Some entries => entries
  | None => []
  end.

(** * Further code of the repository *)

(** ** GLBOptimizer.optimize_safe, the single-mesh branch (lines 50-58)

    The loaded object is one mesh: the target ratio is raised to the
    minimum face ratio and handed to [simplify_geometry_safely]. *)
Definition optimize_safe_single_mesh (lib : Trimesh) (config : OptimizationConfig)
    (scene : Mesh) (target_faces_ratio : Q) : (bool * Z * Z) * Mesh :=
  let safe_ratio := py_max (min_face_ratio config) target_faces_ratio in
  simplify_geometry_safely lib config scene safe_ratio.

(** ** Further predicates *)

(** Every face index addresses a vertex directly: [0 <= i < len(vertices)]. *)
Definition indices_address_vertices (g : Mesh) : Prop :=
  Forall (fun i => 0 <= i < Z.of_nat (vertex_count g)) (face_index_list g).

#[global] Instance indices_address_vertices_dec g : Decision (indices_address_vertices g).
Proof. unfold indices_address_vertices. apply _. Defined.

(** The corners of two faces lie at the same positions of their vertex
    buffers. *)
Definition same_corners (vs vs' : list Vec) (f f' : Face) : Prop :=
  Forall2 (fun i i' => np_get vs' i' = np_get vs i) (face_indices f) (face_indices f').

(** A triangle over four vertices on an object without a [visual]
    attribute. *)
Definition plain_spare_vertex_mesh : Mesh :=
  mkMesh (Some [v3 0 0 0; v3 9 9 9; v3 1 0 0; v3 0 1 0]) (Some [(0, 2, 3)])
         None None None.

(** [geometry.faces] as a list, empty when the attribute is missing. *)
Definition face_list (g : Mesh) : list Face :=
  match faces g with
  | Some fs => fs
  | None => []
  end.

(** ** FileValidator._validate_geometry and validate_glb_content
       (validators.py) *)

Inductive GeometryError : Type :=
  | InvalidGeometryData (name : string)
  | TooFewVertices (name : string) (vertex_count : nat)
  | TooFewFaces (name : string) (face_count : nat)
  | IndexBeyondVertices (name : string) (max_index : Z) (vertex_count : nat).

(** FileValidator._validate_geometry; [geometry.faces.max()] is [np_max]
    of the flattened faces, and the function has no handler of its own. *)
Definition _validate_geometry (g : Mesh) (name : string) : Py (list GeometryError) :=
  match vertices g, faces g with
  | Some vs, Some fs =>
      let vertex_count := length vs in
      let face_count := length fs in
      let errors := [] in
      let errors :=
        if bool_decide (vertex_count < 3)%nat
        then errors ++ [TooFewVertices name vertex_count] else errors in
      let errors :=
        if bool_decide (face_count < 1)%nat
        then errors ++ [TooFewFaces name face_count] else errors in
      if bool_decide (0 < face_count)%nat then
        max_index ← np_max (flatten fs);
        Ok (if bool_decide (max_index >= Z.of_nat vertex_count)
            then errors ++ [IndexBeyondVertices name max_index vertex_count]
            else errors)
      else Ok errors
  | _, _ => Ok [InvalidGeometryData name]
  end.

(** What [trimesh.load] hands back: nothing, a scene, or a single mesh. *)
Inductive Loaded : Type :=
  | LoadedNone
  | LoadedScene (s : Scene)
  | LoadedMesh (m : Mesh).

Inductive ContentError : Type :=
  | LoadFailed
  | NoValidGeometry
  | GeometryProblem (e : GeometryError)
  | ValidationRaised.

(** The loop [for name, geometry in scene.geometry.items():
    errors.extend(self._validate_geometry(geometry, name))]; an exception
    keeps the errors gathered so far. *)
Fixpoint validate_geometries (entries : list (string * Mesh))
    (errors : list ContentError) : Py unit * list ContentError :=
  match entries with
  | [] => (Ok tt, errors)
  | (name, g) :: rest =>
      match _validate_geometry g name with
      | Ok geo_errors => validate_geometries rest (errors ++ map GeometryProblem geo_errors)
      | Raise e => (Raise e, errors)
      end
  end.

(** FileValidator.validate_glb_content, with the outcome of
    [trimesh.load(file_path)] as its argument. *)
Definition validate_glb_content (load : Py Loaded) : bool * list ContentError :=
  let finish (errors : list ContentError) := (bool_decide (length errors = 0%nat), errors) in
  let handled (r : Py unit * list ContentError) :=
    match r with
    | (Ok _, errors) => finish errors
    | (Raise _, errors) => finish (errors ++ [ValidationRaised])
    end in
  match load with
  | Raise _ => finish [ValidationRaised]
  | Ok LoadedNone => (false, [LoadFailed])
  | Ok (LoadedScene scene) =>
      let geometry_count :=
        match geometry scene with
        | Some (e :: entries) => length (e :: entries)
        | _ => 0%nat
        end in
      let errors := if bool_decide (geometry_count = 0%nat) then [NoValidGeometry] else [] in
      match geometry scene with
      | Some entries => handled (validate_geometries entries errors)
      | None => finish errors
      end
  | Ok (LoadedMesh mesh) =>
      let geometry_count := if bool_decide (is_Some (faces mesh)) then 1%nat else 0%nat in
      let errors := if bool_decide (geometry_count = 0%nat) then [NoValidGeometry] else [] in
      if bool_decide (is_Some (vertices mesh)) && bool_decide (is_Some (faces mesh))
      then handled
             (match _validate_geometry mesh "main" with
              | Ok geo_errors => (Ok tt, errors ++ map GeometryProblem geo_errors)
              | Raise e => (Raise e, errors)
              end)
      else finish errors
  end.

(** The geometries of a loaded object. *)
Definition loaded_geometries (l : Loaded) : list Mesh :=
  match l with
  | LoadedNone => []
  | LoadedScene scene =>
      match geometry scene with
      | Some entries => map snd entries
      | None => []
      end
  | LoadedMesh mesh => [mesh]
  end.

(** A geometry the content validation has nothing to say against: both
    buffers present, at least three vertices, at least one face, no face
    index at or beyond the number of vertices. *)
Definition acceptable_geometry (g : Mesh) : Prop :=
  is_Some (vertices g) /\ is_Some (faces g)
  /\ (3 <= vertex_count g)%nat /\ (1 <= face_count g)%nat
  /\ indices_in_range g.

#[global] Instance acceptable_geometry_dec g : Decision (acceptable_geometry g).
Proof. unfold acceptable_geometry. apply _. Defined.

(** A scene of two geometries: a triangle, and a triangle running through
    a negative index. *)
Definition loaded_pair : Loaded :=
  LoadedScene (mkScene (Some [("first", spare_vertex_mesh);
                              ("second", negative_index_mesh)]%string)).

(** What the content validation accepts.  A scene must hold a geometry
    and all its geometries must be acceptable; a single object must have
    faces, and be acceptable if it has vertices as well. *)
Definition content_acceptable (l : Loaded) : Prop :=
  match l with
  | LoadedNone => False
  | LoadedScene scene =>
      match geometry scene with
      | Some (e :: entries) => Forall acceptable_geometry (map snd (e :: entries))
      | _ => False
      end
  | LoadedMesh mesh =>
      is_Some (faces mesh) /\ (is_Some (vertices mesh) -> acceptable_geometry mesh)
  end.

(** ** SceneManager.create_minimal_glb (scene_manager.py)

    [trimesh.Trimesh(vertices=..., faces=...)] is the library's
    constructor and is passed in; the read of [vertex_normals] on the new
    mesh is taken to succeed.  On an exception the source scene itself is
    returned. *)
Definition minimal_step (Trimesh_new : list Vec -> list Face -> Py Mesh)
    (minimal_scene : Scene) (entry : string * Mesh) : Py Scene :=
  let '(name, g) := entry in
  match vertices g, faces g with
  | Some vs, Some fs =>
      minimal_mesh ← Trimesh_new vs fs;
      let minimal_mesh :=
        match visual g with
        | Some v => set_visual minimal_mesh v
        | None => minimal_mesh
        end in
      Ok (add_geometry minimal_scene minimal_mesh name)
  | _, _ => Ok minimal_scene
  end.

Fixpoint minimal_loop (Trimesh_new : list Vec -> list Face -> Py Mesh)
    (entries : list (string * Mesh)) (minimal_scene : Scene) : Py Scene :=
  match entries with
  | [] => Ok minimal_scene
  | entry :: rest =>
      match minimal_step Trimesh_new minimal_scene entry with
      | Ok minimal_scene' => minimal_loop Trimesh_new rest minimal_scene'
      | Raise e => Raise e
      end
  end.

Definition create_minimal_glb (Trimesh_new : list Vec -> list Face -> Py Mesh)
    (scene : Scene) : Scene :=
  let body :=
    match geometry scene with
    | Some entries => minimal_loop Trimesh_new entries Scene_new
    | None => Ok Scene_new
    end in
  match body with
  | Ok minimal_scene => minimal_scene
  | Raise _ => scene
  end.

(** The constructor raises on the buffers of an entry that has both. *)
Definition constructor_raises (Trimesh_new : list Vec -> list Face -> Py Mesh)
    (e : string * Mesh) : bool :=
  match vertices e.2, faces e.2 with
  | Some vs, Some fs =>
      match Trimesh_new vs fs with
      | Raise _ => true
      | Ok _ => false
      end
  | _, _ => false
  end.

(** The entry [e'] is what the loop makes of the entry [e]: the same
    name, the mesh the constructor builds from the two buffers of [e], and
    the visual of [e] when it has one. *)
Definition rebuilt_from (Trimesh_new : list Vec -> list Face -> Py Mesh)
    (e e' : string * Mesh) : Prop :=
  e'.1 = e.1
  /\ exists vs fs m,
       vertices e.2 = Some vs /\ faces e.2 = Some fs
       /\ Trimesh_new vs fs = Ok m
       /\ e'.2 = match visual e.2 with
                 | Some v => set_visual m v
                 | None => m
                 end.

(** ** GLBOptimizer._deep_clean_scene (glb_optimizer.py)

    The geometries are cleaned in place; the result pairs the counters
    [(cleaned_count, total_count)] with the object after the loop.  The
    function returns True on every path of the model. *)
Definition deep_clean_entry (lib : Trimesh) (st : nat * nat * list (string * Mesh))
    (entry : string * Mesh) : nat * nat * list (string * Mesh) :=
  let '(cleaned_count, total_count, done) := st in
  let '(name, g) := entry in
  let total_count := S total_count in
  if has_vertices_and_faces g then
    let '(ok, g') := clean_geometry lib g in
    ((if ok then S cleaned_count else cleaned_count), total_count, done ++ [(name, g')])
  else (cleaned_count, total_count, done ++ [(name, g)]).

Definition _deep_clean_scene (lib : Trimesh) (scene : Loaded)
    : bool * (nat * nat) * Loaded :=
  match scene with
  | LoadedScene s =>
      match geometry s with
      | Some entries =>
          let '(cleaned_count, total_count, entries') :=
            foldl (deep_clean_entry lib) (0%nat, 0%nat, []) entries in
          (true, (cleaned_count, total_count), LoadedScene (mkScene (Some entries')))
      | None => (true, (0%nat, 0%nat), scene)
      end
  | LoadedMesh m =>
      if has_vertices_and_faces m then
        let '(ok, m') := clean_geometry lib m in
        (true, ((if ok then 1%nat else 0%nat), 1%nat), LoadedMesh m')
      else (true, (0%nat, 0%nat), scene)
  | LoadedNone => (true, (0%nat, 0%nat), scene)
  end.

(** The names of a loaded scene, in order. *)
Definition loaded_names (l : Loaded) : list string :=
  match l with
  | LoadedScene s => map fst (scene_entries s)
  | _ => []
  end.

(** ** MeshProcessor.fill_mesh_holes (mesh_processor.py)

    The passes are [merge_vertices], [fix_normals] and
    [_remove_invalid_faces]; the counts taken in between only feed the
    report.  An exception gives False with the geometry as the last
    completed pass left it. *)
Definition fill_mesh_holes (lib : Trimesh) (g : Mesh) : bool * Mesh :=
  match vertices g, faces g with
  | Some _, Some _ =>
      match call_if_present (merge_vertices lib) g with
      | Raise _ => (false, g)
      | Ok g1 =>
          match call_if_present (fix_normals lib) g1 with
          | Raise _ => (false, g1)
          | Ok g2 =>
              match _remove_invalid_faces lib g2 with
              | Raise _ => (false, g2)
              | Ok g3 => (true, g3)
              end
          end
      end
  | _, _ => (false, g)
  end.

(** The library calls of [fill_mesh_holes] keep a property of the
    geometry: merge_vertices, fix_normals, and the two that
    [_remove_invalid_faces] may make. *)
Record repair_passes_preserve (P : Mesh -> Prop) (lib : Trimesh) : Prop := {
  repair_merge_vertices : method_preserves P (merge_vertices lib);
  repair_fix_normals : method_preserves P (fix_normals lib);
  repair_update_faces :
    forall g mask g', P g -> update_faces lib g mask = Ok g' -> P g';
  repair_remove_degenerate : method_preserves P (remove_degenerate_faces lib)
}.

(** ** MeshProcessor.detect_mesh_holes (mesh_processor.py)

    The three properties read by the diagnosis; [hasattr] on a property
    evaluates it, so a property is missing ([None]), or it yields a value
    or raises when read. *)
Record Topology : Type := mkTopology {
  is_watertight : option (Mesh -> Py bool);
  is_winding_consistent : option (Mesh -> Py bool);
  is_volume : option (Mesh -> Py bool)
}.

Inductive IssueTag : Type :=
  | OpenBoundary          (* 開口部あり *)
  | InconsistentWinding   (* 面向き不整合 *)
  | InvalidVolume         (* 無効ボリューム *)
  | CheckSkipped.         (* チェックスキップ *)

#[global] Instance IssueTag_eq_dec : EqDecision IssueTag.
Proof. solve_decision. Defined.

(** [hasattr(geometry, name)] followed by the read of the property: a
    missing property and one whose read raises AttributeError both count
    as absent, any other exception leaves [hasattr] itself. *)
Definition read_property (p : option (Mesh -> Py bool)) (g : Mesh)
    : Py (option bool) :=
  match p with
  | None => Ok None
  | Some read =>
      match read g with
      | Ok b => Ok (Some b)
      | Raise AttributeError => Ok None
      | Raise e => Raise e
      end
  end.

(** Lines 193-196, with the handler of line 199. *)
Definition volume_check (topo : Topology) (g : Mesh)
    (holes_detected : list IssueTag) : list IssueTag :=
  match read_property (is_volume topo) g with
  | Raise _ => holes_detected ++ [CheckSkipped]
  | Ok (Some false) => holes_detected ++ [InvalidVolume]
  | Ok _ => holes_detected
  end.

(** An exception raised by [hasattr(geometry, 'is_watertight')] reaches
    the outer handler, which returns the empty list; one raised further
    down reaches the inner handler, which adds the skip tag. *)
Definition detect_mesh_holes (topo : Topology) (g : Mesh) : list IssueTag :=
  match vertices g, faces g with
  | Some _, Some _ =>
      match read_property (is_watertight topo) g with
      | Raise _ => []
      | Ok None => []
      | Ok (Some true) => []
      | Ok (Some false) =>
          let holes_detected := [OpenBoundary] in
          match read_property (is_winding_consistent topo) g with
          | Raise _ => holes_detected ++ [CheckSkipped]
          | Ok (Some false) =>
              volume_check topo g (holes_detected ++ [InconsistentWinding])
          | Ok _ => volume_check topo g holes_detected
          end
      end
  | _, _ => []
  end.

(** A mesh object whose topology properties say: open, winding
    inconsistent, reading [is_volume] fails. *)
Definition open_topology : Topology :=
  mkTopology (Some (fun _ => Ok false)) (Some (fun _ => Ok false))
             (Some (fun _ => Raise LibraryError)).

(** A constructor that stores the two buffers. *)
Definition plain_constructor (vs : list Vec) (fs : list Face) : Py Mesh :=
  Ok (mkMesh (Some vs) (Some fs) None None None).

(** A scene of three entries, the second of which is a point cloud. *)
Definition mixed_scene : Scene :=
  mkScene (Some [("mesh_1", spare_vertex_mesh); ("cloud", point_cloud);
                 ("mesh_1b", fan_mesh)]%string).

(** ** The legacy texture path (texture_processor.py) *)

(** TextureProcessor._compress_texture: the image is always resized, to
    the size computed from [quality] as the scale factor. *)
Definition _compress_texture (px : Pillow) (config : OptimizationConfig)
    (image : Image) (quality : Q) : option NdArray :=
  match _numpy_to_pil px image with
  | None => None
  | Some (ImgPil pil_image) =>
      let original_size := size pil_image in
      let body : Py (option NdArray) :=
        new_size ← resized_dimensions config original_size quality;
        compressed ← resize px pil_image new_size;
        Ok (_pil_to_numpy px compressed) in
      match body with
      | Ok r => r
      | Raise _ => None
      end
  | Some _ => None
  end.

(** The loop of compress_scene_textures; [texture_found] is set only
    after an image has been replaced. *)
Fixpoint legacy_loop (px : Pillow) (config : OptimizationConfig)
    (quality : Q) (entries : list (string * Mesh))
    (texture_found : bool) (heap : gmap MaterialId Material)
    : Py bool * gmap MaterialId Material :=
  match entries with
  | [] => (Ok texture_found, heap)
  | (name, g) :: rest =>
      match visual g with
      | None => legacy_loop px config quality rest texture_found heap
      | Some v =>
          match material v with
          | None => legacy_loop px config quality rest texture_found heap
          | Some mid =>
              match heap !! mid with
              | None => (Raise AttributeError, heap)
              | Some m =>
                  match image m with
                  | Some (Some img) =>
                      match _compress_texture px config img quality with
                      | Some compressed_image =>
                          legacy_loop px config quality rest true
                            (<[mid := set_image m (ImgArray compressed_image)]> heap)
                      | None =>
                          legacy_loop px config quality rest texture_found heap
                      end
                  | _ => legacy_loop px config quality rest texture_found heap
                  end
              end
          end
      end
  end.

(** TextureProcessor.compress_scene_textures *)
Definition compress_scene_textures (px : Pillow) (config : OptimizationConfig)
    (scene : Scene) (heap : gmap MaterialId Material) (quality : Q)
    : Py bool * gmap MaterialId Material :=
  let body :=
    match geometry scene with
    | Some entries => legacy_loop px config quality entries false heap
    | None => (Ok false, heap)
    end in
  match body with
  | (Ok texture_found, heap') => (Ok texture_found, heap')
  | (Raise _, heap') => (Ok false, heap')
  end.

(** The material a geometry refers to, if it has a visual with one. *)
Definition material_of (g : Mesh) : option MaterialId :=
  match visual g with
  | Some v => material v
  | None => None
  end.

(** [hasattr(material, 'image') and material.image is not None] for the
    material of the geometry. *)
Definition holds_image (heap : gmap MaterialId Material) (g : Mesh) : bool :=
  match material_of g with
  | Some mid =>
      match heap !! mid with
      | Some m =>
          match image m with
          | Some (Some _) => true
          | _ => false
          end
      | None => false
      end
  | None => false
  end.

(** Every material a geometry refers to is an object of the heap. *)
Definition materials_known (heap : gmap MaterialId Material)
    (entries : list (string * Mesh)) : Prop :=
  Forall (fun e => forall mid, material_of e.2 = Some mid -> is_Some (heap !! mid))
         entries.

#[global] Instance materials_known_dec heap entries :
  Decision (materials_known heap entries).
Proof.
  unfold materials_known. apply Forall_dec. intros e.
  destruct (material_of e.2) as [mid|].
  - destruct (decide (is_Some (heap !! mid))) as [H|H].
    + left. by intros ? [= <-].
    + right. intros H'. apply H. by apply H'.
  - left. by intros ?.
Defined.

(** A Pillow whose [resize] and [save] fail. *)
Definition failing_pillow : Pillow :=
  mkPillow (scale_to_uint8 reference_pillow) (fromarray reference_pillow)
           (fun _ _ => Raise LibraryError) (convert reference_pillow)
           (fun _ _ => Raise LibraryError) (open_image reference_pillow)
           (asarray reference_pillow) (astype_uint8 reference_pillow)
           (to_unit_float32 reference_pillow).

(** ** Mode table and dispatch (config.py, glbopt.py, glbopt_simple.py) *)

Record ModeConfig : Type := mkModeConfig {
  target_ratio : Q;
  webp_quality : Z;
  resize_factor : Q
}.

(** config.MODE_CONFIGS; the literals 0.7, 0.3 and 0.1 are the floats
    nearest to them. *)
Definition MODE_CONFIGS : gmap string ModeConfig :=
  list_to_map
    [("normal", mkModeConfig (round_binary64 (7 # 10)) 85 1);
     ("aggressive", mkModeConfig (round_binary64 (3 # 10)) 85 1);
     ("ultra", mkModeConfig (round_binary64 (1 # 10)) 70 (3 # 4));
     ("vertex", mkModeConfig 1 85 1);
     ("repair", mkModeConfig 1 85 1)]%string.

(** config.get_mode_config; [MODE_CONFIGS[mode]] is a [KeyError] for a
    missing key. *)
Definition get_mode_config (mode : string) : Py (Q * ModeConfig) :=
  let mode := if bool_decide (is_Some (MODE_CONFIGS !! mode)) then mode
              else "normal"%string in
  match MODE_CONFIGS !! mode with
  | Some config => Ok (target_ratio config, config)
  | None => Raise KeyError
  end.

(** The five pipelines of [GLBOptimizer] as main sees them: bound methods
    that take the two paths, three of them also a ratio (with a default),
    and return a bool; each one handles its own exceptions. *)
Record Optimizer : Type := mkOptimizer {
  optimize_safe_texture_preserving : string -> string -> Q -> bool;
  optimize_aggressive : string -> string -> Q -> bool;
  optimize_ultra_light : string -> string -> bool;
  optimize_vertex_cleanup : string -> string -> bool;
  optimize_hole_filling : string -> string -> bool
}.

Inductive Method : Type :=
  | TakesPaths (f : string -> string -> bool)
  | TakesPathsAndRatio (default : Q) (f : string -> string -> Q -> bool).

(** The outcome of a call: the value returned, or the [TypeError] of a
    call with too many positional arguments. *)
Inductive CallOutcome : Type :=
  | Returned (success : bool)
  | TypeError.

Definition call_with_paths (m : Method) (input output : string) : CallOutcome :=
  match m with
  | TakesPaths f => Returned (f input output)
  | TakesPathsAndRatio default f => Returned (f input output default)
  end.

Definition call_with_ratio (m : Method) (input output : string) (r : Q)
    : CallOutcome :=
  match m with
  | TakesPaths _ => TypeError
  | TakesPathsAndRatio _ f => Returned (f input output r)
  end.

Definition mode_map (optimizer : Optimizer) : gmap string Method :=
  list_to_map
    [("normal", TakesPathsAndRatio (1 # 2) (optimize_safe_texture_preserving optimizer));
     ("aggressive",
      TakesPathsAndRatio (round_binary64 (3 # 10)) (optimize_aggressive optimizer));
     ("ultra", TakesPaths (optimize_ultra_light optimizer));
     ("vertex", TakesPaths (optimize_vertex_cleanup optimizer));
     ("repair", TakesPaths (optimize_hole_filling optimizer))]%string.

(** glbopt.py lines 274-289 and glbopt_simple.py lines 64-77: the choice
    of the pipeline and its call. *)
Definition dispatch (optimizer : Optimizer) (mode input output : string) (r : Q)
    : CallOutcome :=
  let optimize_func :=
    default (TakesPathsAndRatio (1 # 2) (optimize_safe_texture_preserving optimizer))
            (mode_map optimizer !! mode) in
  if bool_decide (mode ∈ ["vertex"; "repair"]%string)
  then call_with_paths optimize_func input output
  else call_with_ratio optimize_func input output r.

(** ** glbopt.parse_arguments

    [float] and [int] are Python's conversions ([None]: a [ValueError]);
    [sys.exit(code)] ends the program. *)
Record ParsedOptions : Type := mkParsedOptions {
  opt_input_file : string;
  opt_mode : string;
  opt_ratio : option Q;
  opt_output : option string;
  opt_log_level : string;
  opt_file_log : bool;
  opt_progress : bool;
  opt_validation : bool;
  opt_timeout : Z
}.

Inductive ParseOutcome : Type :=
  | Parsed (options : ParsedOptions)
  | SysExit (code : Z).

Definition with_mode (o : ParsedOptions) (v : string) : ParsedOptions :=
  mkParsedOptions (opt_input_file o) v (opt_ratio o) (opt_output o) (opt_log_level o)
    (opt_file_log o) (opt_progress o) (opt_validation o) (opt_timeout o).
Definition with_ratio (o : ParsedOptions) (v : Q) : ParsedOptions :=
  mkParsedOptions (opt_input_file o) (opt_mode o) (Some v) (opt_output o) (opt_log_level o)
    (opt_file_log o) (opt_progress o) (opt_validation o) (opt_timeout o).
Definition with_output (o : ParsedOptions) (v : string) : ParsedOptions :=
  mkParsedOptions (opt_input_file o) (opt_mode o) (opt_ratio o) (Some v) (opt_log_level o)
    (opt_file_log o) (opt_progress o) (opt_validation o) (opt_timeout o).
Definition with_log_level (o : ParsedOptions) (v : string) : ParsedOptions :=
  mkParsedOptions (opt_input_file o) (opt_mode o) (opt_ratio o) (opt_output o) v
    (opt_file_log o) (opt_progress o) (opt_validation o) (opt_timeout o).
Definition with_file_log (o : ParsedOptions) (v : bool) : ParsedOptions :=
  mkParsedOptions (opt_input_file o) (opt_mode o) (opt_ratio o) (opt_output o) (opt_log_level o)
    v (opt_progress o) (opt_validation o) (opt_timeout o).
Definition with_progress (o : ParsedOptions) (v : bool) : ParsedOptions :=
  mkParsedOptions (opt_input_file o) (opt_mode o) (opt_ratio o) (opt_output o) (opt_log_level o)
    (opt_file_log o) v (opt_validation o) (opt_timeout o).
Definition with_validation (o : ParsedOptions) (v : bool) : ParsedOptions :=
  mkParsedOptions (opt_input_file o) (opt_mode o) (opt_ratio o) (opt_output o) (opt_log_level o)
    (opt_file_log o) (opt_progress o) v (opt_timeout o).
Definition with_timeout (o : ParsedOptions) (v : Z) : ParsedOptions :=
  mkParsedOptions (opt_input_file o) (opt_mode o) (opt_ratio o) (opt_output o) (opt_log_level o)
    (opt_file_log o) (opt_progress o) (opt_validation o) v.

(** The flags that stand alone, tried after the options that take a
    value. *)
Definition parse_flag (arg : string) (options : ParsedOptions) : ParsedOptions :=
  if bool_decide (arg = "--file-log"%string) then with_file_log options true
  else if bool_decide (arg = "--no-progress"%string) then with_progress options false
  else if bool_decide (arg = "--no-validation"%string) then with_validation options false
  else options.

(** The [while i < len(args)] loop; the list is [args[i:]]. *)
Fixpoint parse_options (float : string -> option Q) (int : string -> option Z)
    (args : list string) (options : ParsedOptions) : ParseOutcome :=
  match args with
  | [] => Parsed options
  | arg :: rest =>
      match rest with
      | value :: rest' =>
          if bool_decide (arg = "--mode"%string)
          then parse_options float int rest' (with_mode options value)
          else if bool_decide (arg = "--ratio"%string) then
            match float value with
            | Some r => parse_options float int rest' (with_ratio options r)
            | None => SysExit 1
            end
          else if bool_decide (arg = "--output"%string)
          then parse_options float int rest' (with_output options value)
          else if bool_decide (arg = "--log-level"%string)
          then parse_options float int rest' (with_log_level options value)
          else if bool_decide (arg = "--timeout"%string) then
            match int value with
            | Some t => parse_options float int rest' (with_timeout options t)
            | None => SysExit 1
            end
          else parse_options float int rest (parse_flag arg options)
      | [] => Parsed (parse_flag arg options)
      end
  end.

Definition parse_arguments (float : string -> option Q) (int : string -> option Z)
    (args : list string) : ParseOutcome :=
  match args with
  | [] => SysExit 0
  | input_file :: rest =>
      if bool_decide ("--help"%string ∈ args \/ "-h"%string ∈ args) then SysExit 0
      else
        parse_options float int rest
          (mkParsedOptions input_file "normal" None None "INFO" false true true 300)
  end.

(** ** The geometry loops of the optimizer (glb_optimizer.py) *)

(** optimize_safe, lines 34-46: one turn of the loop over the scene. *)
Definition optimize_safe_entry (lib : Trimesh) (config : OptimizationConfig)
    (target_faces_ratio : Q) (st : Z * Z * list (string * Mesh))
    (entry : string * Mesh) : Z * Z * list (string * Mesh) :=
  let '(total_original, total_simplified, done) := st in
  let '(name, g) := entry in
  match faces g with
  | Some fs =>
      if bool_decide (0 < length fs)%nat then
        let '((success, original_faces, new_faces), g') :=
          simplify_geometry_safely lib config g target_faces_ratio in
        (total_original + original_faces, total_simplified + new_faces,
         done ++ [(name, g')])
      else (total_original, total_simplified, done ++ [(name, g)])
  | None => (total_original, total_simplified, done ++ [(name, g)])
  end.

(** optimize_texture_preserving, lines 80-92: one turn of the loop. *)
Definition texture_preserving_entry (lib : Trimesh) (config : OptimizationConfig)
    (target_faces_ratio : Q) (st : nat * nat * list (string * Mesh))
    (entry : string * Mesh) : nat * nat * list (string * Mesh) :=
  let '(simplified_count, total_count, done) := st in
  let '(name, g) := entry in
  match faces g with
  | Some fs =>
      if bool_decide (min_face_count config < Z.of_nat (length fs)) then
        let '((success, original_faces, new_faces), g') :=
          simplify_geometry_safely lib config g target_faces_ratio in
        ((if success then S simplified_count else simplified_count),
         S total_count, done ++ [(name, g')])
      else (simplified_count, total_count, done ++ [(name, g)])
  | None => (simplified_count, total_count, done ++ [(name, g)])
  end.

(** The faces of all the geometries of a list of entries. *)
Definition total_faces (entries : list (string * Mesh)) : Z :=
  foldr (fun e acc => Z.of_nat (face_count e.2) + acc) 0 entries.

(** An optimizer whose pipelines all report success. *)
Definition agreeable_optimizer : Optimizer :=
  mkOptimizer (fun _ _ _ => true) (fun _ _ _ => true) (fun _ _ => true)
              (fun _ _ => true) (fun _ _ => true).

(** Conversions that accept no text. *)
Definition no_number {A} (s : string) : option A := None.

(** * Properties *)

(** A decidable statement about concrete data is settled by evaluating
    its decision procedure. *)
Ltac by_evaluation :=
  lazymatch goal with
  | |- ~ ?P => apply (bool_decide_eq_false P); vm_compute; reflexivity
  | |- ?P => apply (bool_decide_eq_true P); vm_compute; reflexivity
  end.

(** Case analysis on the next library call of a pipeline: an exception
    ends the goal, a normal return is kept with its equation. *)
Ltac next_pass g E :=
  lazymatch goal with
  | |- context [call_if_present ?m ?x] =>
      destruct (call_if_present m x) as [g|] eqn:E
  | |- context [_remove_invalid_faces ?l ?x] =>
      destruct (_remove_invalid_faces l x) as [g|] eqn:E
  | |- context [_remove_duplicate_faces ?l ?x] =>
      destruct (_remove_duplicate_faces l x) as [g|] eqn:E
  end.

(** ** Index integrity of the unused-vertex removal *)

Lemma py_mapM_length {A B : Type} (f : A -> Py B) l l' :
  py_mapM f l = Ok l' -> length l' = length l.
Proof.
  revert l'. induction l as [|x l IH]; intros l' H; simpl in H.
  - by inversion H.
  - destruct (f x); [|discriminate].
    destruct (py_mapM f l); [|discriminate].
    inversion H; subst. simpl. f_equal. by apply IH.
Qed.

Lemma np_take_length {A : Type} (a : list A) idx l :
  np_take a idx = Ok l -> length l = length idx.
Proof. apply py_mapM_length. Qed.

Lemma index_mapping_fold_bound (h : nat -> nat) (N : nat) l (d : gmap Z Z) :
  (forall i, (i < length l)%nat -> (h i < N)%nat) ->
  (forall k v, d !! k = Some v -> 0 <= v < Z.of_nat N) ->
  forall k v,
    foldl (fun (d : gmap Z Z) (p : nat * Z) => <[p.2 := Z.of_nat p.1]> d) d
          (imap (fun i x => (h i, x)) l) !! k = Some v ->
    0 <= v < Z.of_nat N.
Proof.
  revert h d. induction l as [|x l IH]; intros h d Hh Hd k v; simpl.
  - apply Hd.
  - apply (IH (h ∘ S)).
    + intros i Hi. apply Hh. simpl. lia.
    + intros k' v'. simpl. rewrite lookup_insert. case_decide.
      * intros [= <-]. specialize (Hh 0%nat). simpl in Hh. lia.
      * apply Hd.
Qed.

Lemma index_mapping_bound l k v :
  index_mapping l !! k = Some v -> 0 <= v < Z.of_nat (length l).
Proof.
  unfold index_mapping.
  apply (index_mapping_fold_bound (fun i => i) (length l) l ∅).
  - auto.
  - intros k' v'. by rewrite lookup_empty.
Qed.

Lemma remap_face_values d f f' :
  remap_face d f = Ok f' ->
  Forall (fun i => exists k, d !! k = Some i) (face_indices f').
Proof.
  destruct f as [[a b] c]. unfold remap_face, dict_get. simpl.
  destruct (d !! a) eqn:Ea; simpl; [|discriminate].
  destruct (d !! b) eqn:Eb; simpl; [|discriminate].
  destruct (d !! c) eqn:Ec; simpl; [|discriminate].
  intros [= <-]. simpl. repeat constructor; eauto.
Qed.

Lemma remap_faces_values d fs fs' :
  py_mapM (remap_face d) fs = Ok fs' ->
  Forall (fun i => exists k, d !! k = Some i) (flatten fs').
Proof.
  revert fs'. induction fs as [|f fs IH]; intros fs' H; simpl in H.
  - inversion H. constructor.
  - destruct (remap_face d f) eqn:Ef; [|discriminate].
    destruct (py_mapM (remap_face d) fs) eqn:Em; [|discriminate].
    inversion H; subst. unfold flatten. simpl. apply Forall_app. split.
    + by eapply remap_face_values.
    + by apply IH.
Qed.

(** The unused-vertex removal keeps the face indices in range; when it
    rewrites the buffers the new indices are in range whatever the old
    ones were. *)
Lemma remove_unused_vertices_in_range g :
  indices_in_range g -> indices_in_range (_remove_unused_vertices g).2.
Proof.
  intros Hg. unfold _remove_unused_vertices.
  destruct (vertices g) as [vs|] eqn:Ev; [|done].
  destruct (faces g) as [fs|] eqn:Ef; [|done].
  case_bool_decide; [done|].
  case_bool_decide; [done|].
  destruct (np_take vs _) as [new_vertices|] eqn:Et; [|done].
  destruct (py_mapM _ fs) as [new_faces|] eqn:Em; [|done].
  assert (Hnew : indices_in_range (set_faces (set_vertices g new_vertices) new_faces)).
  { unfold indices_in_range, face_index_list, vertex_count. simpl.
    apply remap_faces_values in Em.
    eapply Forall_impl; [exact Em|].
    intros i [k Hk]. apply index_mapping_bound in Hk.
    apply np_take_length in Et. lia. }
  simpl. destruct (visual g) as [v|]; [|exact Hnew].
  destruct (uv v) as [[uvs|]|]; try exact Hnew.
  destruct (np_take uvs _); exact Hnew.
Qed.

Section LibraryPreserves.
Context (P : Mesh -> Prop) (lib : Trimesh) (Hlib : library_preserves P lib).

Lemma method_preserves_call m g g' :
  method_preserves P m -> P g -> call_if_present m g = Ok g' -> P g'.
Proof.
  intros Hm Hg. destruct m as [f|]; simpl.
  - intros Hf. by eapply Hm.
  - by intros [= <-].
Qed.

Lemma mask_or_fallback_preserves mask fallback g g' :
  method_preserves P fallback ->
  P g -> mask_or_fallback lib mask fallback g = Ok g' -> P g'.
Proof using Hlib.
  intros Hf Hg. unfold mask_or_fallback.
  destruct mask as [get_mask|]; [|by intros [= <-]].
  destruct (get_mask g) as [m|] eqn:Em; simpl.
  - destruct (update_faces lib g m) eqn:Eu.
    + intros [= <-]. by eapply (preserves_update_faces P lib Hlib).
    + by apply method_preserves_call.
  - by apply method_preserves_call.
Qed.

(** The passes from [remove_unreferenced_vertices] on. *)
Lemma later_passes_preserve g2 b g' :
  P g2 ->
  match call_if_present (remove_unreferenced_vertices lib) g2 with
  | Raise _ => (false, g2)
  | Ok g3 =>
      match _remove_invalid_faces lib g3 with
      | Raise _ => (false, g3)
      | Ok g4 =>
          match _remove_duplicate_faces lib g4 with
          | Raise _ => (false, g4)
          | Ok g5 =>
              match call_if_present (fix_normals lib) g5 with
              | Raise _ => (false, g5)
              | Ok g6 => (true, g6)
              end
          end
      end
  end = (b, g') ->
  P g'.
Proof using Hlib.
  destruct Hlib as [_ Hr _ Hdg Hdp Hn]. intros Hg2.
  next_pass g3 E3; [|by intros [= _ <-]].
  apply method_preserves_call in E3; [|done..].
  next_pass g4 E4; [|by intros [= _ <-]].
  apply mask_or_fallback_preserves in E4; [|done..].
  next_pass g5 E5; [|by intros [= _ <-]].
  apply mask_or_fallback_preserves in E5; [|done..].
  next_pass g6 E6; [|by intros [= _ <-]].
  apply method_preserves_call in E6; [|done..].
  by intros [= _ <-].
Qed.

(** Whatever the library passes keep, the pipeline after the unused-vertex
    removal keeps, also when it stops at an exception. *)
Lemma library_passes_preserves g b g' :
  P g -> library_passes lib g = (b, g') -> P g'.
Proof using Hlib.
  intros Hg. unfold library_passes.
  destruct (call_if_present (merge_vertices lib) g) as [g2|] eqn:E2;
    [|by intros [= _ <-]].
  apply method_preserves_call in E2; [|apply Hlib|done].
  by apply later_passes_preserve.
Qed.

End LibraryPreserves.

(** With a merge pass that rebuilds the faces in range the pipeline after
    the unused-vertex removal ends in range whatever it started from. *)
Lemma library_passes_in_range_after_merge lib g g' :
  library_preserves indices_in_range lib ->
  merge_rebuilds_in_range lib ->
  library_passes lib g = (true, g') ->
  indices_in_range g'.
Proof.
  intros Hlib (merge & Hm & Hmerge). unfold library_passes.
  rewrite Hm. simpl.
  destruct (merge g) as [g2|e] eqn:E2; [|discriminate].
  apply Hmerge in E2. by apply later_passes_preserve.
Qed.

(** C1 (as amended): after [clean_geometry] has returned true every face
    index is below the length of the vertex buffer, provided the library
    passes keep the indices in range and either the indices were in range
    beforehand or the object has a merge pass that rebuilds the faces in
    range.  The cleanup has no filter of its own for an index that dangles
    beforehand. *)
Theorem clean_geometry_keeps_indices_in_range lib g g' :
  library_preserves indices_in_range lib ->
  indices_in_range g \/ merge_rebuilds_in_range lib ->
  clean_geometry lib g = (true, g') ->
  indices_in_range g'.
Proof.
  intros Hlib [Hg|Hmerge] Hrun; unfold clean_geometry in Hrun.
  - eapply library_passes_preserves; [exact Hlib| |exact Hrun].
    by apply remove_unused_vertices_in_range.
  - by eapply library_passes_in_range_after_merge.
Qed.

(** C1 (as stated) fails: on a geometry object without the optional
    library methods, a face that names a vertex beyond the buffer is still
    there after [clean_geometry] has returned true. *)
Lemma clean_geometry_dangling_index_survives :
  clean_geometry bare_object dangling_mesh = (true, dangling_mesh)
  /\ ~ indices_in_range dangling_mesh.
Proof.
  split.
  - by vm_compute.
  - by_evaluation.
Qed.

(** ** The reference library keeps the face indices in range *)

Lemma py_mapM_Forall {A B : Type} (f : A -> Py B) (Q : B -> Prop) l l' :
  (forall x y, f x = Ok y -> Q y) -> py_mapM f l = Ok l' -> Forall Q l'.
Proof.
  intros Hf. revert l'. induction l as [|x l IH]; intros l' H; simpl in H.
  - inversion H. constructor.
  - destruct (f x) as [y|] eqn:Ex; [|discriminate].
    destruct (py_mapM f l); [|discriminate].
    inversion H; subst. constructor; eauto.
Qed.

Lemma find_index_bound {A : Type} (p : A -> bool) l k :
  find_index p l = Some k -> (k < length l)%nat.
Proof.
  revert k. induction l as [|x l IH]; intros k; simpl; [discriminate|].
  destruct (p x).
  - intros [= <-]. lia.
  - destruct (find_index p l) as [j|]; simpl; [|discriminate].
    intros [= <-]. specialize (IH j eq_refl). lia.
Qed.

Lemma np_get_elem {A : Type} (a : list A) i x :
  np_get a i = Ok x -> x ∈ a.
Proof.
  unfold np_get. destruct (np_index (length a) i) as [k|]; [|discriminate].
  destruct (a !! k) eqn:E; [|discriminate].
  intros [= <-]. by eapply list_elem_of_lookup_2.
Qed.

Lemma flatten_Forall (P : Z -> Prop) fs :
  Forall P (flatten fs) <-> Forall (fun f => Forall P (face_indices f)) fs.
Proof.
  unfold flatten. induction fs as [|f fs IH]; simpl.
  - split; constructor.
  - rewrite Forall_app, Forall_cons, IH. done.
Qed.

Lemma ref_merge_vertices_in_range g g' :
  ref_merge_vertices g = Ok g' -> indices_in_range g'.
Proof.
  unfold ref_merge_vertices.
  destruct (vertices g) as [vs|]; [|discriminate].
  destruct (faces g) as [fs|]; [|discriminate].
  destruct (py_mapM _ vs) as [representative|]; simpl; [|discriminate].
  set (kept := List.filter _ _).
  destruct (py_mapM _ representative) as [new_of_old|] eqn:En; simpl; [|discriminate].
  destruct (np_take vs _) as [new_vertices|] eqn:Et; simpl; [|discriminate].
  destruct (py_mapM _ fs) as [new_faces|] eqn:Ef; simpl; [|discriminate].
  intros [= <-].
  unfold indices_in_range, face_index_list, vertex_count. simpl.
  apply np_take_length in Et. rewrite length_map in Et. rewrite Et.
  assert (Hn : Forall (fun i => i < Z.of_nat (length kept)) new_of_old).
  { eapply py_mapM_Forall; [|exact En]. intros r y. simpl.
    destruct (find_index (Nat.eqb r) kept) as [k|] eqn:Ek; simpl; [|discriminate].
    intros [= <-]. apply find_index_bound in Ek. lia. }
  rewrite Forall_forall in Hn.
  apply flatten_Forall. eapply py_mapM_Forall; [|exact Ef].
  intros [[a b] c] y. simpl.
  destruct (np_get new_of_old a) as [a'|] eqn:Ea; simpl; [|discriminate].
  destruct (np_get new_of_old b) as [b'|] eqn:Eb; simpl; [|discriminate].
  destruct (np_get new_of_old c) as [c'|] eqn:Ec; simpl; [|discriminate].
  intros [= <-]. simpl.
  apply np_get_elem in Ea, Eb, Ec. repeat constructor; auto.
Qed.

Lemma filter_mask_sublist (mask : list bool) (fs : list Face) f :
  f ∈ map snd (List.filter fst (zip mask fs)) -> f ∈ fs.
Proof.
  rewrite list_elem_of_fmap. intros [[b f'] [-> Hin]]. simpl.
  apply list_elem_of_In, List.filter_In in Hin as [Hin _].
  apply list_elem_of_In in Hin. by eapply elem_of_zip_r.
Qed.

Lemma ref_update_faces_in_range g mask g' :
  indices_in_range g -> ref_update_faces g mask = Ok g' -> indices_in_range g'.
Proof.
  unfold ref_update_faces, indices_in_range, face_index_list, vertex_count.
  destruct (faces g) as [fs|]; [|discriminate].
  case_bool_decide; [|discriminate].
  intros Hg [= <-]. simpl.
  rewrite flatten_Forall in Hg. rewrite flatten_Forall.
  rewrite Forall_forall in Hg. apply Forall_forall. intros f Hf.
  apply Hg. by eapply filter_mask_sublist.
Qed.

Lemma reference_trimesh_preserves_range :
  library_preserves indices_in_range reference_trimesh.
Proof.
  split; simpl.
  - intros f g g' [= <-] _. apply ref_merge_vertices_in_range.
  - intros f g g' [= <-] Hg [= <-]. by apply remove_unused_vertices_in_range.
  - apply ref_update_faces_in_range.
  - intros f g g' [=].
  - intros f g g' [=].
  - by intros f g g' [= <-] Hg [= <-].
Qed.

(** The theorem applied to a mesh with a spare vertex and the reference
    library. *)
Lemma clean_geometry_keeps_indices_in_range_witness :
  indices_in_range (clean_geometry reference_trimesh spare_vertex_mesh).2.
Proof.
  apply (clean_geometry_keeps_indices_in_range reference_trimesh spare_vertex_mesh).
  - apply reference_trimesh_preserves_range.
  - left. by_evaluation.
  - vm_compute. reflexivity.
Defined.

(** The reference library has a merge pass of the second kind. *)
Lemma reference_trimesh_merge_rebuilds : merge_rebuilds_in_range reference_trimesh.
Proof. exists ref_merge_vertices. split; [done|]. apply ref_merge_vertices_in_range. Qed.

(** ** Per-vertex attributes under the unused-vertex removal *)

(** The UV array is re-sliced together with the vertex buffer. *)
Lemma remove_unused_vertices_uv_lockstep g g' :
  uv_in_lockstep g -> _remove_unused_vertices g = (true, g') -> uv_in_lockstep g'.
Proof.
  intros Hg. unfold _remove_unused_vertices.
  destruct (vertices g) as [vs|] eqn:Ev; [|discriminate].
  destruct (faces g) as [fs|] eqn:Ef; [|discriminate].
  case_bool_decide; [discriminate|].
  case_bool_decide; [by intros [= <-]|].
  destruct (np_take vs _) as [new_vertices|] eqn:Et; [|discriminate].
  destruct (py_mapM _ fs) as [new_faces|] eqn:Em; [|discriminate].
  simpl. destruct (visual g) as [v|] eqn:Evis; [|discriminate].
  destruct (uv v) as [[uvs|]|] eqn:Euv.
  - destruct (np_take uvs _) as [new_uv|] eqn:Eu; [|discriminate].
    intros [= <-]. unfold uv_in_lockstep, vertex_count. simpl.
    apply np_take_length in Et, Eu. congruence.
  - intros [= <-]. unfold uv_in_lockstep. simpl. by rewrite Evis, Euv.
  - intros [= <-]. unfold uv_in_lockstep. simpl. by rewrite Evis, Euv.
Qed.

(** C3: the claim holds for the UV array only.  On a mesh with per-vertex
    colours and one unused vertex the removal succeeds, the vertex buffer
    shrinks from 4 to 3 entries and the colour array keeps its 4 entries. *)
Theorem remove_unused_vertices_leaves_colours_behind :
  attributes_in_lockstep coloured_mesh
  /\ (_remove_unused_vertices coloured_mesh).1 = true
  /\ vertex_count (_remove_unused_vertices coloured_mesh).2 = 3%nat
  /\ attribute_lengths (_remove_unused_vertices coloured_mesh).2 = [4%nat]
  /\ ~ attributes_in_lockstep (_remove_unused_vertices coloured_mesh).2.
Proof.
  split; [|split; [|split; [|split]]].
  - by_evaluation.
  - by vm_compute.
  - by vm_compute.
  - by vm_compute.
  - by_evaluation.
Qed.

(** ** Running the cleanup twice *)

Lemma used_indices_elem fs i : i ∈ flatten fs -> i ∈ used_indices fs.
Proof.
  unfold used_indices. case_bool_decide as Hlen.
  - by rewrite elem_of_list_to_set.
  - destruct fs; simpl in Hlen; [|lia]. intros Hin. by apply elem_of_nil in Hin.
Qed.

(** With every vertex referenced the unused-vertex removal changes
    nothing. *)
Lemma remove_unused_vertices_idle g :
  all_vertices_referenced g -> (_remove_unused_vertices g).2 = g.
Proof.
  intros Hg. unfold _remove_unused_vertices.
  destruct (vertices g) as [vs|] eqn:Ev; [|done].
  destruct (faces g) as [fs|] eqn:Ef; [|done].
  case_bool_decide; [done|].
  case_bool_decide as Hsize; [done|].
  exfalso. apply Hsize. apply size_empty_iff.
  unfold all_vertices_referenced, face_index_list, vertex_count in Hg.
  rewrite Ev, Ef in Hg. rewrite Forall_forall in Hg.
  apply elem_of_equiv_empty. intros i.
  rewrite elem_of_difference, elem_of_list_to_set.
  intros [Hi Hn]. apply Hn, used_indices_elem. by apply Hg.
Qed.

(** The mapping built from a duplicate-free list sends each entry to its
    position. *)
Lemma index_mapping_fold_other (ps : list (nat * Z)) (d : gmap Z Z) k :
  k ∉ ps.*2 ->
  foldl (fun (d : gmap Z Z) (p : nat * Z) => <[p.2 := Z.of_nat p.1]> d) d ps !! k
  = d !! k.
Proof.
  revert d. induction ps as [|[j0 k0] ps IH]; intros d Hk; simpl; [done|].
  rewrite fmap_cons, not_elem_of_cons in Hk. destruct Hk as [Hne Hk]. simpl in Hne.
  rewrite IH by done. by rewrite lookup_insert_ne.
Qed.

Lemma index_mapping_fold_lookup (ps : list (nat * Z)) (d : gmap Z Z) j k :
  NoDup ps.*2 -> (j, k) ∈ ps ->
  foldl (fun (d : gmap Z Z) (p : nat * Z) => <[p.2 := Z.of_nat p.1]> d) d ps !! k
  = Some (Z.of_nat j).
Proof.
  revert d. induction ps as [|[j0 k0] ps IH]; intros d Hnd Hin; simpl.
  - by apply elem_of_nil in Hin.
  - rewrite fmap_cons, NoDup_cons in Hnd. destruct Hnd as [Hk0 Hnd]. simpl in Hk0.
    apply elem_of_cons in Hin as [[= -> ->]|Hin].
    + rewrite index_mapping_fold_other by done. by rewrite lookup_insert_eq.
    + by apply IH.
Qed.

Lemma enumerate_values {A : Type} (h : nat -> nat) (l : list A) :
  (imap (fun i x => (h i, x)) l).*2 = l.
Proof.
  revert h. induction l as [|x l IH]; intros h; simpl; [done|].
  f_equal. apply (IH (h ∘ S)).
Qed.

Lemma index_mapping_lookup l j k :
  NoDup l -> l !! j = Some k -> index_mapping l !! k = Some (Z.of_nat j).
Proof.
  intros Hnd Hj. unfold index_mapping. apply index_mapping_fold_lookup.
  - by rewrite (enumerate_values (fun i => i)).
  - apply elem_of_lookup_imap. eauto.
Qed.

Lemma remap_faces_contains d fs fs' k j :
  py_mapM (remap_face d) fs = Ok fs' ->
  k ∈ flatten fs -> d !! k = Some j -> j ∈ flatten fs'.
Proof.
  revert fs'. induction fs as [|f fs IH]; intros fs' H Hk Hd; simpl in H.
  - by apply elem_of_nil in Hk.
  - destruct (remap_face d f) as [f'|] eqn:Ef; [|discriminate].
    destruct (py_mapM (remap_face d) fs) as [fs2|] eqn:Em; [|discriminate].
    inversion H; subst. unfold flatten in *. simpl in *.
    apply elem_of_app in Hk as [Hk|Hk]; apply elem_of_app.
    + left. destruct f as [[a b] c]. unfold remap_face, dict_get in Ef. simpl in Ef.
      destruct (d !! a) as [a'|] eqn:Ea; simpl in Ef; [|discriminate].
      destruct (d !! b) as [b'|] eqn:Eb; simpl in Ef; [|discriminate].
      destruct (d !! c) as [c'|] eqn:Ec; simpl in Ef; [|discriminate].
      injection Ef as <-. simpl in *.
      rewrite !elem_of_cons in Hk. rewrite !elem_of_cons.
      destruct Hk as [->|[->|[->|Hk]]]; [| | |by apply elem_of_nil in Hk];
        naive_solver.
    + right. by apply IH.
Qed.

Lemma used_indices_list_NoDup fs : NoDup (merge_sort Z.le (elements (used_indices fs))).
Proof. rewrite merge_sort_Permutation. apply NoDup_elements. Qed.

Lemma used_indices_list_elem fs k :
  k ∈ merge_sort Z.le (elements (used_indices fs)) -> k ∈ flatten fs.
Proof.
  rewrite merge_sort_Permutation, elem_of_elements. unfold used_indices.
  case_bool_decide; [by rewrite elem_of_list_to_set | by rewrite elem_of_empty].
Qed.

(** After the buffers have been rewritten every vertex is referenced. *)
Lemma rewritten_buffers_all_referenced g vs fs new_vertices new_faces :
  np_take vs (merge_sort Z.le (elements (used_indices fs))) = Ok new_vertices ->
  py_mapM (remap_face (index_mapping (merge_sort Z.le (elements (used_indices fs))))) fs
  = Ok new_faces ->
  all_vertices_referenced (set_faces (set_vertices g new_vertices) new_faces).
Proof.
  intros Et Em. unfold all_vertices_referenced, face_index_list, vertex_count. simpl.
  apply np_take_length in Et. rewrite Et.
  apply Forall_forall. intros i Hi. apply elem_of_seqZ in Hi.
  destruct (lookup_lt_is_Some_2 (merge_sort Z.le (elements (used_indices fs)))
              (Z.to_nat i)) as [k Hk]; [lia|].
  eapply remap_faces_contains; [exact Em| |].
  - apply used_indices_list_elem. by eapply list_elem_of_lookup_2.
  - rewrite (index_mapping_lookup _ (Z.to_nat i) k).
    + f_equal. lia.
    + apply used_indices_list_NoDup.
    + done.
Qed.

(** The unused-vertex removal is idempotent: a second application leaves
    the geometry as the first one left it. *)
Lemma remove_unused_vertices_idempotent g :
  (_remove_unused_vertices (_remove_unused_vertices g).2).2
  = (_remove_unused_vertices g).2.
Proof.
  assert (H : (_remove_unused_vertices g).2 = g
              \/ all_vertices_referenced (_remove_unused_vertices g).2).
  { unfold _remove_unused_vertices.
    destruct (vertices g) as [vs|] eqn:Ev; [|by left].
    destruct (faces g) as [fs|] eqn:Ef; [|by left].
    case_bool_decide; [by left|].
    case_bool_decide; [by left|].
    destruct (np_take vs _) as [new_vertices|] eqn:Et; [|by left].
    destruct (py_mapM _ fs) as [new_faces|] eqn:Em; [|by left].
    right. pose proof (rewritten_buffers_all_referenced g vs fs _ _ Et Em) as Hall.
    simpl. destruct (visual g) as [v|]; [|exact Hall].
    destruct (uv v) as [[uvs|]|]; try exact Hall.
    destruct (np_take uvs _); exact Hall. }
  destruct H as [H|H]; [rewrite H; exact H|]. by apply remove_unused_vertices_idle.
Qed.

(** On an object without the optional library passes the whole cleanup is
    idempotent; the order of the library passes is what breaks it. *)
Lemma clean_geometry_bare_object_idempotent g :
  clean_geometry bare_object (clean_geometry bare_object g).2
  = clean_geometry bare_object g.
Proof.
  unfold clean_geometry, library_passes. simpl.
  by rewrite remove_unused_vertices_idempotent.
Qed.


(** ** validate_and_repair_mesh *)

Lemma face_valid_in_bounds n f :
  face_valid (Z.of_nat n - 1) f = true <-> face_in_bounds n f.
Proof.
  unfold face_valid, face_in_bounds.
  rewrite andb_true_iff, !forallb_forall, Forall_forall.
  setoid_rewrite <- list_elem_of_In. setoid_rewrite Z.leb_le.
  split.
  - intros [Hle Hge] i Hi. split; [by apply Hge | by apply Hle].
  - intros H. split; intros i Hi; by apply H.
Qed.

Lemma foldl_max_ge x l : x <= foldl Z.max x l.
Proof.
  revert x. induction l as [|y l IH]; intros x; simpl; [lia|].
  etrans; [|apply IH]. lia.
Qed.

Lemma foldl_max_elem x l i : i ∈ l -> i <= foldl Z.max x l.
Proof.
  revert x. induction l as [|y l IH]; intros x Hin; simpl.
  - by apply elem_of_nil in Hin.
  - apply elem_of_cons in Hin as [->|Hin].
    + etrans; [|apply foldl_max_ge]. lia.
    + by apply IH.
Qed.

(** [np.max] exceeds a bound exactly when some entry does. *)
Lemma np_max_exceeds l m bound :
  np_max l = Ok m -> (m > bound <-> Exists (fun i => i > bound) l).
Proof.
  destruct l as [|x l]; simpl; [discriminate|]. intros [= <-].
  rewrite Exists_exists. split.
  - intros Hm. revert x Hm. induction l as [|y l IH]; intros x Hm; simpl in Hm.
    + exists x. split; [left|lia].
    + destruct (IH _ Hm) as (i & Hi & Hgt).
      apply elem_of_cons in Hi as [->|Hi].
      * destruct (decide (x <= y)); [exists y|exists x]; (split; [|lia]).
        -- right; left.
        -- left.
      * exists i. split; [|done]. by right; right.
  - intros (i & Hi & Hgt).
    apply elem_of_cons in Hi as [->|Hi].
    + pose proof (foldl_max_ge x l). lia.
    + pose proof (foldl_max_elem x l i Hi). lia.
Qed.

Lemma filter_face_valid n fs :
  List.filter (face_valid (Z.of_nat n - 1)) fs = filter (face_in_bounds n) fs.
Proof.
  induction fs as [|f fs IH]; [done|]. simpl. rewrite filter_cons.
  destruct (face_valid _ f) eqn:Ef.
  - apply face_valid_in_bounds in Ef. rewrite decide_True by done. by f_equal.
  - rewrite decide_False; [done|]. intros H. apply face_valid_in_bounds in H. congruence.
Qed.

(** C6 (as amended): [validate_and_repair_mesh] returns false, leaving the
    geometry alone, when the vertex or the face buffer is missing or
    empty.  When some face index exceeds the last vertex index, the faces
    kept are exactly those whose indices all lie within [0, vertex count -
    1], in their order; if no such face exists the geometry is rejected
    with its faces untouched, otherwise the geometry with the kept faces
    goes on to the integrity check, which accepts it as it is when the
    object has no [is_valid] attribute. *)
Theorem validate_and_repair_mesh_drops_offending_faces lib g :
  (vertex_count g = 0%nat \/ face_count g = 0%nat ->
   validate_and_repair_mesh lib g = (false, g))
  /\ (forall vs fs,
        vertices g = Some vs -> faces g = Some fs ->
        vs <> [] -> fs <> [] ->
        Exists (fun i => i > Z.of_nat (length vs) - 1) (flatten fs) ->
        let kept := filter (face_in_bounds (length vs)) fs in
        (kept = [] -> validate_and_repair_mesh lib g = (false, g))
        /\ (kept <> [] ->
            validate_and_repair_mesh lib g = integrity_check lib (set_faces g kept)
            /\ (is_valid lib = None ->
                validate_and_repair_mesh lib g = (true, set_faces g kept)))).
Proof.
  split.
  - unfold validate_and_repair_mesh, vertex_count, face_count.
    destruct (vertices g) as [vs|]; [|done].
    destruct (faces g) as [fs|]; [|done].
    intros H. by rewrite bool_decide_eq_true_2.
  - intros vs fs Ev Ef Hvs Hfs Hex kept.
    unfold validate_and_repair_mesh. rewrite Ev, Ef.
    rewrite bool_decide_eq_false_2
      by (intros [H|H]; [by destruct vs | by destruct fs]).
    destruct (np_max (flatten fs)) as [face_max|] eqn:Emax.
    2:{ destruct fs as [|[[a b] c] fs]; [done|discriminate]. }
    apply (np_max_exceeds _ _ (Z.of_nat (length vs) - 1)) in Emax.
    rewrite bool_decide_eq_true_2 by by apply Emax.
    rewrite filter_face_valid. fold kept.
    split.
    + intros ->. done.
    + intros Hk. rewrite bool_decide_eq_true_2 by (destruct kept; simpl; [done|lia]).
      split; [done|]. intros Hnone. unfold integrity_check. by rewrite Hnone.
Qed.

(** The theorem applied to a mesh with one valid face, one face naming
    vertex 7 and one face with a negative index: the valid face is kept. *)
Lemma validate_and_repair_mesh_drops_offending_faces_witness :
  validate_and_repair_mesh bare_object mixed_mesh
  = (true, set_faces mixed_mesh [(0, 1, 2)]).
Proof.
  destruct (validate_and_repair_mesh_drops_offending_faces bare_object mixed_mesh)
    as [_ H].
  destruct (H [v3 0 0 0; v3 1 0 0; v3 0 1 0] [(0, 1, 2); (0, 1, 7); (0, -1, 2)])
    as [_ Hkept]; [reflexivity|reflexivity|discriminate|discriminate| |].
  - by_evaluation.
  - apply Hkept; [discriminate|reflexivity].
Defined.

(** C6 (as stated) fails: when every face has an index beyond the vertex
    buffer the whole geometry is rejected and no face is dropped. *)
Lemma validate_and_repair_mesh_rejects_all_dangling :
  vertex_count all_dangling_mesh = 3%nat
  /\ face_count all_dangling_mesh = 1%nat
  /\ validate_and_repair_mesh bare_object all_dangling_mesh
     = (false, all_dangling_mesh).
Proof. repeat split; by vm_compute. Qed.

(** A face with a negative index is kept when no index exceeds the last
    vertex index: the filter is only entered on an index that is too
    large. *)
Lemma validate_and_repair_mesh_keeps_negative_index :
  validate_and_repair_mesh bare_object negative_index_mesh
  = (true, negative_index_mesh).
Proof. by vm_compute. Qed.

(** ** simplify_geometry_safely *)

Lemma accept_simplified_counts g original r :
  (forall s, r = Ok (Some s) -> Z.of_nat (face_count s) <= original) ->
  0 <= original ->
  (accept_simplified g original r).1.2 <= (accept_simplified g original r).1.1.2.
Proof.
  intros Hs Ho. unfold accept_simplified.
  destruct r as [[s|]|]; simpl; try lia.
  specialize (Hs s eq_refl). unfold face_count in Hs.
  destruct (faces s) as [sfaces|]; simpl; [|lia].
  case_bool_decide; simpl; [|lia].
  destruct (vertices s); simpl; lia.
Qed.

(** C2: the new face count reported by [simplify_geometry_safely] never
    exceeds the original one, given a decimation that does not add faces;
    and below the minimum face count the result is (false, 0, 0) with the
    geometry untouched. *)
Theorem simplify_geometry_safely_never_grows lib config g target_faces_ratio :
  decimation_reduces lib ->
  (simplify_geometry_safely lib config g target_faces_ratio).1.2
  <= (simplify_geometry_safely lib config g target_faces_ratio).1.1.2
  /\ (Z.of_nat (face_count g) < min_face_count config ->
      simplify_geometry_safely lib config g target_faces_ratio = ((false, 0, 0), g)).
Proof.
  intros Hdec. unfold simplify_geometry_safely, face_count.
  destruct (faces g) as [fs|] eqn:Ef; [|by split].
  case_bool_decide as Hmin; [by split|]. split; [|lia].
  destruct (int_times _ _) as [target_face_count|]; [|done].
  apply accept_simplified_counts; [|lia].
  intros s Hs. apply Hdec in Hs. unfold face_count at 2 in Hs.
  rewrite Ef in Hs. lia.
Qed.

Lemma truncating_decimation_reduces : decimation_reduces reference_trimesh.
Proof.
  intros g k s. simpl. unfold truncating_decimation, face_count.
  destruct (faces g) as [fs|]; [|discriminate].
  intros [= <-]. simpl. rewrite length_take. lia.
Qed.

(** The theorem applied to a mesh of five faces: decimated under a
    minimum of four faces, skipped under the default minimum of 100. *)
Lemma simplify_geometry_safely_never_grows_witness :
  (simplify_geometry_safely reference_trimesh small_mesh_config fan_mesh (1 # 2)).1.2
  <= (simplify_geometry_safely reference_trimesh small_mesh_config fan_mesh (1 # 2)).1.1.2
  /\ simplify_geometry_safely reference_trimesh default_config fan_mesh (1 # 2)
     = ((false, 0, 0), fan_mesh).
Proof.
  split.
  - apply (simplify_geometry_safely_never_grows reference_trimesh small_mesh_config
             fan_mesh (1 # 2)).
    apply truncating_decimation_reduces.
  - apply (simplify_geometry_safely_never_grows reference_trimesh default_config
             fan_mesh (1 # 2)).
    + apply truncating_decimation_reduces.
    + vm_compute. reflexivity.
Defined.

(** ** Float arithmetic *)

Lemma round_half_even_floor y : Qfloor y <= round_half_even y <= Qfloor y + 1.
Proof.
  unfold round_half_even. destruct (Qcompare _ _); [destruct (Z.even _)| |]; lia.
Qed.

Lemma round_half_even_ge (k : Z) y : (inject_Z k <= y)%Q -> k <= round_half_even y.
Proof.
  intros H. apply Qfloor_resp_le in H. rewrite Qfloor_Z in H.
  pose proof (round_half_even_floor y). lia.
Qed.

Lemma round_half_even_le (k : Z) y : (y <= inject_Z k)%Q -> round_half_even y <= k.
Proof.
  intros H. pose proof (Qfloor_resp_le _ _ H) as Hf. rewrite Qfloor_Z in Hf.
  destruct (Z.eq_dec (Qfloor y) k) as [Heq|Hne].
  - unfold round_half_even.
    assert (Hy : (y - inject_Z (Qfloor y) < 1 # 2)%Q).
    { rewrite Heq. lra. }
    rewrite Qlt_alt in Hy. rewrite Hy. lia.
  - pose proof (round_half_even_floor y). lia.
Qed.

Lemma pow2_pos e : (0 < 2 ^ e)%Q.
Proof. by apply Qpower_0_lt. Qed.

Lemma Qlog2_le x : (0 < x)%Q -> (2 ^ Qlog2 x <= x)%Q.
Proof.
  intros Hx. unfold Qlog2.
  set (a := Z.log2 (Qnum x)). set (b := Z.log2 (Z.pos (Qden x))).
  destruct (Qle_bool _ x) eqn:E; [by apply Qle_bool_iff in E|]. clear E.
  assert (Hn : 0 < Qnum x) by (unfold Qlt in Hx; simpl in Hx; lia).
  assert (Ha : 2 ^ a <= Qnum x) by (apply Z.log2_spec; lia).
  assert (Hb : Z.pos (Qden x) < 2 ^ (b + 1)).
  { replace (b + 1) with (Z.succ b) by lia. apply Z.log2_spec. lia. }
  assert (H0a : 0 <= a) by apply Z.log2_nonneg.
  assert (H0b : 0 <= b) by apply Z.log2_nonneg.
  replace (a - b - 1) with (a - (b + 1)) by lia.
  assert (E1 : (2 ^ a == inject_Z (2 ^ a))%Q).
  { change 2%Q with (inject_Z 2). symmetry. apply Zpower_Qpower. lia. }
  assert (E2 : (2 ^ (b + 1) == inject_Z (2 ^ (b + 1)))%Q).
  { change 2%Q with (inject_Z 2). symmetry. apply Zpower_Qpower. lia. }
  rewrite Qpower_minus by done. rewrite E1, E2.
  assert (0 < 2 ^ a) by (apply Z.pow_pos_nonneg; lia).
  assert (0 < 2 ^ (b + 1)) by (apply Z.pow_pos_nonneg; lia).
  apply Qle_shift_div_r.
  - by rewrite <- (Zlt_Qlt 0).
  - unfold Qle, Qmult, inject_Z. cbn [Qnum Qden]. nia.
Qed.

Lemma round_binary64_nonneg x : (0 <= x)%Q -> (0 <= round_binary64 x)%Q.
Proof.
  intros Hx. unfold round_binary64.
  assert (Hx' : (0 <= Qred x)%Q) by by rewrite Qred_correct.
  revert Hx'. generalize (Qred x). clear x Hx. intros x Hx.
  destruct (Qeq_bool x 0); [done|].
  rewrite (Qred_correct (_ * _)).
  apply Qmult_le_0_compat; [|apply Qlt_le_weak, pow2_pos].
  change 0%Q with (inject_Z 0). rewrite <- Zle_Qle.
  apply round_half_even_ge.
  apply Qle_shift_div_l; [apply pow2_pos|]. by rewrite Qmult_0_l.
Qed.

(** A number below [2 ^ 53] is scaled by a power of two that is at
    most 1: whole numbers stay whole. *)
Lemma binary64_exponent_small x :
  (0 < x)%Q -> (x < 2 ^ 53)%Q -> binary64_exponent x <= 0.
Proof.
  intros H0 H53. unfold binary64_exponent.
  assert (Habs : Qabs x = x).
  { destruct x as [n d]. unfold Qlt in H0. simpl in H0. unfold Qabs.
    by rewrite Z.abs_eq by lia. }
  rewrite Habs.
  pose proof (Qlog2_le x H0) as Hl.
  destruct (Z_le_gt_dec (Qlog2 x) 52) as [?|Hgt]; [lia|].
  exfalso. assert (2 ^ 53 <= 2 ^ Qlog2 x)%Q.
  { apply Qpower_le_compat_l; [lia|done]. }
  lra.
Qed.

Lemma round_binary64_brackets x (k : Z) :
  (0 <= x)%Q -> (x < 2 ^ 53)%Q ->
  ((inject_Z k <= x)%Q -> (inject_Z k <= round_binary64 x)%Q)
  /\ ((x <= inject_Z k)%Q -> (round_binary64 x <= inject_Z k)%Q).
Proof.
  intros H0 H53. unfold round_binary64.
  assert (Hx : (Qred x == x)%Q) by apply Qred_correct.
  rewrite <- Hx in H0, H53.
  enough (Hgoal : forall x', (0 <= x')%Q -> (x' < 2 ^ 53)%Q ->
    let r := if Qeq_bool x' 0 then 0%Q
             else Qred (inject_Z (round_half_even (x' / 2 ^ binary64_exponent x'))
                        * 2 ^ binary64_exponent x') in
    ((inject_Z k <= x')%Q -> (inject_Z k <= r)%Q)
    /\ ((x' <= inject_Z k)%Q -> (r <= inject_Z k)%Q)).
  { destruct (Hgoal (Qred x) H0 H53) as [Hge Hle].
    split; intros H; [apply Hge|apply Hle]; by rewrite Hx. }
  clear x H0 H53 Hx. intros x H0 H53. cbv zeta.
  destruct (Qeq_bool x 0) eqn:E.
  { apply Qeq_bool_iff in E. by rewrite E. }
  assert (Hpos : (0 < x)%Q).
  { apply Qeq_bool_neq in E.
    apply Qle_lteq in H0 as [?|Heq]; [done|]. by destruct E. }
  pose proof (binary64_exponent_small x Hpos H53) as He.
  set (e := binary64_exponent x) in *.
  assert (Hscale : (inject_Z (2 ^ (- e)) * 2 ^ e == 1)%Q).
  { rewrite Zpower_Qpower by lia. change (inject_Z 2) with 2%Q.
    rewrite <- Qpower_plus by done. by replace (- e + e) with 0 by lia. }
  pose proof (pow2_pos e) as Hp.
  rewrite (Qred_correct (_ * _)).
  assert (Hk : (inject_Z k == inject_Z (k * 2 ^ (- e)) * 2 ^ e)%Q).
  { rewrite inject_Z_mult, <- Qmult_assoc, Hscale. ring. }
  split; intros Hle.
  - rewrite Hk. apply Qmult_le_compat_r; [|by apply Qlt_le_weak].
    rewrite <- Zle_Qle. apply round_half_even_ge.
    apply Qle_shift_div_l; [done|]. by rewrite <- Hk.
  - rewrite Hk. apply Qmult_le_compat_r; [|by apply Qlt_le_weak].
    rewrite <- Zle_Qle. apply round_half_even_le.
    apply Qle_shift_div_r; [done|]. by rewrite <- Hk.
Qed.

Lemma round_binary64_comp x y : (x == y)%Q -> round_binary64 x = round_binary64 y.
Proof. intros H. unfold round_binary64. by rewrite (Qred_complete _ _ H). Qed.

(** A whole number below [2 ^ 53] is a float. *)
Lemma round_binary64_whole (n : Z) :
  0 <= n -> n < 2 ^ 53 -> (round_binary64 (inject_Z n) == inject_Z n)%Q.
Proof.
  intros H0 H53.
  assert (Hq0 : (0 <= inject_Z n)%Q) by (by rewrite <- (Zle_Qle 0)).
  assert (Hq53 : (inject_Z n < 2 ^ 53)%Q).
  { change (2 ^ 53)%Q with (inject_Z (2 ^ 53)). by rewrite <- Zlt_Qlt. }
  destruct (round_binary64_brackets (inject_Z n) n Hq0 Hq53) as [Hge Hle].
  apply Qle_antisym; [apply Hle|apply Hge]; apply Qle_refl.
Qed.

(** The integer part of the rounded number is the floor of the exact one,
    or one more. *)
Lemma floor_round_binary64 x :
  (0 <= x)%Q -> (x < 2 ^ 53)%Q ->
  Qfloor x <= Qfloor (round_binary64 x) <= Qfloor x + 1
  /\ (round_binary64 x < 2 ^ 1024)%Q.
Proof.
  intros H0 H53.
  destruct (round_binary64_brackets x (Qfloor x) H0 H53) as [Hge _].
  destruct (round_binary64_brackets x (Qfloor x + 1) H0 H53) as [_ Hle].
  specialize (Hge (Qfloor_le x)).
  specialize (Hle (Qlt_le_weak _ _ (Qlt_floor x))).
  apply Qfloor_resp_le in Hge as Hge'. rewrite Qfloor_Z in Hge'.
  apply Qfloor_resp_le in Hle as Hle'. rewrite Qfloor_Z in Hle'.
  split; [lia|].
  eapply Qle_lt_trans; [exact Hle|].
  assert (Qfloor x + 1 <= 2 ^ 53).
  { assert (Hf : (inject_Z (Qfloor x) < inject_Z (2 ^ 53))%Q).
    { eapply Qle_lt_trans; [apply Qfloor_le|]. exact H53. }
    rewrite <- Zlt_Qlt in Hf. lia. }
  eapply Qle_lt_trans; [rewrite <- Zle_Qle; eassumption|]. done.
Qed.

(** On the numbers used below, and on a tie among subnormal numbers and
    whole numbers beyond 2^53, [round_binary64] gives what the standard
    library's specification of binary64 arithmetic gives. *)
Lemma round_binary64_agrees_with_SpecFloat :
  SF2Q (binary64_of 7385903388887613 (-53)) = Some (round_binary64 (82 # 100))
  /\ SF2Q (SFmul 53 1024 (binary64_of 150 0) (binary64_of 7385903388887613 (-53)))
     = Some (round_binary64 (150 * round_binary64 (82 # 100)))
  /\ SF2Q (SFmul 53 1024 (binary64_of 100 0) (binary64_of 7385903388887613 (-53)))
     = Some (round_binary64 (100 * round_binary64 (82 # 100)))
  /\ SF2Q (SFmul 53 1024 (binary64_of 700 0) (binary64_of 3152519739159347 (-52)))
     = Some (round_binary64 (700 * round_binary64 (7 # 10)))
  /\ SF2Q (SFmul 53 1024 (binary64_of 768 0) (binary64_of 6004799503160661 (-54)))
     = Some (round_binary64 (768 * round_binary64 (1 # 3)))
  /\ SF2Q (binary64_of 9007199254740995 0) = Some (round_binary64 9007199254740995)
  /\ SF2Q (binary64_of 3 (-1075)) = Some (round_binary64 (3 * 2 ^ (-1075)))
  /\ SFmul 53 1024 (binary64_of 3 0) (binary64_of 1 1023) = S754_infinity false
  /\ binary64 (3 * 2 ^ 1023) = Inf.
Proof. repeat split; by vm_compute. Qed.

(** The floats nearest to 0.01 and 0.05 lie above them. *)
Lemma ratio_bounds_below_their_floats :
  ((1 # 100) < round_binary64 (1 # 100))%Q /\ ((5 # 100) < round_binary64 (5 # 100))%Q.
Proof. split; by vm_compute. Qed.

(** ** The face count requested from the decimation *)

Lemma py_max_Qmax a b : py_max a b = Qmax a b.
Proof. reflexivity. Qed.

(** On a non-negative number [int] is the floor. *)
Lemma py_int_floor x : (0 <= x)%Q -> py_int x = Qfloor x.
Proof.
  destruct x as [n d]. unfold Qle, py_int, Qfloor. simpl.
  intros Hn. apply Z.quot_div_nonneg; lia.
Qed.

Lemma binary64_finite x :
  (0 <= x)%Q -> (x < 2 ^ 53)%Q -> binary64 x = Float (round_binary64 x).
Proof.
  intros H0 H53. unfold binary64.
  pose proof (round_binary64_nonneg x H0) as Hr.
  destruct (floor_round_binary64 x H0 H53) as [_ Hfin].
  destruct (Qle_bool _ _) eqn:E; [|done].
  apply Qle_bool_iff in E. rewrite Qabs_pos in E by done. lra.
Qed.

(** [int(n * r)] for a face count or an image dimension [n] and a
    non-negative float [r], with the product below [2 ^ 53]: the product
    is rounded to a float and then truncated, which gives the floor of the
    exact product or one more. *)
Lemma int_times_rounds n r :
  0 <= n -> n < 2 ^ 53 -> (0 <= r)%Q -> (inject_Z n * r < 2 ^ 53)%Q ->
  int_times n r = Ok (Qfloor (round_binary64 (inject_Z n * r)))
  /\ Qfloor (inject_Z n * r) <= Qfloor (round_binary64 (inject_Z n * r))
     <= Qfloor (inject_Z n * r) + 1.
Proof.
  intros Hn0 Hn53 Hr Hprod.
  assert (Hq0 : (0 <= inject_Z n)%Q) by (by rewrite <- (Zle_Qle 0)).
  assert (Hq53 : (inject_Z n < 2 ^ 53)%Q).
  { change (2 ^ 53)%Q with (inject_Z (2 ^ 53)). by rewrite <- Zlt_Qlt. }
  assert (Hx0 : (0 <= inject_Z n * r)%Q) by (by apply Qmult_le_0_compat).
  destruct (floor_round_binary64 _ Hx0 Hprod) as [Hfloor _].
  split; [|done].
  unfold int_times, py_float, py_mul. rewrite binary64_finite by done. simpl.
  assert (Hsame : round_binary64 (round_binary64 (inject_Z n) * r)
                  = round_binary64 (inject_Z n * r)).
  { apply round_binary64_comp. by rewrite round_binary64_whole. }
  unfold binary64. rewrite Hsame.
  fold (binary64 (inject_Z n * r)). rewrite binary64_finite by done. simpl.
  f_equal. apply py_int_floor. by apply round_binary64_nonneg.
Qed.




(** ** Texture resizing *)

Lemma py_maxZ_max a b : py_maxZ a b = Z.max a b.
Proof. unfold py_maxZ. destruct (Z.ltb_spec a b); lia. Qed.

Lemma resized_dimensions_rounds config w h f :
  0 <= w -> w < 2 ^ 53 -> 0 <= h -> h < 2 ^ 53 ->
  (0 <= f)%Q -> (inject_Z w * f < 2 ^ 53)%Q -> (inject_Z h * f < 2 ^ 53)%Q ->
  resized_dimensions config (w, h) f
  = Ok (Z.max (min_texture_size config) (Qfloor (round_binary64 (inject_Z w * f))),
        Z.max (min_texture_size config) (Qfloor (round_binary64 (inject_Z h * f)))).
Proof.
  intros Hw0 Hw Hh0 Hh Hf Hwf Hhf. unfold resized_dimensions. simpl.
  destruct (int_times_rounds w f Hw0 Hw Hf Hwf) as [-> _].
  destruct (int_times_rounds h f Hh0 Hh Hf Hhf) as [-> _].
  simpl. by rewrite !py_maxZ_max.
Qed.

Lemma resized_dimensions_at_least_minimum config original_size f new_size :
  resized_dimensions config original_size f = Ok new_size ->
  min_texture_size config <= new_size.1 /\ min_texture_size config <= new_size.2.
Proof.
  unfold resized_dimensions.
  destruct (int_times original_size.1 f) as [width|]; [|discriminate].
  destruct (int_times original_size.2 f) as [height|]; [|discriminate].
  simpl. intros [= <-]. simpl. rewrite !py_maxZ_max. lia.
Qed.




(** ** Failure of a single texture *)

Lemma compress_loop_outcome px config quality f entries found heap :
  (exists b, (compress_loop px config quality f entries found heap).1 = Ok b)
  \/ (exists e, (compress_loop px config quality f entries found heap).1 = Raise e).
Proof. destruct (compress_loop _ _ _ _ _ _ _).1; eauto. Qed.

Lemma compress_loop_failed_material px config quality f mid m img entries :
  image m = Some (Some img) ->
  _compress_texture_webp px config img quality f = None ->
  forall found heap,
    heap !! mid = Some m ->
    (compress_loop px config quality f entries found heap).2 !! mid = Some m.
Proof.
  intros Himg Hfail.
  induction entries as [|[name g] rest IH]; intros found heap Hheap; simpl; [done|].
  destruct (visual g) as [v|]; [|by apply IH].
  destruct (material v) as [mid'|]; [|by apply IH].
  destruct (heap !! mid') as [m'|] eqn:Hm'; [|done].
  destruct (image m') as [[img'|]|] eqn:Himg'; try by apply IH.
  destruct (_compress_texture_webp px config img' quality f) eqn:Hc; [|by apply IH].
  apply IH. rewrite lookup_insert_ne; [done|].
  intros ->. rewrite Hheap in Hm'. injection Hm' as <-. congruence.
Qed.

(** An attempt that fails leaves the heap of materials as it was and the
    loop goes on with the next geometry. *)
Lemma compress_loop_failed_attempt px config quality f name g v mid m img rest found heap :
  visual g = Some v -> material v = Some mid ->
  heap !! mid = Some m -> image m = Some (Some img) ->
  _compress_texture_webp px config img quality f = None ->
  compress_loop px config quality f ((name, g) :: rest) found heap
  = compress_loop px config quality f rest true heap.
Proof. intros Hv Hmat Hheap Himg Hfail. simpl. by rewrite Hv, Hmat, Hheap, Himg, Hfail. Qed.

(** C10: [compress_scene_textures_webp] always returns a boolean, and a
    material whose image the WebP compression fails on (it returns no
    result) is the same after the run as before: the failed attempt on a
    geometry leaves every material as it was, and so does the whole run
    for that material. *)
Theorem compress_scene_textures_webp_failure_atomic
    px config scene heap quality resize_factor :
  (exists b,
     (compress_scene_textures_webp px config scene heap quality resize_factor).1 = Ok b)
  /\ (forall mid m img,
        heap !! mid = Some m ->
        image m = Some (Some img) ->
        _compress_texture_webp px config img quality resize_factor = None ->
        (forall name g v rest found,
           visual g = Some v -> material v = Some mid ->
           (compress_loop px config quality resize_factor ((name, g) :: rest) found heap).2
           = (compress_loop px config quality resize_factor rest true heap).2)
        /\ (compress_scene_textures_webp px config scene heap quality resize_factor).2
           !! mid = Some m).
Proof.
  unfold compress_scene_textures_webp. split.
  - destruct (geometry scene) as [entries|]; [|by exists false].
    destruct (compress_loop _ _ _ _ _ _ _) as [[b|e] heap']; simpl; eauto.
  - intros mid m img Hheap Himg Hfail. split.
    + intros name g v rest found Hv Hmat.
      by rewrite (compress_loop_failed_attempt _ _ _ _ name g v mid m img).
    + destruct (geometry scene) as [entries|]; [|done].
      pose proof (compress_loop_failed_material px config quality resize_factor
                    mid m img entries Himg Hfail false heap Hheap) as H.
      by destruct (compress_loop _ _ _ _ _ _ _) as [[b|e] heap'].
Qed.

(** The theorem applied to a scene in which two geometries share a
    material whose image cannot be compressed. *)
Lemma compress_scene_textures_webp_failure_atomic_witness :
  (compress_scene_textures_webp reference_pillow default_config
     textured_scene textured_heap 70 (3 # 4)).2 !! 0%nat
  = Some (mkMaterial (Some (Some broken_texture)) None).
Proof.
  destruct (compress_scene_textures_webp_failure_atomic reference_pillow
              default_config textured_scene textured_heap 70 (3 # 4)) as [_ H].
  apply (H 0%nat _ broken_texture).
  - vm_compute. reflexivity.
  - reflexivity.
  - vm_compute. reflexivity.
Defined.

(** ** flatten_scene *)

Lemma has_vertices_and_faces_spec g :
  has_vertices_and_faces g = true <-> is_Some (vertices g) /\ is_Some (faces g).
Proof.
  unfold has_vertices_and_faces.
  by rewrite andb_true_iff, !bool_decide_eq_true.
Qed.

Lemma flatten_loop entries acc count :
  foldl flatten_step (mkScene (Some acc), count) entries
  = (mkScene
       (Some (acc ++ imap (fun i g => (simple_name (count + i), g))
                       (filter (fun g => is_Some (vertices g) /\ is_Some (faces g))
                               (map snd entries)))),
     (count + length (filter (fun g => is_Some (vertices g) /\ is_Some (faces g))
                             (map snd entries)))%nat).
Proof.
  revert acc count. induction entries as [|[name g] rest IH]; intros acc count; simpl.
  - by rewrite app_nil_r, Nat.add_0_r.
  - rewrite filter_cons. destruct (has_vertices_and_faces g) eqn:Eg.
    + apply has_vertices_and_faces_spec in Eg. rewrite decide_True by done.
      unfold add_geometry. simpl. rewrite IH, <- app_assoc. simpl.
      rewrite Nat.add_0_r. f_equal; [|lia]. do 4 f_equal.
      apply imap_ext. intros i x _. simpl. do 2 f_equal. lia.
    + rewrite decide_False; [apply IH|].
      intros H. apply has_vertices_and_faces_spec in H. congruence.
Qed.

(** C5 (as amended): [flatten_scene] builds a new scene holding, in
    iteration order, the geometries of the source that have both a vertex
    buffer and a face buffer, under the names mesh_0, mesh_1, ...; a
    geometry that lacks either one is left out. *)
Theorem flatten_scene_keeps_geometries_with_vertices_and_faces scene :
  geometry (flatten_scene scene)
  = Some (imap (fun i g => (simple_name i, g))
            (filter (fun g => is_Some (vertices g) /\ is_Some (faces g))
                    (map snd (scene_entries scene)))).
Proof.
  unfold flatten_scene, scene_entries.
  destruct (geometry scene) as [[|e entries]|]; [done| |done].
  unfold Scene_new. by rewrite flatten_loop.
Qed.

(** The generated names are pairwise distinct. *)
Lemma simple_name_inj i j : simple_name i = simple_name j -> i = j.
Proof.
  unfold simple_name. cbv [append String.app].
  intros [= H]. by apply (inj pretty) in H.
Qed.

(** C5 (as stated) fails: a geometry that has vertex data and no face
    data is dropped. *)
Lemma flatten_scene_drops_point_cloud :
  is_Some (vertices point_cloud)
  /\ geometry (flatten_scene cloud_scene) = Some [].
Proof. split; [by eexists | by vm_compute]. Qed.

(** ** The target ratio on the command line *)

Lemma Qle_bool_true a b : Qle_bool a b = true <-> (a <= b)%Q.
Proof. apply Qle_bool_iff. Qed.

(** C4 (as amended): the validation that runs before processing accepts
    a numeric target ratio exactly when it lies between 0.01 and 1.0; in
    [validate_input] a given ratio adds just this condition to the other
    checks. *)
Theorem validate_target_ratio_accepts_one_percent_to_one r :
  ((ParameterValidator.validate_target_ratio (PyNum r)).1 = true <-> ((1 # 100) <= r /\ r <= 1)%Q)
  /\ (forall file_ok validate content_ok mode_name,
        validate_input (mkOptions file_ok validate content_ok mode_name (Some r))
        = validate_input (mkOptions file_ok validate content_ok mode_name None)
          && (ParameterValidator.validate_target_ratio (PyNum r)).1).
Proof.
  split.
  - unfold ParameterValidator.validate_target_ratio.
    destruct (Qle_bool (1 # 100) r && Qle_bool r 1) eqn:E; simpl.
    + apply andb_true_iff in E as [E1 E2].
      apply Qle_bool_true in E1, E2. split; [by intros _|done].
    + split; [discriminate|]. intros [H1 H2].
      apply Qle_bool_true in H1, H2. rewrite H1, H2 in E. discriminate.
  - intros file_ok validate content_ok mode_name. unfold validate_input.
    cbn [input_file_valid validation glb_content_valid mode ratio].
    generalize (ParameterValidator.validate_mode (PyStr mode_name)).1.
    generalize (ParameterValidator.validate_target_ratio (PyNum r)).1.
    by intros [] [] ; destruct file_ok, validate, content_ok.
Qed.

(** C4 (as stated) fails: the ratio 0.02 lies below 0.05 and the input
    validation lets it through; only [Config.validate_target_ratio], which
    the command line does not call, would refuse it. *)
Lemma validate_input_accepts_two_percent :
  validate_input (mkOptions true true true "ultra" (Some (2 # 100))) = true
  /\ (ParameterValidator.validate_target_ratio (PyNum (2 # 100))).1 = true
  /\ ~ ((5 # 100) <= (2 # 100))%Q
  /\ Config.validate_target_ratio (2 # 100) = false.
Proof.
  split; [by vm_compute|]. split; [by vm_compute|]. split; [|by vm_compute].
  intros H. vm_compute in H. by apply H.
Qed.

(** * Further properties *)

(** ** What the unused-vertex removal does to the buffers *)

Lemma py_mapM_lookup {A B : Type} (f : A -> Py B) l l' j x :
  py_mapM f l = Ok l' -> l !! j = Some x ->
  exists y, l' !! j = Some y /\ f x = Ok y.
Proof.
  revert l' j. induction l as [|a l IH]; intros l' j H Hj; simpl in H; [done|].
  destruct (f a) as [b|] eqn:Ea; [|discriminate].
  destruct (py_mapM f l) as [bs|] eqn:Em; [|discriminate].
  inversion H; subst. destruct j as [|j]; simpl in *.
  - injection Hj as <-. eauto.
  - by eapply IH.
Qed.

Lemma py_mapM_Forall2 {A B : Type} (f : A -> Py B) (R : A -> B -> Prop) l l' :
  (forall x y, x ∈ l -> f x = Ok y -> R x y) ->
  py_mapM f l = Ok l' -> Forall2 R l l'.
Proof.
  revert l'. induction l as [|a l IH]; intros l' HR H; simpl in H.
  - inversion H. constructor.
  - destruct (f a) as [b|] eqn:Ea; [|discriminate].
    destruct (py_mapM f l) as [bs|] eqn:Em; [|discriminate].
    inversion H; subst. constructor.
    + apply HR; [left|done].
    + apply IH; [|done]. intros x y Hx. apply HR. by right.
Qed.

Lemma py_mapM_succeeds {A B : Type} (f : A -> Py B) l :
  Forall (fun x => exists y, f x = Ok y) l -> exists l', py_mapM f l = Ok l'.
Proof.
  induction 1 as [|a l [b Hb] _ [bs Hbs]]; simpl; [eauto|].
  rewrite Hb, Hbs. eauto.
Qed.

Lemma np_get_lookup {A : Type} (a : list A) j x :
  a !! j = Some x -> np_get a (Z.of_nat j) = Ok x.
Proof.
  intros Hj. pose proof (lookup_lt_Some _ _ _ Hj) as Hlt.
  unfold np_get, np_index. rewrite bool_decide_eq_true_2 by lia.
  by rewrite Nat2Z.id, Hj.
Qed.

Lemma np_get_in_range {A : Type} (a : list A) i :
  0 <= i < Z.of_nat (length a) -> exists x, np_get a i = Ok x.
Proof.
  intros Hi. destruct (lookup_lt_is_Some_2 a (Z.to_nat i)) as [x Hx]; [lia|].
  exists x. rewrite <- (Z2Nat.id i) by lia. by apply np_get_lookup.
Qed.

(** Whatever the mapping holds for a key is the position of that key. *)
Lemma index_mapping_fold_inv (ps : list (nat * Z)) (d : gmap Z Z) k v :
  foldl (fun (d : gmap Z Z) (p : nat * Z) => <[p.2 := Z.of_nat p.1]> d) d ps !! k
  = Some v ->
  d !! k = Some v \/ exists j, (j, k) ∈ ps /\ v = Z.of_nat j.
Proof.
  revert d. induction ps as [|[j0 k0] ps IH]; intros d; simpl; [by left|].
  intros H. apply IH in H as [H|(j & Hj & ->)].
  - simpl in H. rewrite lookup_insert in H. case_decide as Hk.
    + injection H as <-. subst. right. exists j0. split; [left|done].
    + by left.
  - right. exists j. split; [by right|done].
Qed.

Lemma index_mapping_lookup_inv l k v :
  index_mapping l !! k = Some v -> exists j, v = Z.of_nat j /\ l !! j = Some k.
Proof.
  unfold index_mapping. intros H.
  apply index_mapping_fold_inv in H as [H|(j & Hj & ->)].
  - by rewrite lookup_empty in H.
  - apply elem_of_lookup_imap in Hj as (i & x & [= -> ->] & Hi). eauto.
Qed.

(** A corner of a remapped face lies where the old corner lay. *)
Lemma remapped_corner {A : Type} (vs vs' : list A) idx i i' :
  np_take vs idx = Ok vs' ->
  index_mapping idx !! i = Some i' ->
  np_get vs' i' = np_get vs i.
Proof.
  intros Et Hd. apply index_mapping_lookup_inv in Hd as (j & -> & Hj).
  destruct (py_mapM_lookup _ _ _ _ _ Et Hj) as (x & Hx & Hget).
  rewrite Hget. by apply np_get_lookup.
Qed.

Lemma remapped_face_corners vs idx vs' f f' :
  np_take vs idx = Ok vs' ->
  remap_face (index_mapping idx) f = Ok f' ->
  same_corners vs vs' f f'.
Proof.
  intros Et. destruct f as [[a b] c]. unfold remap_face, dict_get. simpl.
  destruct (index_mapping idx !! a) as [a'|] eqn:Ea; simpl; [|discriminate].
  destruct (index_mapping idx !! b) as [b'|] eqn:Eb; simpl; [|discriminate].
  destruct (index_mapping idx !! c) as [c'|] eqn:Ec; simpl; [|discriminate].
  intros [= <-]. unfold same_corners. simpl.
  repeat constructor; by eapply remapped_corner.
Qed.

(** X1: the removal never moves a face: whether it rewrites the buffers
    or not, every corner of every face refers, through the new index into
    the new vertex buffer, to the entry the old index referred to in the
    old buffer, and the faces keep their number and order. *)
Theorem remove_unused_vertices_keeps_corner_positions g vs fs vs' fs' :
  vertices g = Some vs -> faces g = Some fs ->
  vertices (_remove_unused_vertices g).2 = Some vs' ->
  faces (_remove_unused_vertices g).2 = Some fs' ->
  Forall2 (same_corners vs vs') fs fs'.
Proof.
  intros Ev Ef. unfold _remove_unused_vertices. rewrite Ev, Ef.
  assert (Hsame : forall w ws, vertices w = Some vs' -> faces w = Some fs' ->
                    vertices w = Some vs -> faces w = Some ws -> ws = fs ->
                    Forall2 (same_corners vs vs') fs fs').
  { intros w ws H1 H2 H3 H4 ->. rewrite H1 in H3. rewrite H2 in H4.
    injection H3 as ->. injection H4 as ->.
    apply Forall_Forall2_diag, Forall_forall. intros f _.
    unfold same_corners. apply Forall_Forall2_diag, Forall_forall. done. }
  case_bool_decide; [intros; by eapply (Hsame g fs)|].
  case_bool_decide; [intros; by eapply (Hsame g fs)|].
  destruct (np_take vs _) as [new_vertices|] eqn:Et; [|intros; by eapply (Hsame g fs)].
  destruct (py_mapM _ fs) as [new_faces|] eqn:Em; [|intros; by eapply (Hsame g fs)].
  assert (Hnew : Forall2 (same_corners vs new_vertices) fs new_faces).
  { eapply py_mapM_Forall2; [|exact Em]. intros f f' _ Hf.
    by eapply remapped_face_corners. }
  simpl. destruct (visual g) as [v|]; simpl; [|by intros [= <-] [= <-]].
  destruct (uv v) as [[uvs|]|]; simpl; try by intros [= <-] [= <-].
  destruct (np_take uvs _); simpl; by intros [= <-] [= <-].
Qed.

(** The theorem applied to the mesh with a spare vertex: the face (0, 2,
    3) becomes (0, 1, 2) over the three remaining vertices. *)
Lemma remove_unused_vertices_keeps_corner_positions_witness :
  Forall2 (same_corners [v3 0 0 0; v3 9 9 9; v3 1 0 0; v3 0 1 0]
                        [v3 0 0 0; v3 1 0 0; v3 0 1 0])
          [(0, 2, 3)] [(0, 1, 2)].
Proof.
  apply (remove_unused_vertices_keeps_corner_positions spare_vertex_mesh).
  - reflexivity.
  - reflexivity.
  - vm_compute. reflexivity.
  - vm_compute. reflexivity.
Defined.

(** ** How many vertices the removal leaves *)

Lemma used_indices_list_length fs :
  length (merge_sort Z.le (elements (used_indices fs)))
  = length (remove_dups (flatten fs)).
Proof.
  rewrite merge_sort_Permutation.
  change (length (elements (used_indices fs))) with (base.size (used_indices fs)).
  rewrite <- (size_list_to_set (C := gset Z) (remove_dups (flatten fs)))
    by apply NoDup_remove_dups.
  f_equal. apply set_eq. intros i.
  rewrite elem_of_list_to_set, elem_of_remove_dups. unfold used_indices.
  case_bool_decide as Hlen; [by rewrite elem_of_list_to_set|].
  destruct fs; simpl in Hlen; [|lia]. simpl. by rewrite elem_of_empty, elem_of_nil.
Qed.

Lemma used_indices_list_elem_of fs k :
  k ∈ flatten fs -> k ∈ merge_sort Z.le (elements (used_indices fs)).
Proof.
  intros Hk. rewrite merge_sort_Permutation, elem_of_elements.
  by apply used_indices_elem.
Qed.

Lemma flatten_elem fs i :
  i ∈ flatten fs <-> exists f, f ∈ fs /\ i ∈ face_indices f.
Proof.
  unfold flatten. induction fs as [|f fs IH]; simpl.
  - split; [intros H; by apply elem_of_nil in H|].
    intros (f & Hf & _). by apply elem_of_nil in Hf.
  - rewrite elem_of_app, IH. split.
    + intros [Hi|(f' & Hf' & Hi)]; [exists f|exists f']; split; try done;
        [left|by right].
    + intros (f' & Hf' & Hi). apply elem_of_cons in Hf' as [->|Hf']; [by left|].
      right. eauto.
Qed.

(** With every index addressing a vertex both the slicing of the vertex
    buffer and the remapping of the faces go through. *)
Lemma remove_unused_vertices_rewrite_succeeds (vs : list Vec) fs :
  Forall (fun i => 0 <= i < Z.of_nat (length vs)) (flatten fs) ->
  exists new_vertices new_faces,
    np_take vs (merge_sort Z.le (elements (used_indices fs))) = Ok new_vertices
    /\ py_mapM (remap_face (index_mapping (merge_sort Z.le (elements (used_indices fs)))))
               fs = Ok new_faces.
Proof.
  intros Hrange. rewrite Forall_forall in Hrange.
  destruct (py_mapM_succeeds (np_get vs) (merge_sort Z.le (elements (used_indices fs))))
    as [new_vertices Hv].
  { apply Forall_forall. intros k Hk. apply np_get_in_range, Hrange.
    by apply used_indices_list_elem. }
  assert (Hkey : forall k, k ∈ flatten fs ->
            exists v, index_mapping (merge_sort Z.le (elements (used_indices fs))) !! k
                      = Some v).
  { intros k Hk. apply used_indices_list_elem_of in Hk.
    apply list_elem_of_lookup in Hk as [j Hj].
    exists (Z.of_nat j). apply index_mapping_lookup; [|done].
    apply used_indices_list_NoDup. }
  destruct (py_mapM_succeeds
              (remap_face (index_mapping (merge_sort Z.le (elements (used_indices fs))))) fs)
    as [new_faces Hf].
  { apply Forall_forall. intros [[a b] c] Hin.
    assert (Hsub : forall i, i ∈ [a; b; c] -> i ∈ flatten fs).
    { intros i Hi. apply flatten_elem. by exists (a, b, c). }
    destruct (Hkey a) as [a' Ha]; [apply Hsub; rewrite !elem_of_cons; auto|].
    destruct (Hkey b) as [b' Hb]; [apply Hsub; rewrite !elem_of_cons; auto|].
    destruct (Hkey c) as [c' Hc]; [apply Hsub; rewrite !elem_of_cons; auto|].
    exists (a', b', c'). unfold remap_face, dict_get. by rewrite Ha, Hb, Hc. }
  eauto.
Qed.

Lemma remapped_faces_address_vertices l fs new_faces :
  py_mapM (remap_face (index_mapping l)) fs = Ok new_faces ->
  Forall (fun i => 0 <= i < Z.of_nat (length l)) (flatten new_faces).
Proof.
  intros Em. apply remap_faces_values in Em.
  eapply Forall_impl; [exact Em|]. intros i [k Hk]. by apply index_mapping_bound in Hk.
Qed.

(** With no index unused, every vertex index occurs in the faces. *)
Lemma no_unused_index_referenced (vs : list Vec) fs i :
  base.size ((list_to_set (seqZ 0 (Z.of_nat (length vs))) : gset Z) ∖ used_indices fs)
  = 0%nat ->
  0 <= i < Z.of_nat (length vs) ->
  i ∈ flatten fs.
Proof.
  intros Hsize Hi. apply size_empty_iff in Hsize.
  rewrite elem_of_equiv_empty in Hsize.
  destruct (decide (i ∈ used_indices fs)) as [Hin|Hnin].
  - unfold used_indices in Hin. case_bool_decide.
    + by apply elem_of_list_to_set in Hin.
    + by apply elem_of_empty in Hin.
  - exfalso. apply (Hsize i). apply elem_of_difference. split; [|done].
    apply elem_of_list_to_set, elem_of_seqZ. lia.
Qed.

(** All vertices referenced and all indices addressing vertices: the
    referenced indices are exactly the vertex indices. *)
Lemma referenced_count (vs : list Vec) fs :
  Forall (fun i => 0 <= i < Z.of_nat (length vs)) (flatten fs) ->
  base.size ((list_to_set (seqZ 0 (Z.of_nat (length vs))) : gset Z) ∖ used_indices fs) = 0%nat ->
  length vs = length (remove_dups (flatten fs)).
Proof.
  intros Hrange Hsize. rewrite Forall_forall in Hrange.
  rewrite <- used_indices_list_length, merge_sort_Permutation.
  change (length (elements (used_indices fs))) with (base.size (used_indices fs)).
  assert (Heq : used_indices fs = list_to_set (seqZ 0 (Z.of_nat (length vs)))).
  { apply set_eq. intros i. rewrite elem_of_list_to_set, elem_of_seqZ. split.
    - intros Hi. assert (i ∈ flatten fs) as Hin.
      { unfold used_indices in Hi. case_bool_decide.
        - by apply elem_of_list_to_set in Hi.
        - by apply elem_of_empty in Hi. }
      apply Hrange in Hin. lia.
    - intros Hi. apply used_indices_elem.
      apply (no_unused_index_referenced vs); [done|lia]. }
  rewrite Heq, size_list_to_set by apply NoDup_seqZ.
  rewrite length_seqZ. lia.
Qed.

(** The buffers after the removal, on a geometry whose face indices all
    address a vertex. *)
Lemma remove_unused_vertices_result_buffers g fs :
  faces g = Some fs ->
  vertex_count g <> 0%nat ->
  indices_address_vertices g ->
  vertex_count (_remove_unused_vertices g).2 = length (remove_dups (flatten fs))
  /\ face_count (_remove_unused_vertices g).2 = length fs
  /\ all_vertices_referenced (_remove_unused_vertices g).2
  /\ indices_address_vertices (_remove_unused_vertices g).2.
Proof.
  intros Ef Hn Hrange. unfold _remove_unused_vertices.
  unfold vertex_count in Hn. unfold indices_address_vertices, face_index_list,
    vertex_count in Hrange. rewrite Ef in *.
  destruct (vertices g) as [vs|] eqn:Ev; [|done].
  rewrite bool_decide_eq_false_2 by done.
  case_bool_decide as Hsize.
  - simpl. unfold face_count, vertex_count, all_vertices_referenced,
      indices_address_vertices, face_index_list, vertex_count. rewrite Ev, Ef.
    split; [by apply referenced_count|]. split; [done|]. split; [|done].
    apply Forall_forall. intros i Hi. apply elem_of_seqZ in Hi.
    apply (no_unused_index_referenced vs); [done|lia].
  - destruct (remove_unused_vertices_rewrite_succeeds vs fs Hrange)
      as (new_vertices & new_faces & Et & Em).
    rewrite Et, Em.
    assert (Hres : forall w, vertices w = Some new_vertices -> faces w = Some new_faces ->
              all_vertices_referenced (set_faces (set_vertices g new_vertices) new_faces) ->
              vertex_count w = length (remove_dups (flatten fs))
              /\ face_count w = length fs
              /\ all_vertices_referenced w
              /\ indices_address_vertices w).
    { intros w Hv Hf Hall.
      unfold vertex_count, face_count, all_vertices_referenced,
        indices_address_vertices, face_index_list, vertex_count in *.
      simpl in Hall. rewrite Hv, Hf.
      pose proof (np_take_length _ _ _ Et) as Hlen.
      split; [by rewrite Hlen, used_indices_list_length|].
      split; [by apply py_mapM_length in Em|]. split; [done|].
      rewrite Hlen. by eapply remapped_faces_address_vertices. }
    pose proof (rewritten_buffers_all_referenced g vs fs _ _ Et Em) as Hall.
    simpl. destruct (visual g) as [v|]; simpl; [|by apply Hres].
    destruct (uv v) as [[uvs|]|]; simpl; try by apply Hres.
    destruct (np_take uvs _); simpl; by apply Hres.
Qed.

(** X2: on a geometry whose face indices all address a vertex, the
    removal leaves exactly as many vertices as there are distinct indices
    in the faces, keeps the number of faces, and leaves every vertex
    referenced and every index addressing a vertex. *)
Theorem remove_unused_vertices_leaves_referenced_vertices g fs :
  faces g = Some fs ->
  vertex_count g <> 0%nat ->
  indices_address_vertices g ->
  vertex_count (_remove_unused_vertices g).2 = length (remove_dups (flatten fs))
  /\ face_count (_remove_unused_vertices g).2 = length fs
  /\ all_vertices_referenced (_remove_unused_vertices g).2
  /\ indices_address_vertices (_remove_unused_vertices g).2.
Proof. apply remove_unused_vertices_result_buffers. Qed.

(** The theorem applied to the mesh with a spare vertex: three distinct
    indices, three vertices left. *)
Lemma remove_unused_vertices_leaves_referenced_vertices_witness :
  vertex_count (_remove_unused_vertices spare_vertex_mesh).2 = 3%nat.
Proof.
  apply (remove_unused_vertices_leaves_referenced_vertices spare_vertex_mesh [(0, 2, 3)]).
  - reflexivity.
  - vm_compute. discriminate.
  - by_evaluation.
Defined.

(** X3: on an object without a [visual] attribute the removal reports
    failure although it has rewritten the buffers: with every index
    addressing a vertex and some vertex unreferenced, it returns False and
    the vertex buffer is shorter than before. *)
Theorem remove_unused_vertices_reports_failure_without_visual g fs :
  faces g = Some fs ->
  visual g = None ->
  indices_address_vertices g ->
  ~ all_vertices_referenced g ->
  (_remove_unused_vertices g).1 = false
  /\ (vertex_count (_remove_unused_vertices g).2 < vertex_count g)%nat.
Proof.
  intros Ef Hvis Hrange Hnref.
  assert (Hn : vertex_count g <> 0%nat).
  { intros H0. apply Hnref. unfold all_vertices_referenced. rewrite H0. constructor. }
  destruct (remove_unused_vertices_result_buffers g fs Ef Hn Hrange)
    as (Hcount & _ & _ & _).
  split.
  - unfold _remove_unused_vertices.
    unfold vertex_count in Hn. unfold indices_address_vertices, face_index_list,
      vertex_count in Hrange. rewrite Ef in *.
    destruct (vertices g) as [vs|] eqn:Ev; [|done].
    rewrite bool_decide_eq_false_2 by done.
    case_bool_decide as Hsize.
    + exfalso. apply Hnref.
      unfold all_vertices_referenced, face_index_list, vertex_count. rewrite Ev, Ef.
      apply Forall_forall. intros i Hi. apply elem_of_seqZ in Hi.
      apply (no_unused_index_referenced vs); [done|lia].
    + destruct (remove_unused_vertices_rewrite_succeeds vs fs Hrange)
        as (new_vertices & new_faces & Et & Em).
      rewrite Et, Em. simpl. by rewrite Hvis.
  - rewrite Hcount.
    unfold indices_address_vertices, face_index_list in Hrange. rewrite Ef in Hrange.
    rewrite Forall_forall in Hrange.
    assert (Hsub : remove_dups (flatten fs) ⊆+ seqZ 0 (Z.of_nat (vertex_count g))).
    { apply NoDup_submseteq; [apply NoDup_remove_dups|].
      intros i Hi. rewrite elem_of_remove_dups in Hi. apply elem_of_seqZ.
      specialize (Hrange i Hi). lia. }
    apply submseteq_length in Hsub as Hle. rewrite length_seqZ, Nat2Z.id in Hle.
    destruct (decide (length (remove_dups (flatten fs)) = vertex_count g)) as [Heq|]; [|lia].
    exfalso. apply Hnref. unfold all_vertices_referenced, face_index_list. rewrite Ef.
    apply Forall_forall. intros i Hi.
    apply elem_of_remove_dups.
    assert (Hperm : remove_dups (flatten fs) ≡ₚ seqZ 0 (Z.of_nat (vertex_count g))).
    { apply submseteq_length_Permutation; [done|]. rewrite length_seqZ. lia. }
    by rewrite Hperm.
Qed.

(** The theorem applied to a triangle over four vertices on an object
    without a [visual] attribute. *)
Lemma remove_unused_vertices_reports_failure_without_visual_witness :
  (_remove_unused_vertices plain_spare_vertex_mesh).1 = false
  /\ (vertex_count (_remove_unused_vertices plain_spare_vertex_mesh).2
      < vertex_count plain_spare_vertex_mesh)%nat.
Proof.
  apply (remove_unused_vertices_reports_failure_without_visual
           plain_spare_vertex_mesh [(0, 2, 3)]).
  - reflexivity.
  - reflexivity.
  - by_evaluation.
  - by_evaluation.
Defined.

(** X4: when the removal returns True no unused vertex is left, and a
    further call changes nothing. *)
Theorem remove_unused_vertices_true_leaves_no_unused_vertex g g' :
  _remove_unused_vertices g = (true, g') ->
  all_vertices_referenced g'
  /\ (_remove_unused_vertices g').2 = g'.
Proof.
  intros Hrun.
  assert (Hall : all_vertices_referenced g').
  { revert Hrun. unfold _remove_unused_vertices.
    destruct (vertices g) as [vs|] eqn:Ev; [|discriminate].
    destruct (faces g) as [fs|] eqn:Ef; [|discriminate].
    case_bool_decide; [discriminate|].
    case_bool_decide as Hsize.
    - intros [= <-].
      unfold all_vertices_referenced, face_index_list, vertex_count. rewrite Ev, Ef.
      apply Forall_forall. intros i Hi. apply elem_of_seqZ in Hi.
      apply (no_unused_index_referenced vs); [done|lia].
    - destruct (np_take vs _) as [new_vertices|] eqn:Et; [|discriminate].
      destruct (py_mapM _ fs) as [new_faces|] eqn:Em; [|discriminate].
      pose proof (rewritten_buffers_all_referenced g vs fs _ _ Et Em) as Hall.
      simpl. destruct (visual g) as [v|]; [|discriminate].
      destruct (uv v) as [[uvs|]|]; try by intros [= <-].
      destruct (np_take uvs _); [by intros [= <-]|discriminate]. }
  split; [done|]. by apply remove_unused_vertices_idle.
Qed.

(** The theorem applied to the mesh with a spare vertex. *)
Lemma remove_unused_vertices_true_leaves_no_unused_vertex_witness :
  all_vertices_referenced (_remove_unused_vertices spare_vertex_mesh).2.
Proof.
  apply (remove_unused_vertices_true_leaves_no_unused_vertex spare_vertex_mesh).
  vm_compute. reflexivity.
Defined.

Lemma np_get_same_length {A B : Type} (a : list A) (b : list B) i x :
  length a = length b -> np_get a i = Ok x -> exists y, np_get b i = Ok y.
Proof.
  intros Hlen. unfold np_get. rewrite <- Hlen.
  destruct (np_index (length a) i) as [k|]; [|discriminate].
  destruct (a !! k) as [x'|] eqn:Hk; [|discriminate]. intros _.
  destruct (lookup_lt_is_Some_2 b k) as [y Hy].
  - rewrite <- Hlen. by eapply lookup_lt_Some.
  - exists y. by rewrite Hy.
Qed.

Lemma np_take_same_length {A B : Type} (a : list A) (b : list B) idx l :
  length a = length b -> np_take a idx = Ok l -> exists l', np_take b idx = Ok l'.
Proof.
  intros Hlen. unfold np_take. revert l.
  induction idx as [|i idx IH]; intros l; simpl; [eauto|].
  destruct (np_get a i) as [x|] eqn:Hx; [|discriminate].
  destruct (py_mapM (np_get a) idx) as [xs|]; [|discriminate]. intros _.
  destruct (np_get_same_length a b i x Hlen Hx) as [y ->].
  destruct (IH xs eq_refl) as [ys ->]. simpl. eauto.
Qed.

(** X5: a UV array that is as long as the vertex buffer is so again after
    the removal, whatever the removal returns: it is re-sliced with the
    same index list as the vertices, and with equal lengths the one slice
    cannot fail where the other has succeeded. *)
Theorem remove_unused_vertices_keeps_uv_in_lockstep g :
  uv_in_lockstep g -> uv_in_lockstep (_remove_unused_vertices g).2.
Proof.
  intros Hg. unfold _remove_unused_vertices.
  destruct (vertices g) as [vs|] eqn:Ev; [|done].
  destruct (faces g) as [fs|] eqn:Ef; [|done].
  case_bool_decide; [done|].
  case_bool_decide; [done|].
  destruct (np_take vs _) as [new_vertices|] eqn:Et; [|done].
  destruct (py_mapM _ fs) as [new_faces|] eqn:Em; [|done].
  simpl. destruct (visual g) as [v|] eqn:Evis; [|by unfold uv_in_lockstep; simpl; rewrite Evis].
  unfold uv_in_lockstep, vertex_count in Hg. rewrite Evis, Ev in Hg.
  destruct (uv v) as [[uvs|]|] eqn:Euv.
  - destruct (np_take_same_length vs uvs _ _ (eq_sym Hg) Et) as [new_uv Eu].
    rewrite Eu. unfold uv_in_lockstep, vertex_count. simpl.
    apply np_take_length in Et, Eu. congruence.
  - unfold uv_in_lockstep. simpl. by rewrite Evis, Euv.
  - unfold uv_in_lockstep. simpl. by rewrite Evis, Euv.
Qed.

(** The theorem applied to the mesh with a spare vertex and four UV
    pairs. *)
Lemma remove_unused_vertices_keeps_uv_in_lockstep_witness :
  uv_in_lockstep (_remove_unused_vertices spare_vertex_mesh).2.
Proof.
  apply (remove_unused_vertices_keeps_uv_in_lockstep spare_vertex_mesh).
  vm_compute. reflexivity.
Defined.

(** ** What simplify_geometry_safely reports *)

(** X6: the report of [simplify_geometry_safely] is accurate.  When it
    reports success the first count is the number of faces before, the
    second the number of faces the geometry has now, which is positive,
    and the geometry had at least the minimum number of faces; when it
    reports failure the geometry is as it was. *)
Theorem simplify_geometry_safely_report_is_accurate lib config g target_faces_ratio :
  let r := simplify_geometry_safely lib config g target_faces_ratio in
  if r.1.1.1
  then r.1.1.2 = Z.of_nat (face_count g)
       /\ r.1.2 = Z.of_nat (face_count r.2)
       /\ 0 < r.1.2
       /\ min_face_count config <= Z.of_nat (face_count g)
  else r.2 = g.
Proof.
  unfold simplify_geometry_safely, face_count.
  destruct (faces g) as [fs|] eqn:Ef; simpl; [|done].
  case_bool_decide as Hmin; simpl; [done|].
  destruct (int_times _ _) as [target_face_count|]; simpl; [|done].
  unfold accept_simplified.
  destruct (simplify_quadric_decimation lib g _) as [[s|]|]; simpl; try done.
  destruct (faces s) as [sfaces|]; simpl; [|done].
  case_bool_decide as Hpos; simpl; [|done].
  destruct (vertices s) as [svertices|]; simpl; [|done].
  assert (Hf : faces match visual s with
                     | Some v => set_visual (set_faces (set_vertices g svertices) sfaces) v
                     | None => set_faces (set_vertices g svertices) sfaces
                     end = Some sfaces) by by destruct (visual s).
  rewrite Hf. lia.
Qed.



(** X8: in the single-mesh branch of [optimize_safe] the clamp to the
    minimum face ratio has no effect as long as the minimum face ratio
    does not exceed the safe face ratio (0.5 and 0.8 by default): the
    result is that of [simplify_geometry_safely] on the target ratio as
    given. *)
Theorem optimize_safe_single_mesh_clamp_is_idle lib config scene target_faces_ratio :
  (min_face_ratio config <= safe_face_ratio config)%Q ->
  optimize_safe_single_mesh lib config scene target_faces_ratio
  = simplify_geometry_safely lib config scene target_faces_ratio.
Proof.
  intros Hle. unfold optimize_safe_single_mesh, simplify_geometry_safely.
  assert (H : py_max (safe_face_ratio config)
                (py_max (min_face_ratio config) target_faces_ratio)
              = py_max (safe_face_ratio config) target_faces_ratio).
  { unfold py_max.
    destruct (Qcompare_spec (min_face_ratio config) target_faces_ratio);
      destruct (Qcompare_spec (safe_face_ratio config) (min_face_ratio config));
      destruct (Qcompare_spec (safe_face_ratio config) target_faces_ratio);
      try done; exfalso; lra. }
  by rewrite H.
Qed.

(** The theorem applied to the default configuration. *)
Lemma optimize_safe_single_mesh_clamp_is_idle_witness :
  optimize_safe_single_mesh reference_trimesh small_mesh_config fan_mesh (1 # 10)
  = simplify_geometry_safely reference_trimesh small_mesh_config fan_mesh (1 # 10).
Proof.
  apply (optimize_safe_single_mesh_clamp_is_idle reference_trimesh small_mesh_config
           fan_mesh (1 # 10)).
  vm_compute. discriminate.
Defined.

(** ** validate_and_repair_mesh: what holds afterwards *)

Lemma np_max_bounds_all l m i : np_max l = Ok m -> i ∈ l -> i <= m.
Proof.
  destruct l as [|x l]; simpl; [discriminate|]. intros [= <-] Hi.
  apply elem_of_cons in Hi as [->|Hi].
  - apply foldl_max_ge.
  - by apply foldl_max_elem.
Qed.

Lemma filter_face_valid_in_range n fs :
  Forall (fun i => i < Z.of_nat n) (flatten (List.filter (face_valid (Z.of_nat n - 1)) fs)).
Proof.
  apply flatten_Forall, Forall_forall. intros f Hf.
  apply list_elem_of_In, List.filter_In in Hf as [_ Hf].
  apply face_valid_in_bounds in Hf. eapply Forall_impl; [exact Hf|].
  simpl. lia.
Qed.

(** X9: for an object without an [is_valid] attribute,
    [validate_and_repair_mesh] returns False with the geometry as it was,
    or True with both buffers non-empty and every face index below the
    number of vertices.  In the latter case, if every index was below the
    number of vertices beforehand the geometry is as it was (a face with a
    negative index stays); otherwise the face buffer alone is replaced,
    by the faces, in their order, whose indices all lie between 0 and the
    last vertex index. *)
Theorem validate_and_repair_mesh_result lib g b g' :
  is_valid lib = None ->
  validate_and_repair_mesh lib g = (b, g') ->
  vertices g' = vertices g
  /\ if b
     then vertex_count g' <> 0%nat /\ face_count g' <> 0%nat
          /\ indices_in_range g'
          /\ face_list g' `sublist_of` face_list g
          /\ (if decide (indices_in_range g) then g' = g
              else g' = set_faces g (filter (face_in_bounds (vertex_count g))
                                            (face_list g)))
     else g' = g.
Proof.
  intros Hnone. unfold validate_and_repair_mesh, integrity_check. rewrite Hnone.
  destruct (vertices g) as [vs|] eqn:Ev; [|by intros [= <- <-]].
  destruct (faces g) as [fs|] eqn:Ef; [|by intros [= <- <-]].
  case_bool_decide as Hempty; [by intros [= <- <-]|].
  assert (Hvs : length vs <> 0%nat) by tauto.
  assert (Hfs : length fs <> 0%nat) by tauto.
  destruct (np_max (flatten fs)) as [face_max|] eqn:Emax; [|by intros [= <- <-]].
  case_bool_decide as Hmax.
  - case_bool_decide as Hkept; [|by intros [= <- <-]].
    intros [= <- <-]. split; [done|].
    split_and!.
    + unfold vertex_count. simpl. by rewrite Ev.
    + unfold face_count. simpl. lia.
    + unfold indices_in_range, face_index_list, vertex_count. simpl. rewrite Ev.
      apply filter_face_valid_in_range.
    + unfold face_list. simpl. rewrite Ef, filter_face_valid. apply sublist_filter.
    + destruct (decide (indices_in_range g)) as [Hall|_].
      * exfalso. unfold indices_in_range, face_index_list, vertex_count in Hall.
        rewrite Ev, Ef in Hall.
        apply (np_max_exceeds _ _ (Z.of_nat (length vs) - 1)) in Emax.
        apply Emax in Hmax. apply Exists_exists in Hmax as (i & Hi & Hgt).
        rewrite Forall_forall in Hall. specialize (Hall i Hi). lia.
      * unfold vertex_count, face_list. by rewrite Ev, Ef, filter_face_valid.
  - intros [= <- <-]. split; [done|].
    assert (Hall : indices_in_range g).
    { unfold indices_in_range, face_index_list, vertex_count. rewrite Ev, Ef.
      apply Forall_forall. intros i Hi.
      pose proof (np_max_bounds_all _ _ _ Emax Hi). lia. }
    split_and!.
    + unfold vertex_count. by rewrite Ev.
    + unfold face_count. by rewrite Ef.
    + done.
    + done.
    + by rewrite decide_True.
Qed.

(** The theorem applied to the mesh with one valid face, one face naming
    vertex 7 and one face with a negative index: the valid face alone is
    left. *)
Lemma validate_and_repair_mesh_result_witness :
  (validate_and_repair_mesh bare_object mixed_mesh).2
  = set_faces mixed_mesh
      (filter (face_in_bounds (vertex_count mixed_mesh)) (face_list mixed_mesh)).
Proof.
  destruct (validate_and_repair_mesh_result bare_object mixed_mesh true
              (validate_and_repair_mesh bare_object mixed_mesh).2)
    as (_ & _ & _ & _ & _ & H).
  - reflexivity.
  - vm_compute. reflexivity.
  - rewrite decide_False in H by by_evaluation. exact H.
Defined.

(** ** The content validation of the command line *)

(** [_validate_geometry] always returns, and it returns no error exactly
    on an acceptable geometry. *)
Lemma validate_geometry_acceptable g name :
  exists errors,
    _validate_geometry g name = Ok errors
    /\ (errors = [] <-> acceptable_geometry g).
Proof.
  unfold _validate_geometry, acceptable_geometry, indices_in_range, face_index_list,
    vertex_count, face_count.
  destruct (vertices g) as [vs|] eqn:Ev.
  2:{ eexists. split; [done|]. split; [done|]. intros ([? [=]] & _). }
  destruct (faces g) as [fs|] eqn:Ef.
  2:{ eexists. split; [done|]. split; [done|]. intros (_ & [? [=]] & _). }
  case_bool_decide as Hpos.
  - destruct (np_max (flatten fs)) as [m|] eqn:Emax.
    2:{ destruct fs as [|[[a b] c] fs]; [simpl in Hpos; lia|discriminate]. }
    simpl. eexists. split; [done|].
    rewrite (bool_decide_eq_false_2 (length fs < 1)%nat) by lia.
    assert (Hbeyond : m >= Z.of_nat (length vs) ->
              ~ Forall (fun i => i < Z.of_nat (length vs)) (flatten fs)).
    { intros Hge Hall.
      apply (np_max_exceeds _ _ (Z.of_nat (length vs) - 1)) in Emax.
      assert (Hex : Exists (fun i => i > Z.of_nat (length vs) - 1) (flatten fs))
        by (apply Emax; lia).
      apply Exists_exists in Hex as (i & Hi & Hgt).
      rewrite Forall_forall in Hall. specialize (Hall i Hi). lia. }
    case_bool_decide as Hge; case_bool_decide as Hfew; simpl.
    + split; [discriminate|]. intros (_ & _ & ? & _). exfalso. lia.
    + split; [discriminate|]. intros (_ & _ & _ & _ & Hall). exfalso.
      by apply Hbeyond.
    + split; [discriminate|]. intros (_ & _ & ? & _). exfalso. lia.
    + split; [|done]. intros _.
      split; [by eexists|]. split; [by eexists|]. split; [lia|]. split; [lia|].
      apply Forall_forall. intros i Hi.
      pose proof (np_max_bounds_all _ _ _ Emax Hi). lia.
  - eexists. split; [done|].
    rewrite (bool_decide_eq_true_2 (length fs < 1)%nat) by lia.
    split.
    + intros H. exfalso. by destruct (bool_decide (length vs < 3)%nat).
    + intros (_ & _ & _ & ? & _). exfalso. lia.
Qed.

Lemma validate_geometries_acceptable entries errors :
  exists final,
    validate_geometries entries errors = (Ok tt, final)
    /\ (final = [] <-> errors = [] /\ Forall acceptable_geometry (map snd entries)).
Proof.
  revert errors. induction entries as [|[name g] rest IH]; intros errors; simpl.
  - eexists. split; [done|]. split; [by intros ->|by intros [-> _]].
  - destruct (validate_geometry_acceptable g name) as (geo & -> & Hgeo).
    destruct (IH (errors ++ map GeometryProblem geo)) as (final & -> & Hfinal).
    eexists. split; [done|]. rewrite Hfinal, Forall_cons, <- Hgeo.
    split.
    + intros [Happ Hall]. apply app_eq_nil in Happ as [-> Hmap].
      apply fmap_nil_inv in Hmap. done.
    + by intros [-> [-> Hall]].
Qed.

(** X10: the content validation passes exactly when the load returned an
    object that holds a geometry and every geometry has both buffers, at
    least three vertices, at least one face and no face index at or
    beyond the number of vertices (negative indices are not looked at); a
    single object without a [vertices] attribute passes on its faces
    alone. *)
Theorem validate_glb_content_accepts_acceptable_geometry load :
  (validate_glb_content load).1 = true
  <-> exists l, load = Ok l /\ content_acceptable l.
Proof.
  unfold validate_glb_content.
  destruct load as [[|scene|mesh]|e]; simpl.
  - split; [discriminate|]. by intros (l & [= <-] & []).
  - destruct (geometry scene) as [[|e0 entries]|] eqn:Eg.
    + simpl. split; [discriminate|].
      intros (l & [= <-] & Hacc). simpl in Hacc. by rewrite Eg in Hacc.
    + destruct (validate_geometries_acceptable (e0 :: entries) [])
        as (final & Hrun & Hfinal).
      rewrite bool_decide_eq_false_2 by (simpl; lia).
      rewrite Hrun. simpl. rewrite bool_decide_eq_true, length_zero_iff_nil, Hfinal.
      split.
      * intros [_ Hall]. exists (LoadedScene scene). split; [done|]. simpl.
        by rewrite Eg.
      * intros (l & [= <-] & Hacc). simpl in Hacc. rewrite Eg in Hacc. by split.
    + simpl. split; [discriminate|].
      intros (l & [= <-] & Hacc). simpl in Hacc. by rewrite Eg in Hacc.
  - destruct (faces mesh) as [fs|] eqn:Ef; simpl.
    + destruct (vertices mesh) as [vs|] eqn:Ev; simpl.
      * destruct (validate_geometry_acceptable mesh "main") as (geo & -> & Hgeo).
        simpl. rewrite bool_decide_eq_true, length_zero_iff_nil. split.
        -- intros Hmap. apply fmap_nil_inv in Hmap. exists (LoadedMesh mesh).
           split; [done|]. simpl. rewrite Ef. split; [by eexists|].
           intros _. by apply Hgeo.
        -- intros (l & [= <-] & [_ Hacc]). rewrite Ev in Hacc.
           assert (geo = []) as -> by (apply Hgeo, Hacc; by eexists). done.
      * split; [|done]. intros _. exists (LoadedMesh mesh). split; [done|].
        simpl. rewrite Ef, Ev. split; [by eexists|]. by intros [? [=]].
    + rewrite andb_false_r. simpl. split; [discriminate|].
      intros (l & [= <-] & [[? Hf] _]). rewrite Ef in Hf. discriminate.
  - split; [discriminate|]. by intros (l & [=] & _).
Qed.

(** X11: a geometry the content validation finds no fault with is
    accepted by [validate_and_repair_mesh] and left exactly as it is (on
    an object without an [is_valid] attribute). *)
Theorem validated_geometry_needs_no_repair lib g name :
  is_valid lib = None ->
  _validate_geometry g name = Ok [] ->
  validate_and_repair_mesh lib g = (true, g).
Proof.
  intros Hnone Hval.
  destruct (validate_geometry_acceptable g name) as (errors & Hrun & Hacc).
  rewrite Hval in Hrun. injection Hrun as <-.
  destruct Hacc as [Hacc _].
  destruct (Hacc eq_refl) as ([vs Ev] & [fs Ef] & Hv & Hf & Hrange).
  unfold validate_and_repair_mesh, integrity_check.
  unfold vertex_count in Hv. unfold face_count in Hf.
  unfold indices_in_range, face_index_list, vertex_count in Hrange.
  rewrite Ev, Ef in *. rewrite Hnone.
  rewrite bool_decide_eq_false_2 by lia.
  destruct (np_max (flatten fs)) as [face_max|] eqn:Emax.
  2:{ destruct fs as [|[[a b] c] fs]; [simpl in Hf; lia|discriminate]. }
  rewrite bool_decide_eq_false_2; [done|].
  intros Hgt. apply (np_max_exceeds _ _ (Z.of_nat (length vs) - 1)) in Emax.
  apply Emax in Hgt. apply Exists_exists in Hgt as (i & Hi & Hgt).
  rewrite Forall_forall in Hrange. specialize (Hrange i Hi). lia.
Qed.

(** The theorem applied to the triangle that runs through a negative
    index: validation and repair both let it pass. *)
Lemma validated_geometry_needs_no_repair_witness :
  validate_and_repair_mesh bare_object negative_index_mesh = (true, negative_index_mesh).
Proof.
  apply (validated_geometry_needs_no_repair bare_object negative_index_mesh "second").
  - reflexivity.
  - vm_compute. reflexivity.
Defined.

(** ** Scenes *)

Lemma flatten_scene_geometry scene :
  geometry (flatten_scene scene)
  = Some (imap (fun i g => (simple_name i, g))
            (filter (fun g => is_Some (vertices g) /\ is_Some (faces g))
                    (map snd (scene_entries scene)))).
Proof.
  unfold flatten_scene, scene_entries.
  destruct (geometry scene) as [[|e entries]|]; [done| |done].
  unfold Scene_new. by rewrite flatten_loop.
Qed.

Lemma flatten_scene_entries scene :
  scene_entries (flatten_scene scene)
  = imap (fun i g => (simple_name i, g))
      (filter (fun g => is_Some (vertices g) /\ is_Some (faces g))
              (map snd (scene_entries scene))).
Proof. unfold scene_entries at 1. by rewrite flatten_scene_geometry. Qed.

Lemma imap_named_fst {A} (name : nat -> string) (l : list A) k :
  map fst (imap (fun i g => (name (k + i)%nat, g)) l)
  = map name (seq k (length l)).
Proof.
  revert k. induction l as [|x l IH]; intros k; [done|].
  simpl. rewrite Nat.add_0_r. f_equal.
  rewrite <- (IH (S k)). f_equal. apply imap_ext. intros i y _. simpl.
  do 2 f_equal. lia.
Qed.

Lemma imap_named_snd {A} (name : nat -> string) (l : list A) k :
  map snd (imap (fun i g => (name (k + i)%nat, g)) l) = l.
Proof.
  revert k. induction l as [|x l IH]; intros k; [done|].
  simpl. f_equal. rewrite <- (IH (S k)) at 2. f_equal.
  apply imap_ext. intros i y _. simpl. do 2 f_equal. lia.
Qed.

Lemma imap_indexed_fst {A} (name : nat -> string) (l : list A) :
  map fst (imap (fun i g => (name i, g)) l) = map name (seq 0 (length l)).
Proof. exact (imap_named_fst name l 0). Qed.

Lemma imap_indexed_snd {A} (name : nat -> string) (l : list A) :
  map snd (imap (fun i g => (name i, g)) l) = l.
Proof. exact (imap_named_snd name l 0). Qed.

Lemma filter_filter_same {A} (P : A -> Prop) `{!forall x, Decision (P x)}
    (l : list A) :
  filter P (filter P l) = filter P l.
Proof.
  induction l as [|x l IH]; [done|].
  rewrite filter_cons. destruct (decide (P x)) as [Hx|Hx]; [|done].
  rewrite filter_cons, decide_True by done. by rewrite IH.
Qed.

(** X12: the names [flatten_scene] gives out are pairwise distinct,
    whatever the names of the source scene were, and the flat scene has at
    most as many geometries as the source. *)
Theorem flatten_scene_names_are_distinct scene :
  NoDup (map fst (scene_entries (flatten_scene scene)))
  /\ (length (scene_entries (flatten_scene scene)) <= length (scene_entries scene))%nat.
Proof.
  rewrite flatten_scene_entries.
  set (kept := filter _ _). split.
  - rewrite (imap_indexed_fst simple_name kept).
    apply NoDup_fmap_2.
    + intros i j. apply simple_name_inj.
    + apply NoDup_seq.
  - rewrite length_imap. subst kept.
    etrans; [apply length_filter|]. by rewrite length_map.
Qed.

(** X13: flattening a flat scene changes nothing: [flatten_scene] is
    idempotent. *)
Theorem flatten_scene_idempotent scene :
  flatten_scene (flatten_scene scene) = flatten_scene scene.
Proof.
  pose proof (flatten_scene_geometry scene) as Hflat.
  pose proof (flatten_scene_geometry (flatten_scene scene)) as Hagain.
  rewrite flatten_scene_entries in Hagain.
  rewrite (imap_indexed_snd simple_name), filter_filter_same in Hagain.
  rewrite <- Hflat in Hagain.
  destruct (flatten_scene (flatten_scene scene)) as [again].
  destruct (flatten_scene scene) as [flat]. simpl in Hagain. by subst.
Qed.

Lemma filter_has_both_length (entries : list (string * Mesh)) :
  length (filter (fun e => has_vertices_and_faces e.2 = true) entries)
  = length (filter (fun g => is_Some (vertices g) /\ is_Some (faces g))
                   (map snd entries)).
Proof.
  induction entries as [|[name g] rest IH]; [done|].
  simpl. rewrite !filter_cons. simpl.
  destruct (has_vertices_and_faces g) eqn:Hg.
  - rewrite decide_True by done.
    rewrite decide_True by (by apply has_vertices_and_faces_spec).
    simpl. by rewrite IH.
  - rewrite decide_False by done.
    rewrite decide_False; [done|].
    intros H. apply has_vertices_and_faces_spec in H. congruence.
Qed.

Lemma minimal_loop_result Trimesh_new entries :
  forall acc,
    if existsb (constructor_raises Trimesh_new) entries
    then exists err, minimal_loop Trimesh_new entries (mkScene (Some acc)) = Raise err
    else exists added,
           minimal_loop Trimesh_new entries (mkScene (Some acc))
           = Ok (mkScene (Some (acc ++ added)))
           /\ Forall2 (rebuilt_from Trimesh_new)
                      (filter (fun e => has_vertices_and_faces e.2 = true) entries)
                      added.
Proof.
  induction entries as [|[name g] rest IH]; intros acc.
  - simpl. exists []. by rewrite app_nil_r.
  - cbn [existsb minimal_loop minimal_step].
    rewrite filter_cons. unfold constructor_raises at 1. cbn [snd].
    destruct (vertices g) as [vs|] eqn:Ev.
    2:{ rewrite decide_False.
        2:{ intros [[? H] _]%has_vertices_and_faces_spec. simpl in H. congruence. }
        simpl. apply IH. }
    destruct (faces g) as [fs|] eqn:Ef.
    2:{ rewrite decide_False.
        2:{ intros [_ [? H]]%has_vertices_and_faces_spec. simpl in H. congruence. }
        simpl. apply IH. }
    rewrite decide_True
      by (apply has_vertices_and_faces_spec; simpl; rewrite Ev, Ef; by split; eexists).
    destruct (Trimesh_new vs fs) as [m|err] eqn:Em; simpl; [|by exists err].
    unfold add_geometry. simpl.
    specialize (IH (acc ++ [(name, match visual g with
                                   | Some v => set_visual m v
                                   | None => m
                                   end)])).
    destruct (existsb (constructor_raises Trimesh_new) rest); [exact IH|].
    destruct IH as (added & Hrun & Hall).
    eexists (_ :: added). rewrite Hrun, <- app_assoc. split; [done|].
    constructor; [|done].
    split; [done|]. exists vs, fs, m. by split_and!.
Qed.

(** X14: when the mesh constructor raises on one of the geometries that
    have both buffers, [create_minimal_glb] returns the source scene
    itself.  Otherwise it returns a scene that holds, under their own names
    and in order, exactly these geometries, each one built by the
    constructor from the source's vertex and face buffers and carrying the
    visual of the source; there are as many of them as [flatten_scene]
    keeps. *)
Theorem create_minimal_glb_rebuilds_full_geometries Trimesh_new scene :
  if existsb (constructor_raises Trimesh_new) (scene_entries scene)
  then create_minimal_glb Trimesh_new scene = scene
  else Forall2 (rebuilt_from Trimesh_new)
         (filter (fun e => has_vertices_and_faces e.2 = true) (scene_entries scene))
         (scene_entries (create_minimal_glb Trimesh_new scene))
       /\ length (scene_entries (create_minimal_glb Trimesh_new scene))
          = length (scene_entries (flatten_scene scene)).
Proof.
  rewrite flatten_scene_entries, length_imap.
  unfold create_minimal_glb, scene_entries.
  destruct (geometry scene) as [entries|] eqn:Eg.
  - pose proof (minimal_loop_result Trimesh_new entries []) as Hrun.
    unfold Scene_new.
    destruct (existsb (constructor_raises Trimesh_new) entries).
    + destruct Hrun as [err ->]. done.
    + destruct Hrun as (added & -> & Hall). simpl.
      split; [done|]. apply Forall2_length in Hall. rewrite <- Hall.
      apply filter_has_both_length.
  - simpl. split; [constructor|done].
Qed.

(** ** Scene-wide cleanup *)

Lemma clean_geometry_in_range lib g :
  library_preserves indices_in_range lib ->
  indices_in_range g -> indices_in_range (clean_geometry lib g).2.
Proof.
  intros Hlib Hg. unfold clean_geometry.
  destruct (library_passes lib _) as [b g'] eqn:Hrun.
  eapply library_passes_preserves; [exact Hlib| |exact Hrun].
  by apply remove_unused_vertices_in_range.
Qed.

Lemma deep_clean_loop lib entries cleaned_count total_count done :
  library_preserves indices_in_range lib ->
  Forall indices_in_range (map snd done) ->
  Forall indices_in_range (map snd entries) ->
  let r := foldl (deep_clean_entry lib) (cleaned_count, total_count, done) entries in
  map fst r.2 = map fst done ++ map fst entries
  /\ Forall indices_in_range (map snd r.2)
  /\ r.1.2 = (total_count + length entries)%nat
  /\ (cleaned_count <= r.1.1 <= cleaned_count + length entries)%nat.
Proof.
  intros Hlib. revert cleaned_count total_count done.
  induction entries as [|[name g] rest IH]; intros c t done Hdone Hrest; simpl.
  - rewrite app_nil_r. split_and!; [done|done|lia|lia|lia].
  - apply Forall_cons in Hrest as [Hg Hrest].
    destruct (has_vertices_and_faces g).
    + pose proof (clean_geometry_in_range lib g Hlib Hg) as Hclean.
      destruct (clean_geometry lib g) as [ok g'] eqn:Ec. simpl in Hclean.
      edestruct (IH (if ok then S c else c) (S t) (done ++ [(name, g')]))
        as (Hn & Hr & Ht & Hc); [|done|].
      { rewrite map_app. apply Forall_app. split; [done|]. by repeat constructor. }
      simpl in *. rewrite Hn, Ht, map_app, <- app_assoc. simpl.
      split_and!; [done|done|lia| |]; destruct ok; lia.
    + edestruct (IH c (S t) (done ++ [(name, g)])) as (Hn & Hr & Ht & Hc);
        [|done|].
      { rewrite map_app. apply Forall_app. split; [done|]. by repeat constructor. }
      simpl in *. rewrite Hn, Ht, map_app, <- app_assoc. simpl.
      split_and!; [done|done|lia|lia|lia].
Qed.

(** X15: [_deep_clean_scene] keeps the names and the order of the
    geometries, counts every entry of a scene in [total_count] and at most
    that many in [cleaned_count], and leaves every face index in range when
    it was so before and the library passes keep it so; this holds also for
    a geometry whose cleanup ended in an exception. *)
Theorem deep_clean_scene_keeps_names_and_ranges lib scene :
  library_preserves indices_in_range lib ->
  Forall indices_in_range (loaded_geometries scene) ->
  let r := _deep_clean_scene lib scene in
  r.1.1 = true
  /\ loaded_names r.2 = loaded_names scene
  /\ Forall indices_in_range (loaded_geometries r.2)
  /\ (r.1.2.1 <= r.1.2.2)%nat
  /\ r.1.2.2 = (length (loaded_names scene)
                + match scene with
                  | LoadedMesh m => if has_vertices_and_faces m then 1 else 0
                  | _ => 0
                  end)%nat.
Proof.
  intros Hlib Hrange. destruct scene as [|s|m]; simpl.
  - by split_and!.
  - simpl in Hrange. unfold scene_entries.
    destruct (geometry s) as [entries|] eqn:Eg.
    2:{ simpl. unfold scene_entries. rewrite Eg.
        split_and!; [done|done|constructor|lia|done]. }
    pose proof (deep_clean_loop lib entries 0 0 [] Hlib (Forall_nil_2 _) Hrange)
      as (Hn & Hr & Ht & Hc).
    destruct (foldl _ _ entries) as [[c t] done]. simpl in *.
    rewrite length_map. split_and!; [done|done|done|lia|lia].
  - destruct (has_vertices_and_faces m); [|by split_and!].
    apply Forall_cons in Hrange as [Hm _].
    pose proof (clean_geometry_in_range lib m Hlib Hm) as Hclean.
    destruct (clean_geometry lib m) as [ok m']. simpl in *.
    split_and!; [done|done|by repeat constructor|destruct ok; lia|done].
Qed.

(** The theorem applied to the reference library and the scene of three
    entries. *)
Lemma deep_clean_scene_keeps_names_and_ranges_witness :
  let r := _deep_clean_scene reference_trimesh (LoadedScene mixed_scene) in
  r.1.1 = true
  /\ loaded_names r.2 = ["mesh_1"; "cloud"; "mesh_1b"]%string
  /\ Forall indices_in_range (loaded_geometries r.2)
  /\ (r.1.2.1 <= r.1.2.2)%nat
  /\ r.1.2.2 = 3%nat.
Proof.
  apply (deep_clean_scene_keeps_names_and_ranges reference_trimesh
           (LoadedScene mixed_scene)).
  - apply reference_trimesh_preserves_range.
  - by_evaluation.
Defined.

(** ** Hole detection and basic repair *)

Lemma remove_invalid_faces_preserves (P : Mesh -> Prop) lib g g' :
  (forall g mask g', P g -> update_faces lib g mask = Ok g' -> P g') ->
  method_preserves P (remove_degenerate_faces lib) ->
  P g -> _remove_invalid_faces lib g = Ok g' -> P g'.
Proof.
  intros Hupdate Hfallback Hg. unfold _remove_invalid_faces, mask_or_fallback.
  destruct (nondegenerate_faces lib) as [get_mask|]; [|by intros [= <-]].
  destruct (get_mask g) as [m|] eqn:Em; simpl.
  - destruct (update_faces lib g m) eqn:Eu.
    + intros [= <-]. by eapply Hupdate.
    + by apply method_preserves_call.
  - by apply method_preserves_call.
Qed.

(** X16: [fill_mesh_holes] keeps every property of the geometry that
    merge_vertices, fix_normals, update_faces and remove_degenerate_faces
    keep, whether it returns True or stops at an exception; it returns
    False without touching the geometry when a buffer is missing. *)
Theorem fill_mesh_holes_preserves (P : Mesh -> Prop) lib g :
  repair_passes_preserve P lib ->
  P g ->
  P (fill_mesh_holes lib g).2
  /\ (~ (is_Some (vertices g) /\ is_Some (faces g)) ->
      fill_mesh_holes lib g = (false, g)).
Proof.
  intros Hlib Hg. unfold fill_mesh_holes. split.
  - destruct (vertices g) as [vs|]; [|done].
    destruct (faces g) as [fs|]; [|done].
    next_pass g1 E1; [|done].
    apply (method_preserves_call P) in E1; [|apply Hlib|done].
    next_pass g2 E2; [|done].
    apply (method_preserves_call P) in E2; [|apply Hlib|done].
    next_pass g3 E3; [|done].
    simpl. eapply (remove_invalid_faces_preserves P lib); [| |exact E2|exact E3];
      apply Hlib.
  - intros Hmissing. destruct (vertices g) as [vs|]; [|done].
    destruct (faces g) as [fs|]; [|done].
    exfalso. apply Hmissing. by split; eexists.
Qed.

Lemma reference_trimesh_repair_passes :
  repair_passes_preserve indices_in_range reference_trimesh.
Proof.
  pose proof reference_trimesh_preserves_range as H.
  constructor; apply H.
Qed.

(** The theorem applied to the reference library and the mesh with a
    degenerate face, for the face indices being in range. *)
Lemma fill_mesh_holes_preserves_witness :
  indices_in_range (fill_mesh_holes reference_trimesh degenerate_mesh).2
  /\ (~ (is_Some (vertices degenerate_mesh) /\ is_Some (faces degenerate_mesh)) ->
      fill_mesh_holes reference_trimesh degenerate_mesh = (false, degenerate_mesh)).
Proof.
  apply (fill_mesh_holes_preserves indices_in_range reference_trimesh degenerate_mesh).
  - apply reference_trimesh_repair_passes.
  - by_evaluation.
Defined.

(** X17: whatever [detect_mesh_holes] reports starts with the open
    boundary: the other tags are only ever added after the watertight
    test has come out false, there are at most two of them, and a failing
    read of [is_watertight] gives the empty report, not the skip tag. *)
Theorem detect_mesh_holes_reports_open_boundary_first topo g tag :
  tag ∈ detect_mesh_holes topo g ->
  head (detect_mesh_holes topo g) = Some OpenBoundary
  /\ (length (detect_mesh_holes topo g) <= 3)%nat
  /\ exists w, is_watertight topo = Some w /\ w g = Ok false.
Proof.
  unfold detect_mesh_holes, volume_check, read_property.
  destruct (vertices g); [|by intros ?%elem_of_nil].
  destruct (faces g); [|by intros ?%elem_of_nil].
  destruct (is_watertight topo) as [w|]; [|by intros ?%elem_of_nil].
  destruct (w g) as [[|]|[]] eqn:Ew; try (by intros ?%elem_of_nil).
  intros _.
  assert (Hw : exists w0, Some w = Some w0 /\ w0 g = Ok false) by (by exists w).
  destruct (is_winding_consistent topo) as [winding|];
    [destruct (winding g) as [[|]|[]]|];
    (destruct (is_volume topo) as [volume|];
      [destruct (volume g) as [[|]|[]]|]); simpl; (split_and!; [done|lia|done]).
Qed.

(** The theorem applied to an open mesh whose [is_volume] cannot be
    read. *)
Lemma detect_mesh_holes_reports_open_boundary_first_witness :
  head (detect_mesh_holes open_topology fan_mesh) = Some OpenBoundary
  /\ (length (detect_mesh_holes open_topology fan_mesh) <= 3)%nat
  /\ exists w, is_watertight open_topology = Some w /\ w fan_mesh = Ok false.
Proof.
  apply (detect_mesh_holes_reports_open_boundary_first open_topology fan_mesh CheckSkipped).
  vm_compute. do 2 right. left.
Defined.

(** ** Textures *)

Lemma set_image_twice m a b : set_image (set_image m a) b = set_image m b.
Proof. reflexivity. Qed.

Lemma holds_image_insert heap mid m img new g :
  heap !! mid = Some m -> image m = Some (Some img) ->
  holds_image (<[mid := set_image m new]> heap) g = holds_image heap g.
Proof.
  intros Hm Himg. unfold holds_image.
  destruct (material_of g) as [mid'|]; [|done].
  destruct (decide (mid' = mid)) as [->|Hne].
  - by rewrite lookup_insert_eq, Hm, Himg.
  - by rewrite lookup_insert_ne.
Qed.

Lemma materials_known_insert heap mid m entries :
  materials_known heap entries -> materials_known (<[mid := m]> heap) entries.
Proof.
  unfold materials_known. intros Hknown. eapply Forall_impl; [exact Hknown|].
  intros e He mid' Hmid. simpl in *.
  destruct (decide (mid' = mid)) as [->|Hne].
  - rewrite lookup_insert_eq. by eexists.
  - rewrite lookup_insert_ne by done. by apply He.
Qed.

Lemma existsb_holds_image_insert heap mid m img new (entries : list (string * Mesh)) :
  heap !! mid = Some m -> image m = Some (Some img) ->
  existsb (fun e => holds_image (<[mid := set_image m new]> heap) e.2) entries
  = existsb (fun e => holds_image heap e.2) entries.
Proof.
  intros Hm Himg. induction entries as [|e rest IH]; [done|].
  simpl. by rewrite IH, (holds_image_insert heap mid m img).
Qed.

Lemma compress_loop_found px config quality f entries :
  forall found heap,
    materials_known heap entries ->
    (compress_loop px config quality f entries found heap).1
    = Ok (found || existsb (fun e => holds_image heap e.2) entries).
Proof.
  induction entries as [|[name g] rest IH]; intros found heap Hknown; simpl.
  - by rewrite orb_false_r.
  - apply Forall_cons in Hknown as [Hg Hrest]. simpl in Hg.
    unfold material_of in Hg. unfold holds_image at 1, material_of. simpl.
    destruct (visual g) as [v|]; [|by apply IH].
    destruct (material v) as [mid|]; [|by apply IH].
    destruct (Hg mid eq_refl) as [m Hm]. rewrite Hm.
    destruct (image m) as [[img|]|] eqn:Himg; [|by apply IH..].
    destruct (_compress_texture_webp px config img quality f) as [new|].
    + rewrite IH by (by apply materials_known_insert).
      rewrite (existsb_holds_image_insert heap mid m img) by done.
      by rewrite orb_true_r.
    + rewrite IH by done. by rewrite orb_true_r.
Qed.

(** X18: on a scene whose materials all exist, the value returned by
    [compress_scene_textures_webp] says whether some geometry has a
    material that holds an image; it does not depend on the quality, the
    resize factor or on whether any compression succeeded. *)
Theorem compress_scene_textures_webp_reports_presence px config scene heap quality f :
  materials_known heap (scene_entries scene) ->
  (compress_scene_textures_webp px config scene heap quality f).1
  = Ok (existsb (fun e => holds_image heap e.2) (scene_entries scene)).
Proof.
  intros Hknown. unfold compress_scene_textures_webp, scene_entries in *.
  destruct (geometry scene) as [entries|]; [|done].
  pose proof (compress_loop_found px config quality f entries false heap Hknown) as Hrun.
  destruct (compress_loop px config quality f entries false heap) as [[b|e] heap'];
    simpl in *; [done|discriminate].
Qed.

(** The theorem applied to a Pillow that can neither resize nor save:
    True is returned although no texture was compressed. *)
Lemma compress_scene_textures_webp_reports_presence_witness :
  (compress_scene_textures_webp failing_pillow default_config textured_scene
     textured_heap 70 (3 # 4)).1 = Ok true.
Proof.
  apply (compress_scene_textures_webp_reports_presence failing_pillow default_config
           textured_scene textured_heap 70 (3 # 4)).
  by_evaluation.
Defined.

Lemma compress_loop_frame px config quality f entries mid :
  forall found heap,
    let heap' := (compress_loop px config quality f entries found heap).2 in
    heap' !! mid = heap !! mid
    \/ exists m img new,
         heap !! mid = Some m /\ image m = Some (Some img)
         /\ heap' !! mid = Some (set_image m (ImgArray new))
         /\ Exists (fun e => material_of e.2 = Some mid) entries.
Proof.
  induction entries as [|[name g] rest IH]; intros found heap; simpl; [by left|].
  assert (Hskip : forall found',
    let heap' := (compress_loop px config quality f rest found' heap).2 in
    heap' !! mid = heap !! mid
    \/ exists m img new,
         heap !! mid = Some m /\ image m = Some (Some img)
         /\ heap' !! mid = Some (set_image m (ImgArray new))
         /\ Exists (fun e => material_of e.2 = Some mid) ((name, g) :: rest)).
  { intros found'. destruct (IH found' heap) as [Hsame|(m & img & new & ? & ? & ? & ?)];
      [by left|]. right. exists m, img, new. split_and!; [done..|]. by right. }
  destruct (visual g) as [v|] eqn:Ev; [|apply Hskip].
  destruct (material v) as [mid0|] eqn:Emat; [|apply Hskip].
  destruct (heap !! mid0) as [m0|] eqn:Hm0; [|by left].
  destruct (image m0) as [[img0|]|] eqn:Himg0; [|apply Hskip..].
  destruct (_compress_texture_webp px config img0 quality f) as [new0|];
    [|apply Hskip].
  destruct (IH true (<[mid0 := set_image m0 (ImgArray new0)]> heap))
    as [Hsame|(m & img & new & Hm & Himg & Hnew & Hex)].
  - destruct (decide (mid = mid0)) as [->|Hne].
    + rewrite lookup_insert_eq in Hsame. right. exists m0, img0, new0.
      split_and!; [done..|]. left. simpl. unfold material_of. by rewrite Ev.
    + rewrite lookup_insert_ne in Hsame by done. by left.
  - destruct (decide (mid = mid0)) as [->|Hne].
    + rewrite lookup_insert_eq in Hm. injection Hm as <-. right.
      exists m0, img0, new. split_and!; [done|done|done|].
      left. simpl. unfold material_of. by rewrite Ev.
    + rewrite lookup_insert_ne in Hm by done. right. exists m, img, new.
      split_and!; [done..|]. by right.
Qed.

(** X19: [compress_scene_textures_webp] leaves every material either as
    it was or with its image, which it had before, replaced by an array;
    the latter only for a material some geometry of the scene refers to.
    No material appears or disappears and no other attribute changes. *)
Theorem compress_scene_textures_webp_touches_only_images px config scene heap quality f mid :
  let heap' := (compress_scene_textures_webp px config scene heap quality f).2 in
  heap' !! mid = heap !! mid
  \/ exists m img new,
       heap !! mid = Some m /\ image m = Some (Some img)
       /\ heap' !! mid = Some (set_image m (ImgArray new))
       /\ base_color_factor (set_image m (ImgArray new)) = base_color_factor m
       /\ Exists (fun e => material_of e.2 = Some mid) (scene_entries scene).
Proof.
  unfold compress_scene_textures_webp, scene_entries.
  destruct (geometry scene) as [entries|]; [|by left].
  pose proof (compress_loop_frame px config quality f entries mid false heap) as Hframe.
  destruct (compress_loop px config quality f entries false heap) as [[b|e] heap'];
    simpl in *;
    (destruct Hframe as [Hsame|(m & img & new & ? & ? & ? & ?)];
      [by left|right; exists m, img, new; by split_and!]).
Qed.

Lemma legacy_loop_report px config quality entries :
  forall found heap res heap',
    materials_known heap entries ->
    legacy_loop px config quality entries found heap = (res, heap') ->
    exists b, res = Ok b
      /\ (b = false -> found = false /\ heap' = heap)
      /\ (b = true -> found = true
                      \/ existsb (fun e => holds_image heap e.2) entries = true).
Proof.
  induction entries as [|[name g] rest IH]; intros found heap res heap' Hknown; simpl.
  - intros [= <- <-]. exists found. split_and!; [done|done|by left].
  - apply Forall_cons in Hknown as [Hg Hrest]. simpl in Hg.
    assert (Hskip : legacy_loop px config quality rest found heap = (res, heap') ->
      forall here : bool,
      exists b, res = Ok b
        /\ (b = false -> found = false /\ heap' = heap)
        /\ (b = true -> found = true
              \/ here || existsb (fun e => holds_image heap e.2) rest = true)).
    { intros Hrun here. destruct (IH _ _ _ _ Hrest Hrun) as (b & ? & ? & Ht).
      exists b. split_and!; [done..|]. intros Hb. destruct (Ht Hb) as [?|Hex]; [by left|].
      right. by rewrite Hex, orb_true_r. }
    unfold material_of in Hg. unfold holds_image at 1, material_of. simpl.
    destruct (visual g) as [v|]; [|intros H; by apply Hskip].
    destruct (material v) as [mid|]; [|intros H; by apply Hskip].
    destruct (Hg mid eq_refl) as [m Hm]. rewrite Hm.
    destruct (image m) as [[img|]|] eqn:Himg; [|intros H; by apply Hskip..].
    destruct (_compress_texture px config img quality) as [new|];
      [|intros H; by apply Hskip].
    intros Hrun.
    destruct (IH _ _ _ _ (materials_known_insert _ mid _ _ Hrest) Hrun)
      as (b & Hres & Hf & _).
    exists b. split_and!; [done| |by right].
    intros Hb. by destruct (Hf Hb).
Qed.

(** X20: on a scene whose materials all exist, the legacy
    [compress_scene_textures] returns False only with every material left
    as it was, and True only if some geometry has a material that holds an
    image. *)
Theorem compress_scene_textures_false_means_untouched px config scene heap quality :
  materials_known heap (scene_entries scene) ->
  let r := compress_scene_textures px config scene heap quality in
  (r.1 = Ok false -> r.2 = heap)
  /\ (r.1 = Ok true ->
      existsb (fun e => holds_image heap e.2) (scene_entries scene) = true)
  /\ exists b, r.1 = Ok b.
Proof.
  intros Hknown. unfold compress_scene_textures, scene_entries in *.
  destruct (geometry scene) as [entries|]; [|by split_and!; [..|eexists]].
  destruct (legacy_loop px config quality entries false heap) as [res heap'] eqn:Hrun.
  destruct (legacy_loop_report _ _ _ _ _ _ _ _ Hknown Hrun) as (b & -> & Hf & Ht).
  simpl. split_and!; [| |by eexists].
  - intros [= ->]. by destruct Hf.
  - intros [= ->]. by destruct Ht.
Qed.

(** The theorem applied to the scene with two textures and a Pillow that
    cannot resize: False is returned and no material has changed. *)
Lemma compress_scene_textures_false_means_untouched_witness :
  let r := compress_scene_textures failing_pillow default_config textured_scene
             textured_heap (1 # 2) in
  (r.1 = Ok false -> r.2 = textured_heap)
  /\ (r.1 = Ok true ->
      existsb (fun e => holds_image textured_heap e.2) (scene_entries textured_scene) = true)
  /\ exists b, r.1 = Ok b.
Proof.
  apply (compress_scene_textures_false_means_untouched failing_pillow default_config
           textured_scene textured_heap (1 # 2)).
  by_evaluation.
Defined.

(** Beyond 2^53 a whole number need not be a float: the dimension
    2^53 + 3 becomes the float 2^53 + 4 before it is multiplied, and a
    dimension of 2^1024 or more cannot be converted at all. *)
Lemma resized_dimensions_beyond_exact_floats :
  resized_dimensions default_config (2 ^ 53 + 3, 1) 1 = Ok (2 ^ 53 + 4, 64)
  /\ resized_dimensions default_config (2 ^ 1024, 1) (1 # 2) = Raise OverflowError.
Proof. split; by vm_compute. Qed.

(** X21: with a factor between 0 and 1 the size handed to [resize] is, in
    each dimension, at least the configured minimum and at most the larger
    of the minimum and the original size: a texture is never enlarged
    beyond the minimum, and one below the minimum is enlarged to it.  The
    dimensions are whole numbers that a float holds exactly (below
    2^53), as those of an image are. *)
Theorem resized_dimensions_bounds config w h f :
  (0 <= f)%Q -> (f <= 1)%Q -> 0 <= w -> 0 <= h -> w < 2 ^ 53 -> h < 2 ^ 53 ->
  exists d,
    resized_dimensions config (w, h) f = Ok d
    /\ min_texture_size config <= d.1 <= Z.max (min_texture_size config) w
    /\ min_texture_size config <= d.2 <= Z.max (min_texture_size config) h.
Proof.
  intros Hf0 Hf1 Hw Hh Hw53 Hh53.
  assert (Hfloor : forall x, 0 <= x -> x < 2 ^ 53 ->
            (inject_Z x * f < 2 ^ 53)%Q
            /\ 0 <= Qfloor (round_binary64 (inject_Z x * f)) <= x).
  { intros x Hx Hx53.
    assert (Hx' : (0 <= inject_Z x)%Q).
    { change 0%Q with (inject_Z 0). by rewrite <- Zle_Qle. }
    assert (Hx53' : (inject_Z x < 2 ^ 53)%Q).
    { change (2 ^ 53)%Q with (inject_Z (2 ^ 53)). by rewrite <- Zlt_Qlt. }
    assert (H0 : (0 <= inject_Z x * f)%Q) by nra.
    assert (Hle : (inject_Z x * f <= inject_Z x)%Q) by nra.
    assert (H53 : (inject_Z x * f < 2 ^ 53)%Q) by lra.
    split; [done|].
    destruct (round_binary64_brackets (inject_Z x * f) x H0 H53) as [_ Hup].
    specialize (Hup Hle). apply Qfloor_resp_le in Hup. rewrite Qfloor_Z in Hup.
    pose proof (round_binary64_nonneg _ H0) as Hlow.
    apply Qfloor_resp_le in Hlow. change (Qfloor 0) with 0 in Hlow. lia. }
  destruct (Hfloor w Hw Hw53) as [Hwf Hwb]. destruct (Hfloor h Hh Hh53) as [Hhf Hhb].
  eexists. split; [by apply resized_dimensions_rounds|].
  cbn [fst snd]. lia.
Qed.

(** The theorem applied to a 32 by 1024 texture at three quarters under
    the default configuration: the result is 64 by 768. *)
Lemma resized_dimensions_bounds_witness :
  exists d,
    resized_dimensions default_config (32, 1024) (3 # 4) = Ok d
    /\ min_texture_size default_config <= d.1 <= Z.max (min_texture_size default_config) 32
    /\ min_texture_size default_config <= d.2 <= Z.max (min_texture_size default_config) 1024.
Proof.
  apply (resized_dimensions_bounds default_config 32 1024 (3 # 4)).
  - by vm_compute.
  - by vm_compute.
  - lia.
  - lia.
  - lia.
  - lia.
Defined.

(** ** Modes and the command line *)

Lemma valid_modes_lowercase m : m ∈ valid_modes -> lower m = m.
Proof.
  unfold valid_modes. intros H.
  repeat (apply elem_of_cons in H as [->|H]; [reflexivity|]).
  by apply elem_of_nil in H.
Qed.

Lemma MODE_CONFIGS_unknown mode : mode ∉ valid_modes -> MODE_CONFIGS !! mode = None.
Proof. intros H. by apply not_elem_of_list_to_map_1. Qed.

Lemma mode_map_unknown optimizer mode :
  mode ∉ valid_modes -> mode_map optimizer !! mode = None.
Proof. intros H. by apply not_elem_of_list_to_map_1. Qed.

(** X22: [get_mode_config] never fails, for any text as the mode, and
    the default ratio it yields passes both ratio checks of the
    repository: it lies between 0.05 and 1. *)
Theorem get_mode_config_default_passes_validation mode :
  exists config,
    get_mode_config mode = Ok (target_ratio config, config)
    /\ (ParameterValidator.validate_target_ratio (PyNum (target_ratio config))).1 = true
    /\ Config.validate_target_ratio (target_ratio config) = true
    /\ (mode ∉ valid_modes -> get_mode_config mode = get_mode_config "normal").
Proof.
  assert (Hknown : forall m config,
            get_mode_config m = Ok (target_ratio config, config) ->
            (ParameterValidator.validate_target_ratio (PyNum (target_ratio config))).1 = true ->
            Config.validate_target_ratio (target_ratio config) = true ->
            m ∈ valid_modes ->
            exists config,
              get_mode_config m = Ok (target_ratio config, config)
              /\ (ParameterValidator.validate_target_ratio (PyNum (target_ratio config))).1 = true
              /\ Config.validate_target_ratio (target_ratio config) = true
              /\ (m ∉ valid_modes -> get_mode_config m = get_mode_config "normal")).
  { intros m config ? ? ? ?. exists config. by split_and!. }
  destruct (decide (mode ∈ valid_modes)) as [Hin|Hout].
  - unfold valid_modes in Hin.
    apply elem_of_cons in Hin as [->|Hin].
    { apply (Hknown _ (mkModeConfig (round_binary64 (7 # 10)) 85 1)); by_evaluation || by vm_compute. }
    apply elem_of_cons in Hin as [->|Hin].
    { apply (Hknown _ (mkModeConfig (round_binary64 (3 # 10)) 85 1)); by_evaluation || by vm_compute. }
    apply elem_of_cons in Hin as [->|Hin].
    { apply (Hknown _ (mkModeConfig (round_binary64 (1 # 10)) 70 (3 # 4))); by_evaluation || by vm_compute. }
    apply elem_of_cons in Hin as [->|Hin].
    { apply (Hknown _ (mkModeConfig 1 85 1)); by_evaluation || by vm_compute. }
    apply elem_of_cons in Hin as [->|Hin].
    { apply (Hknown _ (mkModeConfig 1 85 1)); by_evaluation || by vm_compute. }
    by apply elem_of_nil in Hin.
  - assert (Hnormal : get_mode_config mode = get_mode_config "normal").
    { unfold get_mode_config at 1. rewrite (MODE_CONFIGS_unknown mode Hout).
      rewrite bool_decide_eq_false_2 by (by intros [? ?]). by vm_compute. }
    rewrite Hnormal. exists (mkModeConfig (round_binary64 (7 # 10)) 85 1).
    split_and!; [by vm_compute..|done].
Qed.

(** X23: the call of the chosen pipeline in [main] fails with a
    TypeError for the mode ultra and for no other text: the method behind
    ultra takes the two paths only and is called with the ratio as a third
    argument. *)
Theorem dispatch_type_error_exactly_for_ultra optimizer mode input output r :
  dispatch optimizer mode input output r = TypeError <-> mode = "ultra"%string.
Proof.
  destruct (decide (mode ∈ valid_modes)) as [Hin|Hout].
  - unfold valid_modes in Hin.
    repeat (apply elem_of_cons in Hin as [->|Hin];
            [split; [by vm_compute|(by intros [=]) || (intros _; by vm_compute)]|]).
    by apply elem_of_nil in Hin.
  - unfold dispatch. rewrite (mode_map_unknown optimizer mode Hout). simpl.
    rewrite bool_decide_eq_false_2.
    + simpl. split; [discriminate|]. intros ->. exfalso. apply Hout. by_evaluation.
    + intros Hin. apply Hout. unfold valid_modes.
      apply elem_of_cons in Hin as [->|Hin]; [by_evaluation|].
      apply elem_of_cons in Hin as [->|Hin]; [by_evaluation|].
      by apply elem_of_nil in Hin.
Qed.

(** X24: a mode that [validate_mode] accepts only because it compares in
    lower case (Ultra, NORMAL, ...) is looked up as written afterwards: it
    gets the configuration of normal and runs the pipeline of normal. *)
Theorem mixed_case_mode_runs_default_pipeline optimizer mode input output r :
  (ParameterValidator.validate_mode (PyStr mode)).1 = true ->
  lower mode <> mode ->
  dispatch optimizer mode input output r
  = Returned (optimize_safe_texture_preserving optimizer input output r)
  /\ get_mode_config mode = get_mode_config "normal".
Proof.
  intros _ Hcase.
  assert (Hout : mode ∉ valid_modes).
  { intros Hin. by apply Hcase, valid_modes_lowercase. }
  split.
  - unfold dispatch. rewrite (mode_map_unknown optimizer mode Hout). simpl.
    rewrite bool_decide_eq_false_2; [done|].
    intros Hin. apply Hout. unfold valid_modes.
    apply elem_of_cons in Hin as [->|Hin]; [by_evaluation|].
    apply elem_of_cons in Hin as [->|Hin]; [by_evaluation|].
    by apply elem_of_nil in Hin.
  - unfold get_mode_config at 1. rewrite (MODE_CONFIGS_unknown mode Hout).
    rewrite bool_decide_eq_false_2 by (by intros [? ?]). by vm_compute.
Qed.

(** The theorem applied to the mode written Ultra. *)
Lemma mixed_case_mode_runs_default_pipeline_witness :
  dispatch agreeable_optimizer "Ultra" "in.glb" "out.glb" (1 # 10)
  = Returned (optimize_safe_texture_preserving agreeable_optimizer "in.glb" "out.glb" (1 # 10))
  /\ get_mode_config "Ultra" = get_mode_config "normal".
Proof.
  apply (mixed_case_mode_runs_default_pipeline agreeable_optimizer "Ultra"
           "in.glb" "out.glb" (1 # 10)).
  - by vm_compute.
  - by vm_compute.
Defined.

Lemma parse_flag_provenance arg o :
  opt_input_file (parse_flag arg o) = opt_input_file o
  /\ opt_mode (parse_flag arg o) = opt_mode o
  /\ opt_ratio (parse_flag arg o) = opt_ratio o
  /\ opt_output (parse_flag arg o) = opt_output o
  /\ (opt_validation (parse_flag arg o) = opt_validation o
      \/ opt_validation (parse_flag arg o) = false /\ arg = "--no-validation"%string).
Proof.
  unfold parse_flag. repeat case_bool_decide; simpl; split_and!; auto.
Qed.

Lemma parse_options_provenance float int n :
  forall args o o',
    (length args <= n)%nat ->
    parse_options float int args o = Parsed o' ->
    opt_input_file o' = opt_input_file o
    /\ (opt_mode o' = opt_mode o \/ opt_mode o' ∈ args)
    /\ (opt_ratio o' = opt_ratio o
        \/ exists s r, s ∈ args /\ float s = Some r /\ opt_ratio o' = Some r)
    /\ (opt_output o' = opt_output o
        \/ exists v, v ∈ args /\ opt_output o' = Some v)
    /\ (opt_validation o' = opt_validation o
        \/ opt_validation o' = false /\ "--no-validation"%string ∈ args).
Proof.
  induction n as [|n IH]; intros args o o' Hlen.
  { destruct args; [|simpl in Hlen; lia]. simpl. intros [= <-]. split_and!; auto. }
  destruct args as [|arg [|value rest']].
  - simpl. intros [= <-]. split_and!; auto.
  - simpl. intros [= <-].
    destruct (parse_flag_provenance arg o) as (-> & -> & -> & -> & Hv).
    split_and!; auto. destruct Hv as [->|[-> ->]]; [by left|right].
    split; [done|by left].
  - assert (Hweaken : forall opts,
      (length rest' <= n)%nat ->
      parse_options float int rest' opts = Parsed o' ->
      opt_input_file opts = opt_input_file o ->
      (opt_mode opts = opt_mode o \/ opt_mode opts = value) ->
      (opt_ratio opts = opt_ratio o
       \/ exists r, float value = Some r /\ opt_ratio opts = Some r) ->
      (opt_output opts = opt_output o \/ opt_output opts = Some value) ->
      opt_validation opts = opt_validation o ->
      opt_input_file o' = opt_input_file o
      /\ (opt_mode o' = opt_mode o \/ opt_mode o' ∈ arg :: value :: rest')
      /\ (opt_ratio o' = opt_ratio o
          \/ exists s r, s ∈ arg :: value :: rest' /\ float s = Some r
                         /\ opt_ratio o' = Some r)
      /\ (opt_output o' = opt_output o
          \/ exists v, v ∈ arg :: value :: rest' /\ opt_output o' = Some v)
      /\ (opt_validation o' = opt_validation o
          \/ opt_validation o' = false
             /\ "--no-validation"%string ∈ arg :: value :: rest')).
    { intros opts Hl Hrun Hi Hm Hr Ho Hv.
      destruct (IH _ _ _ Hl Hrun) as (Hi' & Hm' & Hr' & Ho' & Hv').
      rewrite Hi', Hi. split_and!; [done| | | |].
      - destruct Hm' as [->|Hin]; [|right; by do 2 right].
        destruct Hm as [->| ->]; [by left|right; right; by left].
      - destruct Hr' as [->|(s & r & Hs & Hf & ->)].
        + destruct Hr as [->|(r & Hf & ->)]; [by left|].
          right. exists value, r. split_and!; [right; by left|done..].
        + right. exists s, r. split_and!; [by do 2 right|done..].
      - destruct Ho' as [->|(v & Hin & ->)].
        + destruct Ho as [->| ->]; [by left|].
          right. exists value. split; [right; by left|done].
        + right. exists v. split; [by do 2 right|done].
      - rewrite <- Hv. destruct Hv' as [->|[-> Hin]]; [by left|].
        right. split; [done|by do 2 right]. }
    simpl in Hlen.
    cbn [parse_options].
    case_bool_decide; [intros Hgo; apply (Hweaken _ ltac:(lia) Hgo); simpl; auto|].
    case_bool_decide.
    { destruct (float value) as [r|] eqn:Ef; [|done].
      intros Hgo; apply (Hweaken _ ltac:(lia) Hgo); simpl; eauto. }
    case_bool_decide; [intros Hgo; apply (Hweaken _ ltac:(lia) Hgo); simpl; auto|].
    case_bool_decide; [intros Hgo; apply (Hweaken _ ltac:(lia) Hgo); simpl; auto|].
    case_bool_decide.
    { destruct (int value) as [t|] eqn:Et; [|done].
      intros Hgo; apply (Hweaken _ ltac:(lia) Hgo); simpl; auto. }
    intros Hrun.
    destruct (IH (value :: rest') _ _ ltac:(simpl; lia) Hrun)
      as (Hi' & Hm' & Hr' & Ho' & Hv').
    destruct (parse_flag_provenance arg o) as (Hi & Hm & Hr & Ho & Hv).
    rewrite Hi in Hi'. rewrite Hm in Hm'. rewrite Hr in Hr'. rewrite Ho in Ho'.
    split_and!; [done| | | |].
    + destruct Hm' as [?|?]; [by left|right; by right].
    + destruct Hr' as [?|(s & r & ? & ? & ?)]; [by left|].
      right. exists s, r. split_and!; [by right|done..].
    + destruct Ho' as [?|(v & ? & ?)]; [by left|].
      right. exists v. split; [by right|done].
    + destruct Hv' as [Heq|[? ?]]; [|right; split; [done|by right]].
      rewrite Heq. destruct Hv as [?|[? ->]]; [by left|].
      right. split; [done|by left].
Qed.

(** X25: when [parse_arguments] returns, the input file is the first
    argument whatever it looks like, the mode is normal or one of the later
    arguments, a ratio is the conversion of one of them, and validation is
    switched off only if --no-validation is among them; no argument is
    --help or -h.  (A flag that follows an option is taken as that option's
    value.) *)
Theorem parse_arguments_provenance float int args o :
  parse_arguments float int args = Parsed o ->
  head args = Some (opt_input_file o)
  /\ (opt_mode o = "normal"%string \/ opt_mode o ∈ tail args)
  /\ (forall r, opt_ratio o = Some r ->
        exists s, s ∈ tail args /\ float s = Some r)
  /\ (forall v, opt_output o = Some v -> v ∈ tail args)
  /\ (opt_validation o = false -> "--no-validation"%string ∈ tail args)
  /\ ("--help"%string ∉ args) /\ ("-h"%string ∉ args).
Proof.
  unfold parse_arguments. destruct args as [|input_file rest]; [done|].
  case_bool_decide as Hhelp; [done|]. intros Hrun.
  apply (parse_options_provenance float int (length rest)) in Hrun
    as (Hi & Hm & Hr & Ho & Hv); [|lia].
  simpl in *. split_and!.
  - by rewrite Hi.
  - done.
  - intros r Hsome. destruct Hr as [Hnone|(s & r' & ? & ? & Heq)]; [congruence|].
    exists s. split; [done|congruence].
  - intros v Hsome. destruct Ho as [Hnone|(v' & ? & Heq)]; [congruence|].
    congruence.
  - intros Hfalse. destruct Hv as [Htrue|[_ ?]]; [congruence|done].
  - intros H. apply Hhelp. by left.
  - intros H. apply Hhelp. by right.
Qed.

(** The theorem applied to a command line on which --no-validation
    follows --output: it becomes the output path and validation stays
    on. *)
Lemma parse_arguments_provenance_witness :
  let args := ["model.glb"; "--output"; "--no-validation"; "--mode"; "ultra"]%string in
  let o := mkParsedOptions "model.glb" "ultra" None (Some "--no-validation"%string)
             "INFO" false true true 300 in
  head args = Some (opt_input_file o)
  /\ (opt_mode o = "normal"%string \/ opt_mode o ∈ tail args)
  /\ (forall r, opt_ratio o = Some r ->
        exists s, s ∈ tail args /\ no_number s = Some r)
  /\ (forall v, opt_output o = Some v -> v ∈ tail args)
  /\ (opt_validation o = false -> "--no-validation"%string ∈ tail args)
  /\ ("--help"%string ∉ args) /\ ("-h"%string ∉ args).
Proof.
  apply (parse_arguments_provenance no_number no_number
           ["model.glb"; "--output"; "--no-validation"; "--mode"; "ultra"]%string).
  vm_compute. reflexivity.
Defined.

(** ** The geometry loops of the optimizer *)

Lemma simplify_geometry_safely_counts lib config g target_faces_ratio :
  decimation_reduces lib ->
  let r := simplify_geometry_safely lib config g target_faces_ratio in
  0 <= r.1.2 /\ r.1.2 <= r.1.1.2 /\ r.1.1.2 <= Z.of_nat (face_count g).
Proof.
  intros Hdec. unfold simplify_geometry_safely, face_count. simpl.
  destruct (faces g) as [fs|] eqn:Ef; simpl; [|lia].
  case_bool_decide as Hmin; simpl; [lia|].
  destruct (int_times _ _) as [target_face_count|]; simpl; [|lia].
  unfold accept_simplified.
  destruct (simplify_quadric_decimation lib g _) as [[s|]|] eqn:Es; simpl; try lia.
  assert (Hs : (face_count s <= length fs)%nat).
  { apply Hdec in Es. unfold face_count at 2 in Es. by rewrite Ef in Es. }
  unfold face_count in Hs.
  destruct (faces s) as [sfaces|]; simpl; [|lia].
  case_bool_decide; simpl; [|lia].
  destruct (vertices s); simpl; lia.
Qed.

Lemma optimize_safe_loop lib config target_faces_ratio entries :
  decimation_reduces lib ->
  forall total_original total_simplified done,
    let r := foldl (optimize_safe_entry lib config target_faces_ratio)
                   (total_original, total_simplified, done) entries in
    map fst r.2 = map fst done ++ map fst entries
    /\ 0 <= r.1.2 - total_simplified
    /\ r.1.2 - total_simplified <= r.1.1 - total_original
    /\ r.1.1 - total_original <= total_faces entries.
Proof.
  intros Hdec. induction entries as [|[name g] rest IH];
    intros total_original total_simplified done; simpl.
  - rewrite app_nil_r. split_and!; [done|lia..].
  - assert (Hpos : 0 <= Z.of_nat (face_count g)) by lia.
    assert (Hskip :
      let r := foldl (optimize_safe_entry lib config target_faces_ratio)
                 (total_original, total_simplified, done ++ [(name, g)]) rest in
      map fst r.2 = map fst done ++ name :: map fst rest
      /\ 0 <= r.1.2 - total_simplified
      /\ r.1.2 - total_simplified <= r.1.1 - total_original
      /\ r.1.1 - total_original <= Z.of_nat (face_count g) + total_faces rest).
    { destruct (IH total_original total_simplified (done ++ [(name, g)]))
        as (Hn & H1 & H2 & H3).
      simpl. rewrite Hn, map_app, <- app_assoc. simpl. split_and!; [done|lia..]. }
    destruct (faces g) as [fs|] eqn:Ef; [|exact Hskip].
    case_bool_decide; [|exact Hskip]. clear Hskip.
    pose proof (simplify_geometry_safely_counts lib config g target_faces_ratio Hdec)
      as (Hc1 & Hc2 & Hc3).
    destruct (simplify_geometry_safely lib config g target_faces_ratio)
      as [[[success original_faces] new_faces] g'].
    simpl in Hc1, Hc2, Hc3.
    destruct (IH (total_original + original_faces) (total_simplified + new_faces)
                 (done ++ [(name, g')])) as (Hn & H1 & H2 & H3).
    simpl. rewrite Hn, map_app, <- app_assoc. simpl. split_and!; [done|lia..].
Qed.

(** X26: in the scene loop of [optimize_safe] the second total never
    exceeds the first, and the first never exceeds the number of faces in
    the scene (a geometry below the minimum face count adds nothing to
    either), given a decimation that does not add faces; the names and the
    order of the geometries are kept. *)
Theorem optimize_safe_totals lib config target_faces_ratio entries :
  decimation_reduces lib ->
  let r := foldl (optimize_safe_entry lib config target_faces_ratio) (0, 0, []) entries in
  0 <= r.1.2 /\ r.1.2 <= r.1.1 /\ r.1.1 <= total_faces entries
  /\ map fst r.2 = map fst entries.
Proof.
  intros Hdec.
  destruct (optimize_safe_loop lib config target_faces_ratio entries Hdec 0 0 [])
    as (Hn & H1 & H2 & H3).
  simpl. split_and!; [lia..|done].
Qed.

(** The theorem applied to the reference library and the scene of three
    entries, with decimation allowed from four faces on. *)
Lemma optimize_safe_totals_witness :
  let r := foldl (optimize_safe_entry reference_trimesh small_mesh_config (1 # 2))
                 (0, 0, []) (scene_entries mixed_scene) in
  0 <= r.1.2 /\ r.1.2 <= r.1.1 /\ r.1.1 <= total_faces (scene_entries mixed_scene)
  /\ map fst r.2 = map fst (scene_entries mixed_scene).
Proof.
  apply (optimize_safe_totals reference_trimesh small_mesh_config (1 # 2)
           (scene_entries mixed_scene)).
  apply truncating_decimation_reduces.
Defined.

Lemma texture_preserving_loop lib config target_faces_ratio entries :
  forall simplified_count total_count done,
    let r := foldl (texture_preserving_entry lib config target_faces_ratio)
                   (simplified_count, total_count, done) entries in
    (exists processed,
       r.2 = done ++ processed
       /\ Forall2 (fun e e' =>
                     e'.1 = e.1
                     /\ (Z.of_nat (face_count e.2) <= min_face_count config -> e' = e))
                  entries processed)
    /\ (r.1.1 - simplified_count <= r.1.2 - total_count)%nat
    /\ (simplified_count <= r.1.1)%nat
    /\ (total_count <= r.1.2)%nat
    /\ (r.1.2 - total_count <= length entries)%nat.
Proof.
  induction entries as [|[name g] rest IH]; intros simplified_count total_count done;
    simpl.
  - split_and!; [|lia..].
    exists []. by rewrite app_nil_r.
  - assert (Hskip :
      let r := foldl (texture_preserving_entry lib config target_faces_ratio)
                 (simplified_count, total_count, done ++ [(name, g)]) rest in
      (exists processed,
         r.2 = done ++ processed
         /\ Forall2 (fun e e' =>
                       e'.1 = e.1
                       /\ (Z.of_nat (face_count e.2) <= min_face_count config -> e' = e))
                    ((name, g) :: rest) processed)
      /\ (r.1.1 - simplified_count <= r.1.2 - total_count)%nat
      /\ (simplified_count <= r.1.1)%nat
      /\ (total_count <= r.1.2)%nat
      /\ (r.1.2 - total_count <= S (length rest))%nat).
    { destruct (IH simplified_count total_count (done ++ [(name, g)]))
        as ((processed & Hp & Hall) & H1 & H2 & H3 & H4).
      simpl. split_and!; [|lia..].
      exists ((name, g) :: processed). rewrite Hp, <- app_assoc. split; [done|].
      by constructor. }
    destruct (faces g) as [fs|] eqn:Ef; [|exact Hskip].
    case_bool_decide as Hbig; [|exact Hskip]. clear Hskip.
    destruct (simplify_geometry_safely lib config g target_faces_ratio)
      as [[[success original_faces] new_faces] g'].
    destruct (IH (if success then S simplified_count else simplified_count)
                 (S total_count) (done ++ [(name, g')]))
      as ((processed & Hp & Hall) & H1 & H2 & H3 & H4).
    simpl. split_and!; [| destruct success; lia..].
    exists ((name, g') :: processed). rewrite Hp, <- app_assoc. split; [done|].
    constructor; [|done]. split; [done|]. simpl. unfold face_count. rewrite Ef. lia.
Qed.

(** X27: the loop of [optimize_texture_preserving] leaves a geometry with
    no more faces than the configured minimum exactly as it is, one with
    exactly the minimum included (which [simplify_geometry_safely] itself
    would take on); it keeps the names and the order, and counts at most
    as many simplified geometries as it has tried. *)
Theorem optimize_texture_preserving_skips_small_geometries
    lib config target_faces_ratio entries :
  let r := foldl (texture_preserving_entry lib config target_faces_ratio)
                 (0%nat, 0%nat, []) entries in
  Forall2 (fun e e' =>
             e'.1 = e.1
             /\ (Z.of_nat (face_count e.2) <= min_face_count config -> e' = e))
          entries r.2
  /\ (r.1.1 <= r.1.2)%nat
  /\ (r.1.2 <= length entries)%nat.
Proof.
  destruct (texture_preserving_loop lib config target_faces_ratio entries 0 0 [])
    as ((processed & Hp & Hall) & H1 & H2 & H3 & H4).
  simpl in *. rewrite Hp. split_and!; [done|lia..].
Qed.

(** ** The reference library settles the geometry *)

Lemma find_index_first {A : Type} (p : A -> bool) l k :
  find_index p l = Some k ->
  (exists x, l !! k = Some x /\ p x = true)
  /\ forall j y, (j < k)%nat -> l !! j = Some y -> p y = false.
Proof.
  revert k. induction l as [|a l IH]; intros k; simpl; [discriminate|].
  destruct (p a) eqn:Ea.
  - intros [= <-]. split; [by exists a|]. intros j y Hj. lia.
  - destruct (find_index p l) as [k'|]; simpl; [|discriminate].
    intros [= <-]. destruct (IH k' eq_refl) as [Hx Hbefore].
    split; [done|]. intros [|j] y Hj; simpl.
    + by intros [= <-].
    + apply Hbefore. lia.
Qed.

Lemma find_index_intro {A : Type} (p : A -> bool) l k x :
  l !! k = Some x -> p x = true ->
  (forall j y, (j < k)%nat -> l !! j = Some y -> p y = false) ->
  find_index p l = Some k.
Proof.
  revert k. induction l as [|a l IH]; intros k; simpl; [done|].
  destruct k as [|k]; simpl.
  - intros [= ->] -> _. done.
  - intros Hx Hp Hbefore.
    rewrite (Hbefore 0%nat a) by (done || lia).
    rewrite (IH k Hx Hp); [done|].
    intros j y Hj Hy. apply (Hbefore (S j)); [lia|done].
Qed.

Lemma vec_eqb_refl v : vec_eqb v v = true.
Proof.
  unfold vec_eqb. rewrite bool_decide_eq_true_2 by done. simpl.
  induction v as [|x v IH]; [done|]. simpl. rewrite IH, andb_true_r.
  apply Qeq_bool_refl.
Qed.

Lemma py_mapM_intro {A B : Type} (f : A -> Py B) l l' :
  length l = length l' ->
  (forall i x y, l !! i = Some x -> l' !! i = Some y -> f x = Ok y) ->
  py_mapM f l = Ok l'.
Proof.
  revert l'. induction l as [|a l IH]; intros [|b l'] Hlen Hf; simpl in *; try done.
  rewrite (Hf 0%nat a b) by done.
  rewrite (IH l'); [done|lia|].
  intros i x y Hx Hy. by apply (Hf (S i)).
Qed.

Lemma filter_all {A : Type} (p : A -> bool) l :
  Forall (fun x => p x = true) l -> List.filter p l = l.
Proof.
  induction 1 as [|x l Hx _ IH]; [done|]. simpl. by rewrite Hx, IH.
Qed.

Lemma np_get_nat {A : Type} (a : list A) j x :
  np_get a (Z.of_nat j) = Ok x -> a !! j = Some x.
Proof.
  unfold np_get, np_index. case_bool_decide as Hj.
  - rewrite Nat2Z.id. destruct (a !! j); [by intros [= <-]|discriminate].
  - case_bool_decide; [lia|discriminate].
Qed.

Lemma same_buffers g vs fs :
  vertices g = Some vs -> faces g = Some fs ->
  set_faces (set_vertices g vs) fs = g.
Proof. destruct g. simpl. by intros -> ->. Qed.

(** On a merged geometry the merge changes nothing. *)
Lemma ref_merge_vertices_idle g : merged g -> ref_merge_vertices g = Ok g.
Proof.
  intros (vs & fs & Ev & Ef & Hfirst & Hrange). unfold ref_merge_vertices.
  rewrite Ev, Ef.
  assert (Hrep : py_mapM (fun v => found (find_index (vec_eqb v) vs)) vs
                 = Ok (seq 0 (length vs))).
  { apply py_mapM_intro; [by rewrite length_seq|].
    intros i x y Hx Hy. apply lookup_seq in Hy as [-> _].
    by rewrite (Hfirst i x Hx). }
  rewrite Hrep. simpl.
  assert (Hkept : List.filter
                    (fun i => bool_decide (seq 0 (length vs) !! i = Some i))
                    (seq 0 (length vs)) = seq 0 (length vs)).
  { apply filter_all, Forall_forall. intros i Hi. apply elem_of_seq in Hi.
    apply bool_decide_eq_true. apply lookup_seq. lia. }
  rewrite Hkept.
  assert (Hnew : py_mapM
                   (fun r => k ← found (find_index (Nat.eqb r) (seq 0 (length vs)));
                             Ok (Z.of_nat k))
                   (seq 0 (length vs))
                 = Ok (map Z.of_nat (seq 0 (length vs)))).
  { apply py_mapM_intro; [by rewrite length_map|].
    intros i x y Hx Hy. apply lookup_seq in Hx as [-> Hi].
    rewrite list_lookup_fmap, lookup_seq_lt in Hy by done. injection Hy as <-.
    rewrite (find_index_intro _ _ i i); [done| |apply Nat.eqb_refl|].
    - by apply lookup_seq_lt.
    - intros j y Hj Hy. apply lookup_seq in Hy as [-> _]. apply Nat.eqb_neq. lia. }
  rewrite Hnew. simpl.
  assert (Htake : np_take vs (map Z.of_nat (seq 0 (length vs))) = Ok vs).
  { apply py_mapM_intro; [by rewrite length_map, length_seq|].
    intros i x y Hx Hy. rewrite list_lookup_fmap in Hx.
    destruct (seq 0 (length vs) !! i) as [i'|] eqn:Hi; [|done].
    apply lookup_seq in Hi as [-> _]. injection Hx as <-. by apply np_get_lookup. }
  rewrite Htake. simpl.
  assert (Hget : forall a, 0 <= a < Z.of_nat (length vs) ->
            np_get (map Z.of_nat (seq 0 (length vs))) a = Ok a).
  { intros a Ha. rewrite <- (Z2Nat.id a) at 1 by lia. apply np_get_lookup.
    rewrite list_lookup_fmap, lookup_seq_lt by lia. simpl. f_equal. lia. }
  assert (Hfaces : py_mapM
                     (fun f : Face =>
                        let '(a, b, c) := f in
                        a' ← np_get (map Z.of_nat (seq 0 (length vs))) a;
                        b' ← np_get (map Z.of_nat (seq 0 (length vs))) b;
                        c' ← np_get (map Z.of_nat (seq 0 (length vs))) c;
                        Ok (a', b', c')) fs = Ok fs).
  { apply py_mapM_intro; [done|].
    intros i [[a b] c] y Hx Hy. rewrite Hx in Hy. injection Hy as <-.
    apply flatten_Forall in Hrange. rewrite Forall_forall in Hrange.
    specialize (Hrange _ (list_elem_of_lookup_2 _ _ _ Hx)). simpl in Hrange.
    apply Forall_cons in Hrange as [Ha Hrange].
    apply Forall_cons in Hrange as [Hb Hrange].
    apply Forall_cons in Hrange as [Hc _].
    by rewrite !Hget. }
  rewrite Hfaces. simpl. f_equal. by apply same_buffers.
Qed.

(** The indices a filter keeps of a run [k, k + 1, ...] are increasing. *)
Lemma filter_seq_increasing (p : nat -> bool) k n q1 q2 j i :
  (q1 < q2)%nat ->
  List.filter p (seq k n) !! q1 = Some j ->
  List.filter p (seq k n) !! q2 = Some i ->
  (j < i)%nat.
Proof.
  revert k q1 q2. induction n as [|n IH]; intros k q1 q2 Hq; simpl; [done|].
  assert (Hge : forall q x, List.filter p (seq (S k) n) !! q = Some x -> (k < x)%nat).
  { intros q x Hx. apply list_elem_of_lookup_2, list_elem_of_In, List.filter_In in Hx
      as [Hx _]. apply list_elem_of_In, elem_of_seq in Hx. lia. }
  destruct (p k).
  - destruct q1 as [|q1]; destruct q2 as [|q2]; simpl; try lia.
    + intros [= <-] Hi. by eapply Hge.
    + apply IH. lia.
  - by apply IH.
Qed.

Lemma np_take_lookup {A : Type} (a : list A) idx l p x :
  np_take a idx = Ok l -> l !! p = Some x ->
  exists z, idx !! p = Some z /\ np_get a z = Ok x.
Proof.
  intros Et Hx. pose proof (np_take_length _ _ _ Et) as Hlen.
  destruct (lookup_lt_is_Some_2 idx p) as [z Hz].
  { rewrite <- Hlen. by eapply lookup_lt_Some. }
  destruct (py_mapM_lookup _ _ _ _ _ Et Hz) as (y & Hy & Hget).
  exists z. split; [done|]. congruence.
Qed.

(** What the merge returns is merged. *)
Lemma ref_merge_vertices_merged g g' : ref_merge_vertices g = Ok g' -> merged g'.
Proof.
  unfold ref_merge_vertices.
  destruct (vertices g) as [vs|]; [|discriminate].
  destruct (faces g) as [fs|]; [|discriminate].
  destruct (py_mapM _ vs) as [representative|] eqn:Er; simpl; [|discriminate].
  set (kept := List.filter _ _).
  destruct (py_mapM _ representative) as [new_of_old|] eqn:En; simpl; [|discriminate].
  destruct (np_take vs _) as [new_vertices|] eqn:Et; simpl; [|discriminate].
  destruct (py_mapM _ fs) as [new_faces|] eqn:Ef; simpl; [|discriminate].
  intros [= <-]. exists new_vertices, new_faces. split; [done|]. split; [done|].
  split.
  - (* the vertices kept are the first at their position *)
    assert (Hat : forall p v, new_vertices !! p = Some v ->
              exists i, kept !! p = Some i /\ vs !! i = Some v
                        /\ find_index (vec_eqb v) vs = Some i).
    { intros p v Hv.
      destruct (np_take_lookup _ _ _ _ _ Et Hv) as (z & Hz & Hget).
      rewrite list_lookup_fmap in Hz.
      destruct (kept !! p) as [i|] eqn:Hi; [|done]. injection Hz as <-.
      apply np_get_nat in Hget. exists i. split; [done|]. split; [done|].
      apply list_elem_of_lookup_2, list_elem_of_In, List.filter_In in Hi as [_ Hi].
      apply bool_decide_eq_true in Hi.
      destruct (py_mapM_lookup _ _ _ _ _ Er Hget) as (r & Hr & Hfound).
      rewrite Hi in Hr. injection Hr as <-.
      by destruct (find_index (vec_eqb v) vs) as [k|]; [injection Hfound as ->|]. }
    intros p v Hv. destruct (Hat p v Hv) as (i & Hi & Hvi & Hfirst).
    apply (find_index_intro _ _ p v); [done|apply vec_eqb_refl|].
    intros q w Hq Hw. destruct (Hat q w Hw) as (j & Hj & Hwj & _).
    pose proof (filter_seq_increasing _ _ _ _ _ _ _ Hq Hj Hi) as Hlt.
    apply find_index_first in Hfirst as [_ Hbefore]. by apply (Hbefore j).
  - (* the faces address the vertices kept *)
    apply np_take_length in Et. rewrite length_map in Et. rewrite Et.
    assert (Hn : Forall (fun i => 0 <= i < Z.of_nat (length kept)) new_of_old).
    { eapply py_mapM_Forall; [|exact En]. intros r y. simpl.
      destruct (find_index (Nat.eqb r) kept) as [k|] eqn:Ek; simpl; [|discriminate].
      intros [= <-]. apply find_index_bound in Ek. lia. }
    rewrite Forall_forall in Hn.
    apply flatten_Forall. eapply py_mapM_Forall; [|exact Ef].
    intros [[a b] c] y. simpl.
    destruct (np_get new_of_old a) as [a'|] eqn:Ea; simpl; [|discriminate].
    destruct (np_get new_of_old b) as [b'|] eqn:Eb; simpl; [|discriminate].
    destruct (np_get new_of_old c) as [c'|] eqn:Ec; simpl; [|discriminate].
    intros [= <-]. simpl.
    apply np_get_elem in Ea, Eb, Ec. apply Hn in Ea, Eb, Ec.
    repeat constructor; lia.
Qed.

Lemma StronglySorted_lookup_le (l : list Z) q p a b :
  StronglySorted Z.le l -> (q < p)%nat ->
  l !! q = Some a -> l !! p = Some b -> a <= b.
Proof.
  intros Hs. revert q p. induction Hs as [|x l Hs IH Hall]; intros q p Hq; [done|].
  destruct q as [|q]; destruct p as [|p]; simpl; try lia.
  - intros [= <-] Hb. rewrite Forall_forall in Hall.
    apply Hall. by eapply list_elem_of_lookup_2.
  - apply IH. lia.
Qed.

(** The sorted list of used indices is strictly increasing. *)
Lemma used_indices_list_increasing fs q p a b :
  (q < p)%nat ->
  merge_sort Z.le (elements (used_indices fs)) !! q = Some a ->
  merge_sort Z.le (elements (used_indices fs)) !! p = Some b ->
  a < b.
Proof.
  intros Hq Ha Hb.
  pose proof (StronglySorted_lookup_le _ _ _ _ _
                (StronglySorted_merge_sort Z.le _) Hq Ha Hb) as Hle.
  destruct (decide (a = b)) as [->|]; [|lia].
  pose proof (used_indices_list_NoDup fs) as Hnd.
  rewrite NoDup_alt in Hnd. specialize (Hnd _ _ _ Ha Hb). lia.
Qed.

Lemma merged_same_buffers g g' :
  vertices g' = vertices g -> faces g' = faces g -> merged g -> merged g'.
Proof.
  intros Hv Hf (vs & fs & Ev & Ef & H). exists vs, fs. by rewrite Hv, Hf.
Qed.

(** The removal of unused vertices keeps a merged geometry merged. *)
Lemma remove_unused_vertices_keeps_merged g :
  merged g -> merged (_remove_unused_vertices g).2.
Proof.
  intros Hg. pose proof Hg as (vs & fs & Ev & Ef & Hfirst & Hrange).
  unfold _remove_unused_vertices. rewrite Ev, Ef.
  case_bool_decide; [done|].
  case_bool_decide; [done|].
  destruct (np_take vs _) as [new_vertices|] eqn:Et; [|done].
  destruct (py_mapM _ fs) as [new_faces|] eqn:Em; [|done].
  assert (Hnew : merged (set_faces (set_vertices g new_vertices) new_faces)).
  { exists new_vertices, new_faces. split; [done|]. split; [done|]. split.
    - assert (Hat : forall p v, new_vertices !! p = Some v ->
                exists z, merge_sort Z.le (elements (used_indices fs)) !! p = Some z
                          /\ 0 <= z /\ vs !! Z.to_nat z = Some v).
      { intros p v Hv.
        destruct (np_take_lookup _ _ _ _ _ Et Hv) as (z & Hz & Hget).
        exists z. split; [done|].
        assert (Hz0 : 0 <= z < Z.of_nat (length vs)).
        { rewrite Forall_forall in Hrange. apply Hrange.
          eapply used_indices_list_elem, list_elem_of_lookup_2, Hz. }
        split; [lia|]. apply np_get_nat. by rewrite Z2Nat.id by lia. }
      intros p v Hv. destruct (Hat p v Hv) as (z & Hz & Hz0 & Hvz).
      apply (find_index_intro _ _ p v); [done|apply vec_eqb_refl|].
      intros q w Hq Hw. destruct (Hat q w Hw) as (z' & Hz' & Hz0' & Hwz).
      pose proof (used_indices_list_increasing _ _ _ _ _ Hq Hz' Hz) as Hlt.
      destruct (find_index_first _ _ _ (Hfirst _ _ Hvz)) as [_ Hbefore].
      apply (Hbefore (Z.to_nat z')); [lia|done].
    - apply np_take_length in Et. rewrite Et.
      by eapply remapped_faces_address_vertices. }
  simpl. destruct (visual g) as [v|]; [|done].
  destruct (uv v) as [[uvs|]|]; [|done..].
  destruct (np_take uvs _); [|done].
  by eapply merged_same_buffers; [..|exact Hnew].
Qed.

(** ** The face passes of the reference library *)

Lemma mask_filter {A : Type} (mask : list bool) (l : list A) :
  length mask = length l ->
  Forall (fun b : bool => b = true) mask ->
  map snd (List.filter fst (zip mask l)) = l.
Proof.
  revert l. induction mask as [|b mask IH]; intros [|x l] Hlen Hall; simpl in *;
    try done.
  apply Forall_cons in Hall as [-> Hall]. simpl. f_equal. apply IH; [lia|done].
Qed.

Lemma first_occurrences_length seen fs :
  length (first_occurrences seen fs) = length fs.
Proof.
  revert seen. induction fs as [|f fs IH]; intros seen; simpl; [done|].
  case_bool_decide; simpl; by rewrite IH.
Qed.

(** The faces the reference library keeps in its two face passes. *)
Lemma reference_remove_invalid_faces g :
  _remove_invalid_faces reference_trimesh g
  = Ok match faces g with
       | Some fs =>
           set_faces g (map snd (List.filter fst (zip (map distinct_indices fs) fs)))
       | None => g
       end.
Proof.
  unfold _remove_invalid_faces, mask_or_fallback. simpl.
  unfold ref_nondegenerate_faces, ref_update_faces.
  destruct (faces g) as [fs|]; simpl; [|done].
  by rewrite bool_decide_eq_true_2 by by rewrite length_map.
Qed.

Lemma reference_remove_duplicate_faces g :
  _remove_duplicate_faces reference_trimesh g
  = Ok match faces g with
       | Some fs =>
           set_faces g (map snd (List.filter fst (zip (first_occurrences [] fs) fs)))
       | None => g
       end.
Proof.
  unfold _remove_duplicate_faces, mask_or_fallback. simpl.
  unfold ref_unique_faces, ref_update_faces.
  destruct (faces g) as [fs|]; simpl; [|done].
  by rewrite bool_decide_eq_true_2 by apply first_occurrences_length.
Qed.

Lemma same_faces g fs : faces g = Some fs -> set_faces g fs = g.
Proof. destruct g. simpl. by intros ->. Qed.

Lemma masked_faces_keep_merged g (mask : list bool) fs :
  faces g = Some fs -> merged g ->
  merged (set_faces g (map snd (List.filter fst (zip mask fs)))).
Proof.
  intros Ef (vs & fs' & Ev & Ef' & Hfirst & Hrange).
  rewrite Ef in Ef'. injection Ef' as <-.
  eexists vs, _. split; [done|]. split; [done|]. split; [done|].
  rewrite flatten_Forall in Hrange. rewrite flatten_Forall.
  rewrite Forall_forall in Hrange. apply Forall_forall. intros f Hf.
  apply Hrange. by eapply filter_mask_sublist.
Qed.

Lemma masked_distinct (mask : list bool) fs :
  Forall (fun f => distinct_indices f = true) fs ->
  Forall (fun f => distinct_indices f = true)
         (map snd (List.filter fst (zip mask fs))).
Proof.
  intros Hall. rewrite Forall_forall in Hall. apply Forall_forall. intros f Hf.
  apply Hall. by eapply filter_mask_sublist.
Qed.

Lemma nondegenerate_mask_distinct fs :
  Forall (fun f => distinct_indices f = true)
         (map snd (List.filter fst (zip (map distinct_indices fs) fs))).
Proof.
  induction fs as [|f fs IH]; simpl; [constructor|].
  destruct (distinct_indices f) eqn:Ef; simpl; [by constructor|done].
Qed.

Lemma first_occurrences_of_kept seen fs :
  Forall (fun b : bool => b = true)
    (first_occurrences seen
       (map snd (List.filter fst (zip (first_occurrences seen fs) fs)))).
Proof.
  revert seen. induction fs as [|f fs IH]; intros seen; simpl; [constructor|].
  case_bool_decide as Hseen; simpl; [apply IH|].
  rewrite bool_decide_eq_false_2 by done. constructor; [done|apply IH].
Qed.

(** The reference library settles the geometry. *)
Lemma reference_trimesh_settles :
  library_settles merged no_degenerate_face no_duplicate_face (fun _ => True)
                  reference_trimesh.
Proof.
  split; simpl.
  - split; [apply ref_merge_vertices_merged|apply ref_merge_vertices_idle].
  - split.
    + intros g g'. rewrite reference_remove_invalid_faces. intros [= <-].
      unfold no_degenerate_face, face_buffer.
      destruct (faces g) as [fs|] eqn:Ef; simpl; [|by rewrite Ef].
      apply nondegenerate_mask_distinct.
    + intros g Hg. rewrite reference_remove_invalid_faces. f_equal.
      unfold no_degenerate_face, face_buffer in Hg.
      destruct (faces g) as [fs|] eqn:Ef; [|done].
      rewrite mask_filter; [by apply same_faces|by rewrite length_map|].
      by apply Forall_fmap.
  - split.
    + intros g g'. rewrite reference_remove_duplicate_faces. intros [= <-].
      unfold no_duplicate_face, face_buffer.
      destruct (faces g) as [fs|] eqn:Ef; simpl; [|by rewrite Ef].
      apply first_occurrences_of_kept.
    + intros g Hg. rewrite reference_remove_duplicate_faces. f_equal.
      unfold no_duplicate_face, face_buffer in Hg.
      destruct (faces g) as [fs|] eqn:Ef; [|done].
      rewrite mask_filter; [by apply same_faces|apply first_occurrences_length|done].
  - split; [done|]. by intros g _.
  - intros g g' Hg [= <-]. by apply remove_unused_vertices_keeps_merged.
  - intros g g' Hg. rewrite reference_remove_invalid_faces. intros [= <-].
    destruct (faces g) as [fs|] eqn:Ef; [|done]. by apply masked_faces_keep_merged.
  - intros g g' Hg. rewrite reference_remove_duplicate_faces. intros [= <-].
    destruct (faces g) as [fs|] eqn:Ef; [|done]. by apply masked_faces_keep_merged.
  - by intros g g' Hg [= <-].
  - intros g g' Hg. rewrite reference_remove_duplicate_faces. intros [= <-].
    unfold no_degenerate_face, face_buffer in *.
    destruct (faces g) as [fs|] eqn:Ef; simpl; [|by rewrite Ef].
    by apply masked_distinct.
  - by intros g g' Hg [= <-].
  - by intros g g' Hg [= <-].
  - intros g Hg. unfold ref_remove_unreferenced_vertices.
    by rewrite remove_unused_vertices_idle.
Qed.

(** ** A second run of clean_geometry *)

Section SecondRun.
Context (Merged Valid Unique Oriented : Mesh -> Prop) (lib : Trimesh).
Context (Hlib : library_settles Merged Valid Unique Oriented lib).

Lemma settled_pipeline_idle g :
  Merged g -> Valid g -> Unique g -> Oriented g ->
  all_vertices_referenced g ->
  library_passes lib g = (true, g).
Proof using Hlib.
  intros HM HV HU HO Href. unfold library_passes.
  rewrite (proj2 (merge_settles _ _ _ _ _ Hlib) g HM).
  rewrite (unreferenced_idle _ _ _ _ _ Hlib g Href).
  rewrite (proj2 (invalid_settles _ _ _ _ _ Hlib) g HV).
  rewrite (proj2 (duplicate_settles _ _ _ _ _ Hlib) g HU).
  by rewrite (proj2 (normals_settles _ _ _ _ _ Hlib) g HO).
Qed.

Lemma pipeline_settles g1 g' :
  library_passes lib g1 = (true, g') ->
  Merged g' /\ Valid g' /\ Unique g' /\ Oriented g'.
Proof using Hlib.
  unfold library_passes.
  destruct (call_if_present (merge_vertices lib) g1) as [g2|] eqn:E2; [|discriminate].
  destruct (call_if_present (remove_unreferenced_vertices lib) g2) as [g3|] eqn:E3;
    [|discriminate].
  destruct (_remove_invalid_faces lib g3) as [g4|] eqn:E4; [|discriminate].
  destruct (_remove_duplicate_faces lib g4) as [g5|] eqn:E5; [|discriminate].
  destruct (call_if_present (fix_normals lib) g5) as [g6|] eqn:E6; [|discriminate].
  intros [= <-].
  pose proof (proj1 (merge_settles _ _ _ _ _ Hlib) _ _ E2) as M2.
  pose proof (unreferenced_keeps_merged _ _ _ _ _ Hlib _ _ M2 E3) as M3.
  pose proof (invalid_keeps_merged _ _ _ _ _ Hlib _ _ M3 E4) as M4.
  pose proof (duplicate_keeps_merged _ _ _ _ _ Hlib _ _ M4 E5) as M5.
  pose proof (normals_keeps_merged _ _ _ _ _ Hlib _ _ M5 E6) as M6.
  pose proof (proj1 (invalid_settles _ _ _ _ _ Hlib) _ _ E4) as V4.
  pose proof (duplicate_keeps_valid _ _ _ _ _ Hlib _ _ V4 E5) as V5.
  pose proof (normals_keeps_valid _ _ _ _ _ Hlib _ _ V5 E6) as V6.
  pose proof (proj1 (duplicate_settles _ _ _ _ _ Hlib) _ _ E5) as U5.
  pose proof (normals_keeps_unique _ _ _ _ _ Hlib _ _ U5 E6) as U6.
  pose proof (proj1 (normals_settles _ _ _ _ _ Hlib) _ _ E6) as O6.
  done.
Qed.

End SecondRun.

(** The condition on the library cannot be dropped.  With a normal-fixing
    pass that removes a face at every call, the first run on a tetrahedron
    leaves four vertices, all referenced, and three faces, and the second
    run leaves two faces. *)
Lemma clean_geometry_unsettled_library_second_run_differs :
  let first := clean_geometry peeling_trimesh tetrahedron_mesh in
  first.1 = true
  /\ all_vertices_referenced first.2
  /\ vertex_count first.2 = 4%nat /\ face_count first.2 = 3%nat
  /\ (clean_geometry peeling_trimesh first.2).1 = true
  /\ face_count (clean_geometry peeling_trimesh first.2).2 = 2%nat.
Proof. repeat split; by_evaluation. Qed.


